(** * LCIcoder: the LCI measurement-element codec of [LCIcoder.cpp]

    A shallow embedding of the encoder and the decoder of [LCIcoder.cpp]
    and the properties of the codec proved on it.

    Conventions of the embedding.
    - A C [char] is an [ascii]; a memory block holding a C string is a
      [list ascii] that contains its terminating NUL.  Every access to a
      block goes through [load] and [store], which answer [OutOfBounds]
      outside the block, so a function that returns [Ok] has touched no
      character outside the block it was given.
    - A C [int] or [long long] is a [Z]; shifts and masks are the ones of
      [Z] (two's complement, arithmetic right shift).  The numbers are not
      wrapped: this is the arithmetic of the code as long as no C integer
      overflows, that is up to three octets in [getnumber] (an [int]),
      widths up to 62 bits in [getbits], [putbits] and [propagate_sign]
      (a [long long] and its mask [1LL << nlen]), and doubles cast to an
      integer inside its range.  The program itself uses two and three
      octets and widths up to 34 bits; the statements about these
      functions keep to these ranges.  Positions in a block ([nbyt],
      [indx], [slen]) are never negative and are [nat].
    - A C [double] is the rational number it denotes ([Q]).  The
      arithmetic the program does on doubles is a scaling by a power of
      two, a rounding to an integer and [exp2] of an integer, all exact
      on the rationals, for [exp2] as long as the exponent is one of a
      double; [log2] of the C library is a parameter of the development.
      The one operation that is rounded in the code is the subtraction
      [log2(val) - eps] in [encodebinarydot]: here it is exact, which
      gives the code's result except when [log2(val)] lies within the
      rounding error of an integer plus [eps].
    - The global variables of the program are the record [globals];
      functions that assign them return the new record.  The array
      [BSSIDS] is the list of the strings in its slots in use; the block
      of pointers behind it, which [decodeColocatedBSSID] does not grow,
      is kept by [decodeColocatedBSSID_array].
    - The [ERROR:] and [WARNING:] lines the codec functions print are
      collected, in order, as a list of [diag].  The lines of the
      character conversions [hextoint] and [inttohex], and the verbose,
      trace and debug output, are not collected. *)

From Stdlib Require Import ZArith QArith Qround Qpower Ascii String Lia Lqa.
From stdpp Require Import base option list.

Local Open Scope Z_scope.

(** ** Constants and enumerations *)

Definition LCI_VERSION_1 : Z := 1.
Definition MAX_LCI_UNCERTAINTY : Z := 34.
Definition MAX_Z_UNCERTAINTY : Z := 24.
Definition MEASURE_TOKEN : Z := 1.
Definition MEASURE_REQUEST_MODE : Z := 0.
Definition LCI_TYPE : Z := 8.

Definition LCI_CODE : Z := 0.
Definition Z_CODE : Z := 4.
Definition USAGE_CODE : Z := 6.
Definition COLOCATED_BSSID : Z := 7.

(** ** Outcome of a computation on memory blocks *)

Inductive run (A : Type) : Type :=
| Ok (a : A)
| OutOfBounds
| OutOfFuel.
Arguments Ok {A} a.
Arguments OutOfBounds {A}.
Arguments OutOfFuel {A}.

Definition bind {A B : Type} (m : run A) (f : A → run B) : run B :=
  match m with
  | Ok a => f a
  | OutOfBounds => OutOfBounds
  | OutOfFuel => OutOfFuel
  end.

Notation "x <- m ;; k" := (bind m (λ x, k))
  (at level 100, m at next level, right associativity).

Definition is_Ok {A : Type} (m : run A) : Prop := ∃ a, m = Ok a.

(** ** Diagnostics: the ERROR and WARNING lines of the codec *)

Inductive diag : Type :=
(* encodebinarydot *)
| ErrUncertaintyNonPositive (val : Q)
| WarnUncertaintyWayTooLarge (val : Q)
| WarnUncertaintyTooSmall (val : Q) (res : Z)
(* checksettings *)
| WarnAndroidRetransmission
| WarnAndroidRetentionExpires
| WarnAndroidExpiration
| WarnAndroidExpectedToMove
(* encodeUsageField *)
| WarnRetentionButNoExpiration
| WarnExpirationButNoRetention
(* placeBSSID *)
| ErrInvalidBSSIDFormat (bssid : list ascii)
(* decodeColocatedBSSID *)
| WarnMaxBSSIDIndicatorNonZero (ind : Z)
| WarnMaxBSSIDIndicatorMismatch (ind n : Z)
| ErrInvalidBSSID (bssid : list ascii)
(* decodeLCIfield *)
| ErrLatitudeUncertaintyCode (code : Z)
| ErrLongitudeUncertaintyCode (code : Z)
| ErrAltitudeUncertaintyCode (code : Z)
| ErrLCIVersion (v : Z)
(* decodeLCIstring *)
| ErrBadMeasurementElementType (a b c : Z)
| ErrBadLengthCode (ID nlen : Z) (nbyt slen : nat)
| ErrLCILength (nlen : Z)
| ErrLCIBits (indx : nat)
| ErrZLength (nlen : Z)
| ErrZUncertaintyCode (code : Z)
| ErrUsageLength (nlen : Z)
| WarnRetentionLength (nlen : Z)
| WarnNoRetentionLength (nlen : Z)
| ErrBSSIDLength (nlen : Z)
| ErrUnrecognizedSubelement (ID nlen : Z) (pos : nat).

(** ** Characters and hexadecimal digits *)

Definition char_code (c : ascii) : Z := Z.of_N (N_of_ascii c).
Definition char_of_code (k : Z) : ascii := ascii_of_N (Z.to_N k).
Definition NUL : ascii := zero.

Definition ishexdigit (c : Z) : bool :=
  if (48 <=? c) && (c <=? 57) then true
  else if (65 <=? c) && (c <=? 70) then true
  else if (97 <=? c) && (c <=? 102) then true
  else false.

Definition hextoint (c : Z) : Z :=
  if (48 <=? c) && (c <=? 57) then Z.land c 15
  else if (65 <=? c) && (c <=? 70) then Z.land c 15 + 9
  else if (97 <=? c) && (c <=? 102) then Z.land c 15 + 9
  else 0.

Definition hexdigits : list ascii := list_ascii_of_string "0123456789abcdef".

Definition inttohex (k : Z) : Z :=
  if (0 <=? k) && (k <=? 15) then char_code (nth (Z.to_nat k) hexdigits NUL)
  else 0.

(** ** Memory blocks *)

Definition load (str : list ascii) (i : nat) : run ascii :=
  match str !! i with
  | Some c => Ok c
  | None => OutOfBounds
  end.

Definition store (str : list ascii) (i : nat) (c : ascii) : run (list ascii) :=
  if decide (i < length str)%nat then Ok (<[i:=c]> str) else OutOfBounds.

(** [strlen]: the position of the first NUL of the block. *)
Fixpoint strlen (str : list ascii) : run nat :=
  match str with
  | [] => OutOfBounds
  | c :: rest => if Ascii.eqb c NUL then Ok O else n <- strlen rest;; Ok (S n)
  end.

(** The contents of the C string held by a block. *)
Fixpoint c_str (str : list ascii) : list ascii :=
  match str with
  | [] => []
  | c :: rest => if Ascii.eqb c NUL then [] else c :: c_str rest
  end.

(** The block of a string literal: its characters and the terminator. *)
Definition block_of (s : string) : list ascii := list_ascii_of_string s ++ [NUL].

(** [strndup] (through [strncpy_s]): at most [nlen] characters, up to a NUL. *)
Fixpoint strndup (str : list ascii) (pos : nat) (nlen : nat) : run (list ascii) :=
  match nlen with
  | O => Ok []
  | S n =>
      c <- load str pos;;
      if Ascii.eqb c NUL then Ok []
      else rest <- strndup str (S pos) n;; Ok (c :: rest)
  end.

(** ** Bit and byte accessors *)

Definition getoctet (str : list ascii) (nbyt : nat) : run Z :=
  c1 <- load str (nbyt * 2);;
  c2 <- load str (nbyt * 2 + 1);;
  Ok (Z.lor (Z.shiftl (hextoint (char_code c1)) 4) (hextoint (char_code c2))).

Fixpoint getnumber_loop (str : list ascii) (k : nat) (n : nat) (res : Z) : run Z :=
  match n with
  | O => Ok res
  | S n' =>
      o <- getoctet str k;;
      getnumber_loop str (S k) n' (Z.lor (Z.shiftl res 8) o)
  end.

Definition getnumber (str : list ascii) (nbyt ndig : nat) : run Z :=
  getnumber_loop str nbyt ndig 0.

Definition getbit (str : list ascii) (indx : nat) : run bool :=
  let nbyt := (indx / 8)%nat in
  let lft := (indx - nbyt * 8)%nat in
  chr <- getoctet str nbyt;;
  Ok (negb (Z.land chr (Z.shiftl 1 (Z.of_nat lft)) =? 0)).

Fixpoint getbits_loop (str : list ascii) (k : nat) (n : nat) (bit res : Z) : run Z :=
  match n with
  | O => Ok res
  | S n' =>
      b <- getbit str k;;
      getbits_loop str (S k) n' (Z.shiftl bit 1) (if b then Z.lor res bit else res)
  end.

Definition getbits (str : list ascii) (bstart nlen : nat) : run Z :=
  getbits_loop str bstart nlen 1 0.

Definition putoctet (str : list ascii) (nbyt : nat) (oct : Z) : run (list ascii) :=
  str <- store str (nbyt * 2) (char_of_code (inttohex (Z.shiftr oct 4)));;
  store str (nbyt * 2 + 1) (char_of_code (inttohex (Z.land oct 15))).

Fixpoint putnumber_loop (str : list ascii) (k : nat) (n : nat) (num : Z) : run (list ascii) :=
  match n with
  | O => Ok str
  | S n' =>
      let byt := Z.land (Z.shiftr num (Z.of_nat n' * 8)) 255 in
      str <- putoctet str k byt;;
      putnumber_loop str (S k) n' num
  end.

Definition putnumber (str : list ascii) (nbyt ndig : nat) (num : Z) : run (list ascii) :=
  putnumber_loop str nbyt ndig num.

Definition putbit (str : list ascii) (indx : nat) (bit : bool) : run (list ascii) :=
  let nbyt := (indx / 8)%nat in
  let lft := (indx - nbyt * 8)%nat in
  oct <- getoctet str nbyt;;
  let mask := Z.shiftl 1 (Z.of_nat lft) in
  let oct := if bit then Z.lor oct mask else Z.land oct (Z.lnot mask) in
  putoctet str nbyt oct.

Fixpoint putbits_loop (str : list ascii) (k : nat) (n : nat) (bit val : Z) : run (list ascii) :=
  match n with
  | O => Ok str
  | S n' =>
      str <- putbit str k (negb (Z.land val bit =? 0));;
      putbits_loop str (S k) n' (Z.shiftl bit 1) val
  end.

Definition putbits (str : list ascii) (bstart nlen : nat) (val : Z) : run (list ascii) :=
  putbits_loop str bstart nlen 1 val.

Definition isValidBSSID (str : list ascii) : bool :=
  let hex i := ishexdigit (char_code (nth i str NUL)) in
  let sep i := let c := char_code (nth i str NUL) in
               (c =? 58) || (c =? 45) || (c =? 95) in
  if (length str =? 17)%nat then
    forallb (λ k, (if (0 <? k)%nat then sep (3 * k - 1)%nat else true)
                  && hex (3 * k)%nat && hex (3 * k + 1)%nat) (seq 0 6)
  else if (length str =? 12)%nat then
    forallb (λ k, hex (2 * k)%nat && hex (2 * k + 1)%nat) (seq 0 6)
  else false.

Definition propagate_sign (res : Z) (nlen : Z) : Z :=
  if negb (Z.land res (Z.shiftl 1 (nlen - 1)) =? 0)
  then Z.lor res (Z.lnot (Z.shiftl 1 nlen - 1))
  else res.

(** ** Doubles as rationals *)

Definition Qpositive (q : Q) : bool := negb (Qle_bool q 0).
Definition Qnonzero (q : Q) : bool := negb (Qeq_bool q 0).

(** [round] and [roundl]: to the nearest integer, halfway cases away from zero. *)
Definition round (q : Q) : Z :=
  if Qle_bool 0 q then Qfloor (q + (1 # 2)) else Qceiling (q - (1 # 2)).

(** The conversion [(int)x] of a double: towards zero. *)
Definition trunc (q : Q) : Z :=
  if Qle_bool 0 q then Qfloor q else Qceiling q.

Definition exp2 (k : Z) : Q := Qpower 2 k.

Definition decodebinarydot (n m : Z) : Q := exp2 (m - n).

(** ** The global variables *)

Record lci_vars : Type := {
  latitude : Q;
  longitude : Q;
  altitude : Q;
  latitude_uncertainty : Q;
  longitude_uncertainty : Q;
  altitude_uncertainty : Q;
  Altitude_Type : Z;
  datum : Z;
  RegLoc_Agreement : Z;
  RegLoc_DSE : Z;
  Dependent_STA : Z;
  LCI_version : Z
}.

Record z_vars : Type := {
  expected_to_move : Z;
  sta_floor : Q;
  sta_height_above_floor : Q;
  sta_height_above_floor_uncertainty : Q
}.

Record usage_vars : Type := {
  retransmission_allowed : Z;
  retention_expires_present : Z;
  STA_location_policy : Z;
  expiration : Z
}.

Record flag_vars : Type := {
  smallestflag : Z;
  wantLCIflag : Z;
  wantZflag : Z;
  wantUsageflag : Z;
  wantColocatedflag : Z
}.

(** [BSSIDS] holds the [bssid_index] strings in use: [bssid_index] is its length. *)
Record globals : Type := {
  lci : lci_vars;
  zsub : z_vars;
  usage : usage_vars;
  BSSIDS : list (list ascii);
  flags : flag_vars
}.

Definition bssid_index (g : globals) : nat := length (BSSIDS g).

Definition set_lci (g : globals) (v : lci_vars) : globals :=
  {| lci := v; zsub := zsub g; usage := usage g; BSSIDS := BSSIDS g; flags := flags g |}.
Definition set_zsub (g : globals) (v : z_vars) : globals :=
  {| lci := lci g; zsub := v; usage := usage g; BSSIDS := BSSIDS g; flags := flags g |}.
Definition set_usage (g : globals) (v : usage_vars) : globals :=
  {| lci := lci g; zsub := zsub g; usage := v; BSSIDS := BSSIDS g; flags := flags g |}.
Definition set_BSSIDS (g : globals) (v : list (list ascii)) : globals :=
  {| lci := lci g; zsub := zsub g; usage := usage g; BSSIDS := v; flags := flags g |}.
Definition set_retention_expires_present (u : usage_vars) (v : Z) : usage_vars :=
  {| retransmission_allowed := retransmission_allowed u;
     retention_expires_present := v;
     STA_location_policy := STA_location_policy u;
     expiration := expiration u |}.

(** The values the globals are initialised with. *)
Definition default_lci : lci_vars :=
  {| latitude := 0; longitude := 0; altitude := 0;
     latitude_uncertainty := 0; longitude_uncertainty := 0; altitude_uncertainty := 0;
     Altitude_Type := 1; datum := 1;
     RegLoc_Agreement := 0; RegLoc_DSE := 0; Dependent_STA := 0;
     LCI_version := LCI_VERSION_1 |}.
Definition default_zsub : z_vars :=
  {| expected_to_move := 0; sta_floor := 0; sta_height_above_floor := 0;
     sta_height_above_floor_uncertainty := 0 |}.
Definition default_usage : usage_vars :=
  {| retransmission_allowed := 1; retention_expires_present := 0;
     STA_location_policy := 0; expiration := 0 |}.
Definition default_flags : flag_vars :=
  {| smallestflag := 0; wantLCIflag := 1; wantZflag := 1; wantUsageflag := 1;
     wantColocatedflag := 1 |}.
Definition default_globals : globals :=
  {| lci := default_lci; zsub := default_zsub; usage := default_usage;
     BSSIDS := []; flags := default_flags |}.

(** A C condition [if (x)] on an [int]. *)
Definition truthy (x : Z) : bool := negb (x =? 0).
(** The [int] value of a C comparison. *)
Definition of_bool (b : bool) : Z := if b then 1 else 0.

Definition checksettings (g : globals) : list diag :=
  (if truthy (retransmission_allowed (usage g)) then [] else [WarnAndroidRetransmission])
  ++ (if truthy (retention_expires_present (usage g)) then [WarnAndroidRetentionExpires] else [])
  ++ (if expiration (usage g) =? 0 then [] else [WarnAndroidExpiration])
  ++ (if truthy (expected_to_move (zsub g)) then [WarnAndroidExpectedToMove] else []).

(** ** Encoding *)

Definition eps : Q := 1 # 1000000.

Section Encoder.

(** [log2] of the C library. *)
Variable log2 : Q → Q.

Definition encodebinarydot (val : Q) (m : Z) : Z * list diag :=
  if Qle_bool val 0 then (0, [ErrUncertaintyNonPositive val])
  else
    let res := m - Qceiling (log2 val - eps) in
    if res <=? 0 then (1, [WarnUncertaintyWayTooLarge val])
    else if MAX_LCI_UNCERTAINTY <? res
         then (MAX_LCI_UNCERTAINTY, [WarnUncertaintyTooSmall val res])
         else (res, []).

(** The three-way choice repeated for each uncertainty in [encodeLCIfield]
    and [encodeZfield]: a positive uncertainty is coded by
    [encodebinarydot], a zero one as unknown, or as [max] under
    [smallestflag]. *)
Definition uncertainty_code (smallest : Z) (u : Q) (m max : Z) : Z * list diag :=
  if Qpositive u then encodebinarydot u m
  else if negb (truthy smallest) then (0, [])
  else (max, []).

Definition encodeLCIfield (str : list ascii) (nbyt : nat) (g : globals)
  : run (list ascii * nat * list diag) :=
  let v := lci g in
  str <- putoctet str nbyt LCI_CODE;;
  str <- putoctet str (nbyt + 1) 16;;
  let nbyt := (nbyt + 2)%nat in
  let indx := (nbyt * 8)%nat in
  let Latitude := round (latitude v * inject_Z (Z.shiftl 1 25)) in
  let Longitude := round (longitude v * inject_Z (Z.shiftl 1 25)) in
  let Altitude := round (altitude v * inject_Z (Z.shiftl 1 8)) in
  let '(Latitude_Uncertainty, d1) :=
    uncertainty_code (smallestflag (flags g)) (latitude_uncertainty v) 8 MAX_LCI_UNCERTAINTY in
  let '(Longitude_Uncertainty, d2) :=
    uncertainty_code (smallestflag (flags g)) (longitude_uncertainty v) 8 MAX_LCI_UNCERTAINTY in
  let '(Altitude_Uncertainty, d3) :=
    uncertainty_code (smallestflag (flags g)) (altitude_uncertainty v) 21 MAX_LCI_UNCERTAINTY in
  str <- putbits str indx 6 Latitude_Uncertainty;;
  let indx := (indx + 6)%nat in
  str <- putbits str indx 34 Latitude;;
  let indx := (indx + 34)%nat in
  str <- putbits str indx 6 Longitude_Uncertainty;;
  let indx := (indx + 6)%nat in
  str <- putbits str indx 34 Longitude;;
  let indx := (indx + 34)%nat in
  str <- putbits str indx 4 (Altitude_Type v);;
  let indx := (indx + 4)%nat in
  str <- putbits str indx 6 Altitude_Uncertainty;;
  let indx := (indx + 6)%nat in
  str <- putbits str indx 30 Altitude;;
  let indx := (indx + 30)%nat in
  str <- putbits str indx 3 (datum v);;
  let indx := (indx + 3)%nat in
  str <- putbits str indx 1 (RegLoc_Agreement v);;
  let indx := (indx + 1)%nat in
  str <- putbits str indx 1 (RegLoc_DSE v);;
  let indx := (indx + 1)%nat in
  str <- putbits str indx 1 (Dependent_STA v);;
  let indx := (indx + 1)%nat in
  str <- putbits str indx 2 (LCI_version v);;
  let indx := (indx + 2)%nat in
  let nbyt := (indx / 8)%nat in
  str <- store str (nbyt * 2) NUL;;
  Ok (str, nbyt, d1 ++ d2 ++ d3).

Definition encodeZfield (str : list ascii) (nbyt : nat) (g : globals)
  : run (list ascii * nat * list diag) :=
  let v := zsub g in
  str <- putoctet str nbyt Z_CODE;;
  str <- putoctet str (nbyt + 1) 6;;
  let nbyt := (nbyt + 2)%nat in
  let STA_Floor_Info :=
    Z.lor (Z.land (expected_to_move v) 3) (Z.shiftl (trunc (sta_floor v * 16)) 2) in
  let STA_Height_Above_Floor := trunc (sta_height_above_floor v * 4096) in
  let '(code, d) :=
    uncertainty_code (smallestflag (flags g)) (sta_height_above_floor_uncertainty v)
                     11 MAX_Z_UNCERTAINTY in
  let STA_Height_Above_Floor_Uncertainty :=
    if MAX_Z_UNCERTAINTY <? code then MAX_Z_UNCERTAINTY else code in
  str <- putnumber str nbyt 2 STA_Floor_Info;;
  let nbyt := (nbyt + 2)%nat in
  str <- putnumber str nbyt 3 STA_Height_Above_Floor;;
  let nbyt := (nbyt + 3)%nat in
  str <- putnumber str nbyt 1 STA_Height_Above_Floor_Uncertainty;;
  let nbyt := (nbyt + 1)%nat in
  str <- store str (nbyt * 2) NUL;;
  Ok (str, nbyt, d).

End Encoder.

(** [encodeUsageField] assigns the global [retention_expires_present]: it
    returns the new globals. *)
Definition encodeUsageField (str : list ascii) (nbyt : nat) (g : globals)
  : run (list ascii * nat * globals * list diag) :=
  let u := usage g in
  let nlen := if truthy (retention_expires_present u) then 3 else 1 in
  let '(u, nlen, d) :=
    if truthy (retention_expires_present u) then
      if expiration u =? 0
      then (set_retention_expires_present u 0, 1, [WarnRetentionButNoExpiration])
      else (u, nlen, [])
    else
      if negb (expiration u =? 0)
      then (set_retention_expires_present u 1, 3, [WarnExpirationButNoRetention])
      else (u, nlen, []) in
  str <- putoctet str nbyt USAGE_CODE;;
  str <- putoctet str (nbyt + 1) nlen;;
  let nbyt := (nbyt + 2)%nat in
  let parameters :=
    Z.lor (Z.lor (retransmission_allowed u) (Z.shiftl (retention_expires_present u) 1))
          (Z.shiftl (STA_location_policy u) 2) in
  str <- putoctet str nbyt parameters;;
  let nbyt := (nbyt + 1)%nat in
  r <- (if truthy (retention_expires_present u)
        then str <- putnumber str nbyt 2 (expiration u);; Ok (str, (nbyt + 2)%nat)
        else Ok (str, nbyt));;
  let '(str, nbyt) := r in
  str <- store str (nbyt * 2) NUL;;
  Ok (str, nbyt, set_usage g u, d).

(** The copying loop of [placeBSSID]: six pairs of characters, taken
    [stride] apart in [bssid]. *)
Fixpoint placeBSSID_loop (str : list ascii) (nbyt : nat) (bssid : list ascii)
    (stride k n : nat) : run (list ascii * nat) :=
  match n with
  | O => Ok (str, nbyt)
  | S n' =>
      str <- store str (nbyt * 2) (nth (k * stride) bssid NUL);;
      str <- store str (nbyt * 2 + 1) (nth (k * stride + 1) bssid NUL);;
      placeBSSID_loop str (S nbyt) bssid stride (S k) n'
  end.

Definition placeBSSID (str : list ascii) (nbyt : nat) (bssid : list ascii)
  : run (list ascii * nat * list diag) :=
  if (length bssid =? 17)%nat then
    r <- placeBSSID_loop str nbyt bssid 3 0 6;; Ok (r, [])
  else if (length bssid =? 12)%nat then
    r <- placeBSSID_loop str nbyt bssid 2 0 6;; Ok (r, [])
  else Ok (str, nbyt, [ErrInvalidBSSIDFormat bssid]).

Fixpoint placeBSSIDs (str : list ascii) (nbyt : nat) (bssids : list (list ascii))
  : run (list ascii * nat * list diag) :=
  match bssids with
  | [] => Ok (str, nbyt, [])
  | bssid :: rest =>
      r <- placeBSSID str nbyt bssid;;
      let '(str, nbyt, d) := r in
      r <- placeBSSIDs str nbyt rest;;
      let '(str, nbyt, d') := r in
      Ok (str, nbyt, d ++ d')
  end.

Definition encodeColocatedBSSID (str : list ascii) (nbyt : nat) (nbssids : nat) (g : globals)
  : run (list ascii * nat * list diag) :=
  if (bssid_index g =? 0)%nat then Ok (str, nbyt, [])
  else
    let maxBSSIDindicator := Z.of_nat (bssid_index g) in
    str <- putoctet str nbyt COLOCATED_BSSID;;
    str <- putoctet str (nbyt + 1) (Z.of_nat nbssids * 6 + 1);;
    str <- putoctet str (nbyt + 2) maxBSSIDindicator;;
    r <- placeBSSIDs str (nbyt + 3) (BSSIDS g);;
    let '(str, nbyt, d) := r in
    str <- store str (nbyt * 2) NUL;;
    Ok (str, nbyt, d).

Section Container.

Variable log2 : Q → Q.

(** [encodeLCIstring] returns the block it allocated; [c_str] of it is the
    string the program prints. *)
Definition encodeLCIstring (g : globals) : run (list ascii * globals * list diag) :=
  let nbyt := (3 + (2 + 16) + (2 + 6) + (2 + 3) + (2 + 6 * bssid_index g + 1))%nat in
  let nlen := (nbyt * 2)%nat in
  let str := replicate nlen "0"%char ++ [NUL] in
  let nbyt := 0%nat in
  let d0 := checksettings g in
  str <- putoctet str nbyt MEASURE_TOKEN;;
  str <- putoctet str (nbyt + 1) MEASURE_REQUEST_MODE;;
  str <- putoctet str (nbyt + 2) LCI_TYPE;;
  let nbyt := (nbyt + 3)%nat in
  let needLCIflag :=
    Qnonzero (latitude (lci g)) || Qnonzero (longitude (lci g))
    || Qnonzero (altitude (lci g)) in
  r <- (if truthy (wantLCIflag (flags g))
        then encodeLCIfield log2 str nbyt g
        else Ok (str, nbyt, []));;
  let '(str, nbyt, d1) := r in
  let needZflag :=
    Qnonzero (sta_floor (zsub g)) || Qnonzero (sta_height_above_floor (zsub g))
    || Qnonzero (sta_height_above_floor_uncertainty (zsub g)) in
  r <- (if truthy (wantZflag (flags g))
        then encodeZfield log2 str nbyt g
        else Ok (str, nbyt, []));;
  let '(str, nbyt, d2) := r in
  let needBSSIDflag := (0 <? bssid_index g)%nat in
  r <- (if truthy (wantColocatedflag (flags g)) && needBSSIDflag
        then encodeColocatedBSSID str nbyt (bssid_index g) g
        else Ok (str, nbyt, []));;
  let '(str, nbyt, d3) := r in
  let needUsageFlag := needLCIflag || needZflag || needBSSIDflag in
  r <- (if truthy (wantUsageflag (flags g)) && needUsageFlag
        then encodeUsageField str nbyt g
        else Ok (str, nbyt, g, []));;
  let '(str, nbyt, g, d4) := r in
  Ok (str, g, d0 ++ d1 ++ d2 ++ d3 ++ d4).

End Container.

(** ** Decoding *)

Fixpoint decodeColocatedBSSID_loop (str : list ascii) (nbyt : nat) (n : nat)
  : run (nat * list (list ascii) * list diag) :=
  match n with
  | O => Ok (nbyt, [], [])
  | S n' =>
      bssid <- strndup str (nbyt * 2) (6 * 2);;
      let nbyt := (nbyt + 6)%nat in
      let d := if isValidBSSID bssid then [] else [ErrInvalidBSSID bssid] in
      r <- decodeColocatedBSSID_loop str nbyt n';;
      let '(nbyt, rest, d') := r in
      Ok (nbyt, bssid :: rest, d ++ d')
  end.

(** Returns the new position and the new contents of [BSSIDS]
    ([bssid_index] is its length). *)
Definition decodeColocatedBSSID (str : list ascii) (nbyt : nat) (nlen : Z)
  : run (nat * list (list ascii) * list diag) :=
  maxBSSIDindicator <- getoctet str nbyt;;
  let nbyt := (nbyt + 1)%nat in
  let d :=
    if negb (maxBSSIDindicator =? 0) then
      WarnMaxBSSIDIndicatorNonZero maxBSSIDindicator ::
      (if negb (maxBSSIDindicator =? Z.quot (nlen - 1) 6)
       then [WarnMaxBSSIDIndicatorMismatch maxBSSIDindicator (Z.quot (nlen - 1) 6)]
       else [])
    else [] in
  let nBSSID := Z.quot (nlen - 1) 6 in
  r <- decodeColocatedBSSID_loop str nbyt (Z.to_nat nBSSID);;
  let '(nbyt, bssids, d') := r in
  Ok (nbyt, bssids, d ++ d').

(** *** The array behind [BSSIDS]

    [BSSIDS] points to a block of [max_bssids + 1] pointers, allocated by
    [initialize_arrays].  [extractBSSID] grows the block with [realloc]
    before it stores into it; [decodeColocatedBSSID] stores [BSSIDS[k]]
    for every address of the subelement into the block as it is.  The
    functions below are [decodeColocatedBSSID] again, with the block: a
    slot is [None] for a null pointer, and a store outside the block is
    [OutOfBounds]. *)
Definition max_bssids : nat := 10.

Definition initialize_arrays : list (option (list ascii)) :=
  replicate (max_bssids + 1) None.

(** The assignment [BSSIDS[k] = p]. *)
Definition store_BSSIDS (arr : list (option (list ascii))) (k : nat) (p : list ascii)
  : run (list (option (list ascii))) :=
  if decide (k < length arr)%nat then Ok (<[k := Some p]> arr) else OutOfBounds.

Fixpoint decodeColocatedBSSID_array_loop (arr : list (option (list ascii)))
    (str : list ascii) (nbyt : nat) (k : nat) (n : nat)
  : run (nat * list (option (list ascii)) * list diag) :=
  match n with
  | O => Ok (nbyt, arr, [])
  | S n' =>
      bssid <- strndup str (nbyt * 2) (6 * 2);;
      arr <- store_BSSIDS arr k bssid;;
      let nbyt := (nbyt + 6)%nat in
      let d := if isValidBSSID bssid then [] else [ErrInvalidBSSID bssid] in
      r <- decodeColocatedBSSID_array_loop arr str nbyt (S k) n';;
      let '(nbyt, arr, d') := r in
      Ok (nbyt, arr, d ++ d')
  end.

(** Returns the new position and the array; [bssid_index] becomes
    [(nlen - 1) / 6]. *)
Definition decodeColocatedBSSID_array (arr : list (option (list ascii)))
    (str : list ascii) (nbyt : nat) (nlen : Z)
  : run (nat * list (option (list ascii)) * list diag) :=
  maxBSSIDindicator <- getoctet str nbyt;;
  let nbyt := (nbyt + 1)%nat in
  let d :=
    if negb (maxBSSIDindicator =? 0) then
      WarnMaxBSSIDIndicatorNonZero maxBSSIDindicator ::
      (if negb (maxBSSIDindicator =? Z.quot (nlen - 1) 6)
       then [WarnMaxBSSIDIndicatorMismatch maxBSSIDindicator (Z.quot (nlen - 1) 6)]
       else [])
    else [] in
  let nBSSID := Z.quot (nlen - 1) 6 in
  r <- decodeColocatedBSSID_array_loop arr str nbyt 0 (Z.to_nat nBSSID);;
  let '(nbyt, arr, d') := r in
  Ok (nbyt, arr, d ++ d').

Definition decodeLCIfield (str : list ascii) (indx : nat)
  : run (nat * lci_vars * list diag) :=
  Latitude_Uncertainty <- getbits str indx 6;;
  let indx := (indx + 6)%nat in
  let d1 := if MAX_LCI_UNCERTAINTY <? Latitude_Uncertainty
            then [ErrLatitudeUncertaintyCode Latitude_Uncertainty] else [] in
  let Latitude_Uncertainty :=
    if MAX_LCI_UNCERTAINTY <? Latitude_Uncertainty
    then MAX_LCI_UNCERTAINTY else Latitude_Uncertainty in
  let latitude_uncertainty :=
    if Latitude_Uncertainty =? 0 then 0%Q else decodebinarydot Latitude_Uncertainty 8 in
  Latitude <- getbits str indx 34;;
  let indx := (indx + 34)%nat in
  let Latitude := propagate_sign Latitude 34 in
  let latitude := (inject_Z Latitude / inject_Z (Z.shiftl 1 25))%Q in
  Longitude_Uncertainty <- getbits str indx 6;;
  let indx := (indx + 6)%nat in
  let d2 := if MAX_LCI_UNCERTAINTY <? Longitude_Uncertainty
            then [ErrLongitudeUncertaintyCode Longitude_Uncertainty] else [] in
  let Longitude_Uncertainty :=
    if MAX_LCI_UNCERTAINTY <? Longitude_Uncertainty
    then MAX_LCI_UNCERTAINTY else Longitude_Uncertainty in
  let longitude_uncertainty :=
    if Longitude_Uncertainty =? 0 then 0%Q else decodebinarydot Longitude_Uncertainty 8 in
  Longitude <- getbits str indx 34;;
  let indx := (indx + 34)%nat in
  let Longitude := propagate_sign Longitude 34 in
  let longitude := (inject_Z Longitude / inject_Z (Z.shiftl 1 25))%Q in
  Altitude_Type <- getbits str indx 4;;
  let indx := (indx + 4)%nat in
  Altitude_Uncertainty <- getbits str indx 6;;
  let indx := (indx + 6)%nat in
  let d3 := if MAX_LCI_UNCERTAINTY <? Altitude_Uncertainty
            then [ErrAltitudeUncertaintyCode Altitude_Uncertainty] else [] in
  let Altitude_Uncertainty :=
    if MAX_LCI_UNCERTAINTY <? Altitude_Uncertainty
    then MAX_LCI_UNCERTAINTY else Altitude_Uncertainty in
  let altitude_uncertainty :=
    if Altitude_Uncertainty =? 0 then 0%Q else decodebinarydot Altitude_Uncertainty 21 in
  Altitude <- getbits str indx 30;;
  let indx := (indx + 30)%nat in
  let altitude := (inject_Z Altitude / 256)%Q in
  datum <- getbits str indx 3;;
  let indx := (indx + 3)%nat in
  RegLoc_Agreement <- getbits str indx 1;;
  let indx := (indx + 1)%nat in
  RegLoc_DSE <- getbits str indx 1;;
  let indx := (indx + 1)%nat in
  Dependent_STA <- getbits str indx 1;;
  let indx := (indx + 1)%nat in
  LCI_version <- getbits str indx 2;;
  let indx := (indx + 2)%nat in
  let d4 := if negb (LCI_version =? LCI_VERSION_1) then [ErrLCIVersion LCI_version] else [] in
  Ok (indx,
      {| latitude := latitude; longitude := longitude; altitude := altitude;
         latitude_uncertainty := latitude_uncertainty;
         longitude_uncertainty := longitude_uncertainty;
         altitude_uncertainty := altitude_uncertainty;
         Altitude_Type := Altitude_Type; datum := datum;
         RegLoc_Agreement := RegLoc_Agreement; RegLoc_DSE := RegLoc_DSE;
         Dependent_STA := Dependent_STA; LCI_version := LCI_version |},
      d1 ++ d2 ++ d3 ++ d4).

(** One turn of the [while] loop of [decodeLCIstring], entered at [nbyt]
    with the loop condition true: [inl] is a [break] out of the loop,
    [inr] the position at which the loop condition is tested next. *)
Definition decode_subelement (str : list ascii) (slen : nat) (nbyt : nat) (g : globals)
  : run ((unit + nat) * globals * list diag) :=
  ID <- getoctet str nbyt;;
  nlen <- getoctet str (nbyt + 1);;
  let nbyt := (nbyt + 2)%nat in
  if (slen <? nbyt + Z.to_nat nlen)%nat then
    Ok (inl tt, g, [ErrBadLengthCode ID nlen nbyt slen])
  else if ID =? LCI_CODE then
    if nlen =? 0 then Ok (inr nbyt, g, [])
    else if negb (nlen =? 16) then
      Ok (inr (nbyt + Z.to_nat nlen)%nat, g, [ErrLCILength nlen])
    else
      r <- decodeLCIfield (drop (nbyt * 2) str) 0;;
      let '(indx, v, d) := r in
      let d' := if negb (indx =? 128)%nat then [ErrLCIBits indx] else [] in
      Ok (inr (nbyt + indx / 8)%nat, set_lci g v, d ++ d')
  else if ID =? Z_CODE then
    let d0 := if negb (nlen =? 6) then [ErrZLength nlen] else [] in
    if negb (nlen =? 6) && negb (nlen =? 5) then
      Ok (inr (nbyt + Z.to_nat nlen)%nat, g, d0)
    else
      STA_Floor_Info <- getnumber str nbyt 2;;
      let nbyt := (nbyt + 2)%nat in
      let expected_to_move := Z.land STA_Floor_Info 3 in
      let sta_floor := (inject_Z (Z.shiftr STA_Floor_Info 2) / 16)%Q in
      r <- (if nlen =? 5
            then h <- getnumber str nbyt 2;; Ok (h, (nbyt + 2)%nat)
            else h <- getnumber str nbyt 3;; Ok (h, (nbyt + 3)%nat));;
      let '(STA_Height_Above_Floor, nbyt) := r in
      let sta_height_above_floor := (inject_Z STA_Height_Above_Floor / 4096)%Q in
      STA_Height_Above_Floor_Uncertainty <- getoctet str nbyt;;
      let nbyt := (nbyt + 1)%nat in
      let d1 := if MAX_Z_UNCERTAINTY <? STA_Height_Above_Floor_Uncertainty
                then [ErrZUncertaintyCode STA_Height_Above_Floor_Uncertainty] else [] in
      let sta_height_above_floor_uncertainty :=
        if 0 <? STA_Height_Above_Floor_Uncertainty
        then decodebinarydot STA_Height_Above_Floor_Uncertainty 11 else 0%Q in
      Ok (inr nbyt,
          set_zsub g {| expected_to_move := expected_to_move; sta_floor := sta_floor;
                        sta_height_above_floor := sta_height_above_floor;
                        sta_height_above_floor_uncertainty :=
                          sta_height_above_floor_uncertainty |},
          d0 ++ d1)
  else if ID =? USAGE_CODE then
    if negb (nlen =? 1) && negb (nlen =? 3) then
      Ok (inr (nbyt + Z.to_nat nlen)%nat, g, [ErrUsageLength nlen])
    else
      parameters <- getoctet str nbyt;;
      let nbyt := (nbyt + 1)%nat in
      let retransmission_allowed := of_bool (negb (Z.land parameters 1 =? 0)) in
      let retention_expires_present := of_bool (negb (Z.land parameters 2 =? 0)) in
      let STA_location_policy := of_bool (negb (Z.land parameters 4 =? 0)) in
      r <- (if nlen =? 1 then Ok (0, nbyt)
            else e <- getnumber str nbyt 2;; Ok (e, (nbyt + Z.to_nat (nlen - 1))%nat));;
      let '(expiration, nbyt) := r in
      let d1 := if truthy retention_expires_present && negb (nlen =? 3)
                then [WarnRetentionLength nlen] else [] in
      let d2 := if negb (truthy retention_expires_present) && negb (nlen =? 1)
                   && negb (expiration =? 0)
                then [WarnNoRetentionLength nlen] else [] in
      Ok (inr nbyt,
          set_usage g {| retransmission_allowed := retransmission_allowed;
                         retention_expires_present := retention_expires_present;
                         STA_location_policy := STA_location_policy;
                         expiration := expiration |},
          d1 ++ d2)
  else if ID =? COLOCATED_BSSID then
    let d0 := if negb (Z.rem (nlen - 1) 6 =? 0) then [ErrBSSIDLength nlen] else [] in
    r <- decodeColocatedBSSID str nbyt nlen;;
    let '(nbyt, bssids, d) := r in
    Ok (inr nbyt, set_BSSIDS g bssids, d0 ++ d)
  else
    Ok (inr (nbyt + Z.to_nat nlen)%nat, g, [ErrUnrecognizedSubelement ID nlen (nbyt - 2)]).

(** The [while] loop of [decodeLCIstring].  Every turn that does not
    [break] moves [nbyt] forward, so [slen] turns are enough; [fuel] bounds
    the number of turns. *)
Fixpoint decode_loop (fuel : nat) (str : list ascii) (slen : nat) (nbyt : nat) (g : globals)
  : run (globals * list diag) :=
  if (nbyt <? slen)%nat then
    c <- load str (nbyt * 2);;
    if negb (Ascii.eqb c NUL) then
      match fuel with
      | O => OutOfFuel
      | S fuel' =>
          r <- decode_subelement str slen nbyt g;;
          let '(next, g, d) := r in
          match next with
          | inl _ => Ok (g, d)
          | inr nbyt =>
              r <- decode_loop fuel' str slen nbyt g;;
              let '(g, d') := r in
              Ok (g, d ++ d')
          end
      end
    else Ok (g, [])
  else Ok (g, []).

(** [decodeLCIstring] assigns the globals: it returns the new globals. *)
Definition decodeLCIstring (str : list ascii) (g : globals) : run (globals * list diag) :=
  n <- strlen str;;
  let slen := (n / 2)%nat in
  a <- getoctet str 0;;
  b <- getoctet str 1;;
  c <- getoctet str 2;;
  let d0 := if negb (a =? MEASURE_TOKEN) || negb (b =? MEASURE_REQUEST_MODE)
               || negb (c =? LCI_TYPE)
            then [ErrBadMeasurementElementType a b c] else [] in
  r <- decode_loop slen str slen 3 g;;
  let '(g, d) := r in
  Ok (g, d0 ++ d ++ checksettings g).

(** ** A model of [log2]

    The development is parametric in [log2].  To run the encoder, and to
    show that what is assumed of [log2] can be met, [log2_model] is exact
    on the powers of two and interpolates linearly between two of them. *)

Definition floor_log2 (q : Q) : Z :=
  if Qle_bool 1 q then Z.log2 (Qfloor q) else - Z.log2_up (Qceiling (/ q)).

Definition log2_model (q : Q) : Q :=
  let k := floor_log2 q in
  (inject_Z k + (q / exp2 k - 1))%Q.

(** ** Views of a block used in the statements *)

(** The two characters [putoctet] writes for an octet. *)
Definition hexpair (oct : Z) : list ascii :=
  [char_of_code (inttohex (Z.shiftr oct 4)); char_of_code (inttohex (Z.land oct 15))].

Definition hexstr (octs : list Z) : list ascii := concat (map hexpair octs).

(** The value [getoctet] reads at octet [nbyt] of a block that holds it. *)
Definition octet_at (str : list ascii) (nbyt : nat) : Z :=
  Z.lor (Z.shiftl (hextoint (char_code (nth (nbyt * 2) str NUL))) 4)
        (hextoint (char_code (nth (nbyt * 2 + 1) str NUL))).

(** Bit [indx] of a block in the order of [getbit]. *)
Definition bit_at (str : list ascii) (indx : nat) : bool :=
  Z.testbit (octet_at str (indx / 8)) (Z.of_nat (indx mod 8)).

Definition hexchar (c : ascii) : Prop := ishexdigit (char_code c) = true.



(** ** What the accessors write *)

(** [putoctet] as a pure update of the block. *)
Definition wr_octet (str : list ascii) (k : nat) (oct : Z) : list ascii :=
  <[(k * 2 + 1)%nat := char_of_code (inttohex (Z.land oct 15))]>
    (<[(k * 2)%nat := char_of_code (inttohex (Z.shiftr oct 4))]> str).

(** The octet with bit [lft] set or cleared, as in [putbit]. *)
Definition upd_bit (oct : Z) (lft : Z) (bit : bool) : Z :=
  let mask := Z.shiftl 1 lft in
  if bit then Z.lor oct mask else Z.land oct (Z.lnot mask).

(** [putbit] as a pure update of the block. *)
Definition wr_bit (str : list ascii) (i : nat) (bit : bool) : list ascii :=
  wr_octet str (i / 8) (upd_bit (octet_at str (i / 8)) (Z.of_nat (i mod 8)) bit).

(** [putbits_loop] as a pure update: [j] is the position of [bit] in [val]. *)
Fixpoint wr_bits (str : list ascii) (k n : nat) (j : Z) (val : Z) : list ascii :=
  match n with
  | O => str
  | S n' => wr_bits (wr_bit str k (Z.testbit val j)) (S k) n' (j + 1) val
  end.

(** The value [getbits] reads: the bits from [k] on, the first the lowest. *)
Fixpoint bits_val (str : list ascii) (k n : nat) : Z :=
  match n with
  | O => 0
  | S n' => Z.b2z (bit_at str k) + 2 * bits_val str (S k) n'
  end.

(** A run of [putbits] calls: the fields [(width, value)] written one after
    the other from bit [indx] on. *)
Fixpoint wr_fields (str : list ascii) (indx : nat) (fields : list (nat * Z)) : list ascii :=
  match fields with
  | [] => str
  | (w, v) :: rest => wr_fields (wr_bits str indx w 0 v) (indx + w) rest
  end.

(** The number of bits a list of fields takes. *)
Fixpoint width (fields : list (nat * Z)) : nat :=
  match fields with
  | [] => 0
  | (w, _) :: rest => w + width rest
  end.

(** The octets [putnumber] writes: [ndig] octets, the most significant first. *)
Fixpoint be_octets (ndig : nat) (num : Z) : list Z :=
  match ndig with
  | O => []
  | S n => Z.land (Z.shiftr num (Z.of_nat n * 8)) 255 :: be_octets n num
  end.

(** ** The wire format of the encoders and the reading of the decoders *)

Section WireFormat.

Variable log2 : Q → Q.

(** *** What the encoders write *)

(** The Usage settings after [encodeUsageField] has made the
    retention-expires-present flag agree with the expiration. *)
Definition usage_reconciled (u : usage_vars) : usage_vars :=
  if truthy (retention_expires_present u) then
    if expiration u =? 0 then set_retention_expires_present u 0 else u
  else
    if negb (expiration u =? 0) then set_retention_expires_present u 1 else u.

(** The warning [encodeUsageField] prints when it overrides the flag. *)
Definition usage_diags (u : usage_vars) : list diag :=
  if truthy (retention_expires_present u) then
    if expiration u =? 0 then [WarnRetentionButNoExpiration] else []
  else
    if negb (expiration u =? 0) then [WarnExpirationButNoRetention] else [].

(** The octets of the Usage subelement: ID, length, parameters and, when
    the flag is set, the expiration. *)
Definition Usage_octets (u : usage_vars) : list Z :=
  let u' := usage_reconciled u in
  [USAGE_CODE;
   if truthy (retention_expires_present u') then 3 else 1;
   Z.lor (Z.lor (retransmission_allowed u') (Z.shiftl (retention_expires_present u') 1))
         (Z.shiftl (STA_location_policy u') 2)]
  ++ (if truthy (retention_expires_present u') then be_octets 2 (expiration u') else []).

(** The bit fields [encodeLCIfield] writes, in order. *)
Definition LCI_fields (g : globals) : list (nat * Z) :=
  let v := lci g in
  let s := smallestflag (flags g) in
  [(6%nat, fst (uncertainty_code log2 s (latitude_uncertainty v) 8 MAX_LCI_UNCERTAINTY));
   (34%nat, round (latitude v * inject_Z (Z.shiftl 1 25)));
   (6%nat, fst (uncertainty_code log2 s (longitude_uncertainty v) 8 MAX_LCI_UNCERTAINTY));
   (34%nat, round (longitude v * inject_Z (Z.shiftl 1 25)));
   (4%nat, Altitude_Type v);
   (6%nat, fst (uncertainty_code log2 s (altitude_uncertainty v) 21 MAX_LCI_UNCERTAINTY));
   (30%nat, round (altitude v * inject_Z (Z.shiftl 1 8)));
   (3%nat, datum v);
   (1%nat, RegLoc_Agreement v);
   (1%nat, RegLoc_DSE v);
   (1%nat, Dependent_STA v);
   (2%nat, LCI_version v)].

(** The diagnostics of the three uncertainty codes of [encodeLCIfield]. *)
Definition LCI_diags (g : globals) : list diag :=
  let v := lci g in
  let s := smallestflag (flags g) in
  snd (uncertainty_code log2 s (latitude_uncertainty v) 8 MAX_LCI_UNCERTAINTY)
  ++ snd (uncertainty_code log2 s (longitude_uncertainty v) 8 MAX_LCI_UNCERTAINTY)
  ++ snd (uncertainty_code log2 s (altitude_uncertainty v) 21 MAX_LCI_UNCERTAINTY).

(** The STA Floor Info field of [encodeZfield]. *)
Definition Z_fields_info (g : globals) : Z :=
  Z.lor (Z.land (expected_to_move (zsub g)) 3) (Z.shiftl (trunc (sta_floor (zsub g) * 16)) 2).

(** The height-uncertainty code of [encodeZfield], after its clamp. *)
Definition Z_code (g : globals) : Z :=
  let code := fst (uncertainty_code log2 (smallestflag (flags g))
                     (sta_height_above_floor_uncertainty (zsub g)) 11 MAX_Z_UNCERTAINTY) in
  if MAX_Z_UNCERTAINTY <? code then MAX_Z_UNCERTAINTY else code.

(** The octets of the Z subelement. *)
Definition Z_octets (g : globals) : list Z :=
  [Z_CODE; 6] ++ be_octets 2 (Z_fields_info g)
  ++ be_octets 3 (trunc (sta_height_above_floor (zsub g) * 4096))
  ++ be_octets 1 (Z_code g).

(** The diagnostics of the uncertainty code of [encodeZfield]. *)
Definition Z_diags (g : globals) : list diag :=
  snd (uncertainty_code log2 (smallestflag (flags g))
         (sta_height_above_floor_uncertainty (zsub g)) 11 MAX_Z_UNCERTAINTY).

(** The characters [placeBSSID_loop] copies. *)
Fixpoint bssid_pairs (bssid : list ascii) (stride k n : nat) : list ascii :=
  match n with
  | O => []
  | S n' =>
      nth (k * stride) bssid NUL :: nth (k * stride + 1) bssid NUL
        :: bssid_pairs bssid stride (S k) n'
  end.

(** The characters [placeBSSID] writes for one BSSID string. *)
Definition placed (bssid : list ascii) : list ascii :=
  if (length bssid =? 17)%nat then bssid_pairs bssid 3 0 6
  else if (length bssid =? 12)%nat then bssid_pairs bssid 2 0 6
  else [].

(** The diagnostic of [placeBSSID] for a string of the wrong length. *)
Definition placed_diags (bssid : list ascii) : list diag :=
  if (length bssid =? 17)%nat then []
  else if (length bssid =? 12)%nat then []
  else [ErrInvalidBSSIDFormat bssid].

(** The characters of the loop over [BSSIDS] in [encodeColocatedBSSID]. *)
Definition all_placed (bssids : list (list ascii)) : list ascii := concat (map placed bssids).

(** The diagnostics of that loop. *)
Definition all_placed_diags (bssids : list (list ascii)) : list diag :=
  concat (map placed_diags bssids).

(** The characters of the Colocated BSSID subelement: ID, length,
    MaxBSSIDIndicator and the addresses. *)
Definition BSSID_seg (g : globals) : list ascii :=
  hexstr [COLOCATED_BSSID; Z.of_nat (bssid_index g) * 6 + 1; Z.of_nat (bssid_index g)]
  ++ all_placed (BSSIDS g).

(** *** The element *)

(** What is left of the block after [c] characters of subelements: the
    terminator written by the last encoder, then the untouched part. *)
Definition tailc (R0 : list ascii) (c : nat) : list ascii :=
  if (c =? 0)%nat then R0 else NUL :: drop (c + 1) R0.

(** The local [needLCIflag] of [encodeLCIstring]. *)
Definition needLCI (g : globals) : bool :=
  Qnonzero (latitude (lci g)) || Qnonzero (longitude (lci g)) || Qnonzero (altitude (lci g)).

(** The local [needZflag] of [encodeLCIstring]. *)
Definition needZ (g : globals) : bool :=
  Qnonzero (sta_floor (zsub g)) || Qnonzero (sta_height_above_floor (zsub g))
  || Qnonzero (sta_height_above_floor_uncertainty (zsub g)).

(** The local [needBSSIDflag] of [encodeLCIstring]. *)
Definition needBSSID (g : globals) : bool := (0 <? bssid_index g)%nat.

(** The conditions under which [encodeLCIstring] calls each encoder. *)
Definition emitLCI (g : globals) : bool := truthy (wantLCIflag (flags g)).

Definition emitZ (g : globals) : bool := truthy (wantZflag (flags g)).

Definition emitBSSID (g : globals) : bool :=
  truthy (wantColocatedflag (flags g)) && needBSSID g.

Definition emitUsage (g : globals) : bool :=
  truthy (wantUsageflag (flags g)) && (needLCI g || needZ g || needBSSID g).

(** The sixteen octets of the LCI field, written into a block of ['0']s. *)
Definition LCI_body (g : globals) : list ascii :=
  wr_fields (replicate 32 "0"%char) 0 (LCI_fields g).

(** The characters of the LCI subelement. *)
Definition LCI_seg (g : globals) : list ascii := hexstr [LCI_CODE; 16] ++ LCI_body g.

(** The characters each subelement contributes to the element. *)
Definition segLCI g := if emitLCI g then LCI_seg g else [].

Definition segZ g := if emitZ g then hexstr (Z_octets g) else [].

Definition segBSSID g := if emitBSSID g then BSSID_seg g else [].

Definition segUsage g := if emitUsage g then hexstr (Usage_octets (usage g)) else [].

(** The Measurement Report header. *)
Definition header : list ascii := hexstr [MEASURE_TOKEN; MEASURE_REQUEST_MODE; LCI_TYPE].

(** The characters of the element [encodeLCIstring] writes. *)
Definition wire (g : globals) : list ascii :=
  header ++ segLCI g ++ segZ g ++ segBSSID g ++ segUsage g.

(** The globals after [encodeLCIstring]. *)
Definition encode_globals (g : globals) : globals :=
  if emitUsage g then set_usage g (usage_reconciled (usage g)) else g.

(** The diagnostics of [encodeLCIstring]. *)
Definition encode_diags (g : globals) : list diag :=
  checksettings g
  ++ (if emitLCI g then LCI_diags g else [])
  ++ (if emitZ g then Z_diags g else [])
  ++ (if emitBSSID g then all_placed_diags (BSSIDS g) else [])
  ++ (if emitUsage g then usage_diags (usage g) else []).

(** The part of the block allocated by [encodeLCIstring] that follows the
    header: ['0']s and the terminator. *)
Definition R0 (g : globals) : list ascii :=
  replicate (68 + 12 * bssid_index g) "0"%char ++ [NUL].

(** *** What the decoders read *)

(** A value that fits an octet. *)
Definition octet (v : Z) : Prop := 0 ≤ v < 256.

(** The Z settings [decodeLCIstring] derives from the three numbers of a
    Z subelement. *)
Definition Z_decoded (info h code : Z) : z_vars :=
  {| expected_to_move := Z.land info 3;
     sta_floor := (inject_Z (Z.shiftr info 2) / 16)%Q;
     sta_height_above_floor := (inject_Z h / 4096)%Q;
     sta_height_above_floor_uncertainty :=
       if 0 <? code then decodebinarydot code 11 else 0%Q |}.

(** The Usage settings [decodeLCIstring] derives from the parameters
    octet and the expiration. *)
Definition Usage_decoded (parameters expiration : Z) : usage_vars :=
  {| retransmission_allowed := of_bool (negb (Z.land parameters 1 =? 0));
     retention_expires_present := of_bool (negb (Z.land parameters 2 =? 0));
     STA_location_policy := of_bool (negb (Z.land parameters 4 =? 0));
     expiration := expiration |}.

(** The warnings of the Usage case of [decodeLCIstring]. *)
Definition Usage_decode_diags (parameters nlen expiration : Z) : list diag :=
  let present := of_bool (negb (Z.land parameters 2 =? 0)) in
  (if truthy present && negb (nlen =? 3) then [WarnRetentionLength nlen] else [])
  ++ (if negb (truthy present) && negb (nlen =? 1) && negb (expiration =? 0)
      then [WarnNoRetentionLength nlen] else []).

(** [n] successive runs of twelve characters. *)
Fixpoint chunks12 (l : list ascii) (n : nat) : list (list ascii) :=
  match n with
  | O => []
  | S n' => take 12 l :: chunks12 (drop 12 l) n'
  end.

(** The diagnostics of [decodeColocatedBSSID] for the strings that are
    not valid BSSIDs. *)
Definition bssid_errors (bssids : list (list ascii)) : list diag :=
  concat (map (λ b, if isValidBSSID b then [] else [ErrInvalidBSSID b]) bssids).

(** The warnings of [decodeColocatedBSSID] about the MaxBSSIDIndicator. *)
Definition indicator_diags (ind n : Z) : list diag :=
  if negb (ind =? 0) then
    WarnMaxBSSIDIndicatorNonZero ind ::
    (if negb (ind =? n) then [WarnMaxBSSIDIndicatorMismatch ind n] else [])
  else [].

(** The interpretation [decodeLCIfield] gives to the twelve fields it reads. *)
Definition clamp_code (code : Z) : Z :=
  if MAX_LCI_UNCERTAINTY <? code then MAX_LCI_UNCERTAINTY else code.

(** The LCI settings [decodeLCIfield] derives from the twelve bit fields. *)
Definition LCI_interpret (c1 lat c2 lon atype c3 alt dat ra rd ds ver : Z) : lci_vars :=
  {| latitude := (inject_Z (propagate_sign lat 34) / inject_Z (Z.shiftl 1 25))%Q;
     longitude := (inject_Z (propagate_sign lon 34) / inject_Z (Z.shiftl 1 25))%Q;
     altitude := (inject_Z alt / 256)%Q;
     latitude_uncertainty :=
       if clamp_code c1 =? 0 then 0%Q else decodebinarydot (clamp_code c1) 8;
     longitude_uncertainty :=
       if clamp_code c2 =? 0 then 0%Q else decodebinarydot (clamp_code c2) 8;
     altitude_uncertainty :=
       if clamp_code c3 =? 0 then 0%Q else decodebinarydot (clamp_code c3) 21;
     Altitude_Type := atype; datum := dat;
     RegLoc_Agreement := ra; RegLoc_DSE := rd; Dependent_STA := ds; LCI_version := ver |}.

(** The diagnostics of [decodeLCIfield]. *)
Definition LCI_interpret_diags (c1 c2 c3 ver : Z) : list diag :=
  (if MAX_LCI_UNCERTAINTY <? c1 then [ErrLatitudeUncertaintyCode c1] else [])
  ++ (if MAX_LCI_UNCERTAINTY <? c2 then [ErrLongitudeUncertaintyCode c2] else [])
  ++ (if MAX_LCI_UNCERTAINTY <? c3 then [ErrAltitudeUncertaintyCode c3] else [])
  ++ (if negb (ver =? LCI_VERSION_1) then [ErrLCIVersion ver] else []).

(** The bit fields [decodeLCIfield] reads from a block. *)
Definition LCI_of_block (str : list ascii) : lci_vars :=
  LCI_interpret (bits_val str 0 6) (bits_val str 6 34) (bits_val str 40 6)
    (bits_val str 46 34) (bits_val str 80 4) (bits_val str 84 6) (bits_val str 90 30)
    (bits_val str 120 3) (bits_val str 123 1) (bits_val str 124 1) (bits_val str 125 1)
    (bits_val str 126 2).

(** The diagnostics of [decodeLCIfield] on a block. *)
Definition LCI_diags_of_block (str : list ascii) : list diag :=
  LCI_interpret_diags (bits_val str 0 6) (bits_val str 40 6) (bits_val str 84 6)
    (bits_val str 126 2).

(** A subelement as the loop of [decodeLCIstring] sees it: its characters,
    its number of octets, what decoding it does to the globals and the
    diagnostics it prints. *)
Record sub : Type := {
  chars : list ascii;
  octs : nat;
  eff : globals → globals;
  dg : list diag
}.

(** [s] is decoded that way wherever it stands in a string that has room
    for it. *)
Definition sub_ok (s : sub) : Prop :=
  (∃ c rest, chars s = c :: rest ∧ c ≠ NUL)
  ∧ length (chars s) = (octs s * 2)%nat
  ∧ ∀ pre post slen m g0,
      length pre = (m * 2)%nat → (m + octs s ≤ slen)%nat →
      decode_subelement (pre ++ chars s ++ post) slen m g0
      = Ok (inr (m + octs s)%nat, eff s g0, dg s).

(** The characters, octets, effect and diagnostics of a sequence of
    subelements. *)
Definition subs_chars (l : list sub) : list ascii := concat (map chars l).

Definition subs_octs (l : list sub) : nat := sum_list_with octs l.

Definition subs_eff (l : list sub) (g : globals) : globals :=
  fold_left (λ g s, eff s g) l g.

Definition subs_dg (l : list sub) : list diag := concat (map dg l).

(** *** Settings the element can carry *)

(** A BSSID string of one of the two lengths [placeBSSID] accepts. *)
Definition wf_bssid (b : list ascii) : Prop :=
  (length b = 12%nat ∨ length b = 17%nat) ∧ Forall (λ c, c ≠ NUL) b.

(** A flag that holds 0 or 1. *)
Definition flag01 (x : Z) : Prop := x = 0 ∨ x = 1.

(** Usage settings whose flags hold 0 or 1. *)
Definition wf_usage (u : usage_vars) : Prop :=
  flag01 (retransmission_allowed u) ∧ flag01 (retention_expires_present u)
  ∧ flag01 (STA_location_policy u).

(** Settings the element can carry: well-formed BSSIDs, few enough for
    the length octet, and Usage flags that hold 0 or 1. *)
Definition wf_globals (g : globals) : Prop :=
  Forall wf_bssid (BSSIDS g) ∧ (bssid_index g ≤ 42)%nat ∧ wf_usage (usage g).

(** The subelements [encodeLCIstring] writes, as the decoder reads them. *)
Definition subLCI (g : globals) : sub :=
  {| chars := LCI_seg g; octs := 18;
     eff := λ g0, set_lci g0 (LCI_of_block (LCI_body g));
     dg := LCI_diags_of_block (LCI_body g) |}.

Definition subZ (g : globals) : sub :=
  {| chars := hexstr (Z_octets g); octs := 8;
     eff := λ g0, set_zsub g0 (Z_decoded (Z_fields_info g mod 2 ^ 16)
                                 (trunc (sta_height_above_floor (zsub g) * 4096) mod 2 ^ 24)
                                 (Z_code g));
     dg := if MAX_Z_UNCERTAINTY <? Z_code g
           then [ErrZUncertaintyCode (Z_code g)] else [] |}.

Definition subBSSID (g : globals) : sub :=
  {| chars := BSSID_seg g; octs := 3 + 6 * bssid_index g;
     eff := λ g0, set_BSSIDS g0 (chunks12 (all_placed (BSSIDS g)) (bssid_index g));
     dg := indicator_diags (Z.of_nat (bssid_index g)) (Z.of_nat (bssid_index g))
           ++ bssid_errors (chunks12 (all_placed (BSSIDS g)) (bssid_index g)) |}.

(** The parameters octet of the Usage subelement. *)
Definition Usage_parameters (u : usage_vars) : Z :=
  Z.lor (Z.lor (retransmission_allowed u) (Z.shiftl (retention_expires_present u) 1))
        (Z.shiftl (STA_location_policy u) 2).

Definition subUsage (g : globals) : sub :=
  let u := usage_reconciled (usage g) in
  let e := if truthy (retention_expires_present u) then expiration u mod 2 ^ 16 else 0 in
  let nlen := if truthy (retention_expires_present u) then 3 else 1 in
  {| chars := hexstr (Usage_octets (usage g)); octs := length (Usage_octets (usage g));
     eff := λ g0, set_usage g0 (Usage_decoded (Usage_parameters u) e);
     dg := Usage_decode_diags (Usage_parameters u) nlen e |}.

(** The subelements of an encoded element, in the order they are written. *)
Definition enc_subs (g : globals) : list sub :=
  (if emitLCI g then [subLCI g] else [])
  ++ (if emitZ g then [subZ g] else [])
  ++ (if emitBSSID g then [subBSSID g] else [])
  ++ (if emitUsage g then [subUsage g] else []).

(** Some subelement is written. *)
Definition emit_any (g : globals) : bool :=
  emitLCI g || emitZ g || emitBSSID g || emitUsage g.

(** *** The assumption on [log2] *)

(** What the development assumes of [log2]: it is exact on the powers of two. *)
Definition log2_exact (log2 : Q → Q) : Prop :=
  ∀ (q : Q) (k : Z), (q == exp2 k)%Q → (log2 q == inject_Z k)%Q.

(** *** Configurations the wire format represents exactly *)

(** A configuration the wire format represents exactly. *)
Record representable (g : globals) : Prop := {
  rep_lat : ∃ a, (latitude (lci g) == inject_Z a / inject_Z (2 ^ 25))%Q
                 ∧ - 2 ^ 33 ≤ a < 2 ^ 33;
  rep_lon : ∃ a, (longitude (lci g) == inject_Z a / inject_Z (2 ^ 25))%Q
                 ∧ - 2 ^ 33 ≤ a < 2 ^ 33;
  rep_alt : ∃ a, (altitude (lci g) == inject_Z a / inject_Z (2 ^ 8))%Q ∧ 0 ≤ a < 2 ^ 30;
  rep_floor : ∃ a, (sta_floor (zsub g) == inject_Z a / inject_Z (2 ^ 4))%Q ∧ 0 ≤ a < 2 ^ 14;
  rep_height : ∃ a, (sta_height_above_floor (zsub g) == inject_Z a / inject_Z (2 ^ 12))%Q
                    ∧ 0 ≤ a < 2 ^ 24;
  rep_lat_unc : ∃ c, (latitude_uncertainty (lci g) == exp2 (8 - c))%Q
                     ∧ 1 ≤ c ≤ MAX_LCI_UNCERTAINTY;
  rep_lon_unc : ∃ c, (longitude_uncertainty (lci g) == exp2 (8 - c))%Q
                     ∧ 1 ≤ c ≤ MAX_LCI_UNCERTAINTY;
  rep_alt_unc : ∃ c, (altitude_uncertainty (lci g) == exp2 (21 - c))%Q
                     ∧ 1 ≤ c ≤ MAX_LCI_UNCERTAINTY;
  rep_height_unc : ∃ c, (sta_height_above_floor_uncertainty (zsub g) == exp2 (11 - c))%Q
                        ∧ 1 ≤ c ≤ MAX_Z_UNCERTAINTY
}.

(** *** The subelements framed in a string *)

(** The identifiers of the subelements of an element string, read the way
    every receiver frames them: from octet 3, an ID octet, a length octet and
    that many octets of body, up to the end of the string. *)
Fixpoint subelement_ids_from (fuel : nat) (str : list ascii) (slen nbyt : nat)
  : run (list Z) :=
  if (nbyt + 2 <=? slen)%nat then
    match fuel with
    | O => OutOfFuel
    | S fuel' =>
        ID <- getoctet str nbyt;;
        nlen <- getoctet str (nbyt + 1);;
        ids <- subelement_ids_from fuel' str slen (nbyt + 2 + Z.to_nat nlen);;
        Ok (ID :: ids)
    end
  else Ok [].

(** The identifiers of the subelements of a C string. *)
Definition subelement_ids (str : list ascii) : run (list Z) :=
  n <- strlen str;;
  subelement_ids_from (n / 2) str (n / 2) 3.

(** [s] is a subelement with identifier [id]: ID octet, length octet, body
    of the declared length. *)
Definition framed (id : Z) (s : list ascii) : Prop :=
  ∃ len body,
    octet id ∧ octet len ∧ s = hexstr [id; len] ++ body
    ∧ length body = (Z.to_nat len * 2)%nat.

(** The subelements [encodeLCIstring] writes, with their identifiers. *)
Definition enc_frames (g : globals) : list (Z * list ascii) :=
  (if emitLCI g then [(LCI_CODE, LCI_seg g)] else [])
  ++ (if emitZ g then [(Z_CODE, hexstr (Z_octets g))] else [])
  ++ (if emitBSSID g then [(COLOCATED_BSSID, BSSID_seg g)] else [])
  ++ (if emitUsage g then [(USAGE_CODE, hexstr (Usage_octets (usage g)))] else []).

(** The identifiers in the order the encoder writes them. *)
Definition enc_ids (g : globals) : list Z :=
  (if emitLCI g then [LCI_CODE] else [])
  ++ (if emitZ g then [Z_CODE] else [])
  ++ (if emitBSSID g then [COLOCATED_BSSID] else [])
  ++ (if emitUsage g then [USAGE_CODE] else []).

End WireFormat.

(** ** Concrete configurations *)

(** One colocated BSSID, everything else as initialised. *)
Definition one_bssid : globals :=
  set_BSSIDS default_globals [list_ascii_of_string "00:11:22:33:44:55"].

(** The station one floor below the reference floor. *)
Definition floor_minus_one : globals :=
  set_zsub default_globals
    {| expected_to_move := 0; sta_floor := -1; sta_height_above_floor := 0;
       sta_height_above_floor_uncertainty := 0 |}.

(** Uncertainties that are powers of two, [2^(m - c)] with the exponent
    offsets [encodeLCIfield] and [encodeZfield] pass to [encodebinarydot]. *)
Definition unit_uncertainties (lat : Q) : globals :=
  {| lci := {| latitude := lat; longitude := 0; altitude := 0;
               latitude_uncertainty := 1; longitude_uncertainty := 1;
               altitude_uncertainty := 1;
               Altitude_Type := 1; datum := 1;
               RegLoc_Agreement := 0; RegLoc_DSE := 0; Dependent_STA := 0;
               LCI_version := LCI_VERSION_1 |};
     zsub := {| expected_to_move := 0; sta_floor := 0; sta_height_above_floor := 0;
                sta_height_above_floor_uncertainty := 1 |};
     usage := default_usage; BSSIDS := []; flags := default_flags |}.

(** Only the Usage subelement asked for, with a latitude set. *)
Definition usage_only : globals :=
  {| lci := {| latitude := 1; longitude := 0; altitude := 0;
               latitude_uncertainty := 0; longitude_uncertainty := 0;
               altitude_uncertainty := 0;
               Altitude_Type := 1; datum := 1;
               RegLoc_Agreement := 0; RegLoc_DSE := 0; Dependent_STA := 0;
               LCI_version := LCI_VERSION_1 |};
     zsub := default_zsub; usage := default_usage; BSSIDS := [];
     flags := {| smallestflag := 0; wantLCIflag := 0; wantZflag := 0; wantUsageflag := 1;
                 wantColocatedflag := 0 |} |}.

(** A latitude uncertainty of 1, every other uncertainty left at 0. *)
Definition latitude_uncertainty_one : globals :=
  set_lci default_globals
    {| latitude := 0; longitude := 0; altitude := 0;
       latitude_uncertainty := 1; longitude_uncertainty := 0; altitude_uncertainty := 0;
       Altitude_Type := 1; datum := 1;
       RegLoc_Agreement := 0; RegLoc_DSE := 0; Dependent_STA := 0;
       LCI_version := LCI_VERSION_1 |}.

(** The retention-expires-present flag set, and no expiration. *)
Definition retention_without_expiration : globals :=
  set_usage default_globals
    {| retransmission_allowed := 1; retention_expires_present := 1;
       STA_location_policy := 0; expiration := 0 |}.

(** An expiration of 5 hours, and the retention-expires-present flag clear. *)
Definition expiration_without_retention : globals :=
  set_usage default_globals
    {| retransmission_allowed := 1; retention_expires_present := 0;
       STA_location_policy := 0; expiration := 5 |}.

(** Forty-three colocated BSSIDs, everything else as initialised. *)
Definition forty_three_bssids : globals :=
  set_BSSIDS default_globals (replicate 43 (list_ascii_of_string "001122334455")).

(** Twelve addresses, the last digit telling them apart, and the body of
    the Colocated BSSID subelement that holds them after an indicator 0. *)
Definition twelve_addresses : list (list ascii) :=
  map (λ c, list_ascii_of_string "00112233445" ++ [c]) (list_ascii_of_string "0123456789ab").

Definition twelve_addresses_body : list ascii :=
  hexpair 0 ++ concat twelve_addresses ++ [NUL].

(** ** The list of BSSIDs of the command line *)

(** [strchr] from position [pos] of a block: the position of the first
    [ch], nothing when the terminator comes first. *)
Fixpoint strchr_in (s : list ascii) (pos : nat) (ch : ascii) : run (option nat) :=
  match s with
  | [] => OutOfBounds
  | c :: rest =>
      if Ascii.eqb c ch then Ok (Some pos)
      else if Ascii.eqb c NUL then Ok None
      else strchr_in rest (S pos) ch
  end.

Definition strchr (str : list ascii) (pos : nat) (ch : ascii) : run (option nat) :=
  strchr_in (drop pos str) pos ch.

(** The [while] loop of [extractBSSID], with [str] at position [pos] of the
    block.  It returns the new contents of [BSSIDS] and the strings of the
    [ERROR: invalid colocated BSSID] lines, in order.  The array [BSSIDS]
    is grown by [realloc] as needed; the list of the model has no
    capacity.  Every turn moves [str] forward, so [fuel], the length of the
    block, is enough. *)
Fixpoint extractBSSID_loop (fuel : nat) (str : list ascii) (pos : nat)
    (bssids : list (list ascii)) : run (list (list ascii) * list (list ascii)) :=
  c <- load str pos;;
  if Ascii.eqb c NUL then Ok (bssids, [])
  else
    match fuel with
    | O => OutOfFuel
    | S fuel' =>
        found <- strchr str pos ","%char;;
        strend <- match found with
                  | Some p => Ok p
                  | None => n <- strlen (drop pos str);; Ok (pos + n)%nat
                  end;;
        BSSID <- strndup str pos (strend - pos);;
        let '(bssids, rejected) :=
          if isValidBSSID BSSID then (bssids ++ [BSSID], []) else (bssids, [BSSID]) in
        e <- load str strend;;
        if Ascii.eqb e NUL then Ok (bssids, rejected)
        else
          r <- extractBSSID_loop fuel' str (strend + 1) bssids;;
          let '(bssids, rejected') := r in
          Ok (bssids, rejected ++ rejected')
    end.

Definition extractBSSID (str : list ascii) (g : globals)
  : run (globals * list (list ascii)) :=
  r <- extractBSSID_loop (length str) str 0 (BSSIDS g);;
  let '(bssids, rejected) := r in
  Ok (set_BSSIDS g bssids, rejected).

(** The strings [ts] separated by commas. *)
Fixpoint comma_list (ts : list (list ascii)) : list ascii :=
  match ts with
  | [] => []
  | [t] => t
  | t :: rest => t ++ ","%char :: comma_list rest
  end.

(** A string with neither a comma nor a NUL in it. *)
Definition token (t : list ascii) : Prop :=
  Forall (λ c, c ≠ ","%char ∧ c ≠ NUL) t.

(** ** Settings with valid BSSIDs *)

(** A BSSID given and no include-flag set. *)
Definition nothing_wanted : globals :=
  {| lci := default_lci; zsub := default_zsub; usage := default_usage;
     BSSIDS := [list_ascii_of_string "001122334455"];
     flags := {| smallestflag := 0; wantLCIflag := 0; wantZflag := 0; wantUsageflag := 0;
                 wantColocatedflag := 0 |} |}.

(** One metre below the reference level, everything else as initialised. *)
Definition below_reference : globals :=
  set_lci default_globals
    {| latitude := 0; longitude := 0; altitude := -1;
       latitude_uncertainty := 0; longitude_uncertainty := 0; altitude_uncertainty := 0;
       Altitude_Type := 1; datum := 1;
       RegLoc_Agreement := 0; RegLoc_DSE := 0; Dependent_STA := 0;
       LCI_version := LCI_VERSION_1 |}.

(** The hexadecimal digits of a string, in order. *)
Definition digits_of (b : list ascii) : list ascii :=
  List.filter (λ c, ishexdigit (char_code c)) b.

(** Settings whose BSSIDs are strings [isValidBSSID] accepts, as
    [extractBSSID] leaves them, few enough for the length octet, and whose
    Usage flags hold 0 or 1. *)
Definition valid_globals (g : globals) : Prop :=
  Forall (λ b, isValidBSSID b = true) (BSSIDS g) ∧ (bssid_index g ≤ 42)%nat
  ∧ wf_usage (usage g).

(** ** Views of the decoder *)



(** An altitude, a floor and a height above floor of one third, which is
    no multiple of a power of two; everything else as initialised. *)
Definition thirds : globals :=
  {| lci := {| latitude := 0; longitude := 0; altitude := 1 # 3;
               latitude_uncertainty := 0; longitude_uncertainty := 0;
               altitude_uncertainty := 0;
               Altitude_Type := 1; datum := 1;
               RegLoc_Agreement := 0; RegLoc_DSE := 0; Dependent_STA := 0;
               LCI_version := LCI_VERSION_1 |};
     zsub := {| expected_to_move := 0; sta_floor := 1 # 3;
                sta_height_above_floor := 1 # 3;
                sta_height_above_floor_uncertainty := 0 |};
     usage := default_usage; BSSIDS := []; flags := default_flags |}.

(** * Properties *)

(** Facts about the embedding; the statements that settle the specification
    carry the identifier of the statement they settle. *)

(** ** Characters *)

Lemma char_code_range c : 0 ≤ char_code c < 256.
Proof.
  unfold char_code. pose proof (N_ascii_bounded c) as H. lia.
Qed.

Lemma char_code_of_code k : 0 ≤ k < 256 → char_code (char_of_code k) = k.
Proof.
  intros H. unfold char_code, char_of_code.
  rewrite N_ascii_embedding by lia. lia.
Qed.

Lemma char_of_code_code c : char_of_code (char_code c) = c.
Proof.
  unfold char_code, char_of_code. rewrite N2Z.id. apply ascii_N_embedding.
Qed.

Lemma char_code_inj c1 c2 : char_code c1 = char_code c2 → c1 = c2.
Proof.
  intros H. rewrite <- (char_of_code_code c1), <- (char_of_code_code c2). now rewrite H.
Qed.

(** Boolean tests of the code as linear arithmetic. *)
Ltac bool_arith :=
  repeat match goal with
  | H : _ && _ = true |- _ => apply andb_true_iff in H; destruct H
  | H : _ && _ = false |- _ => apply andb_false_iff in H
  | H : _ || _ = true |- _ => apply orb_true_iff in H
  | H : _ || _ = false |- _ => apply orb_false_iff in H; destruct H
  | H : negb _ = true |- _ => apply negb_true_iff in H
  | H : negb _ = false |- _ => apply negb_false_iff in H
  | H : (_ <=? _) = true |- _ => apply Z.leb_le in H
  | H : (_ <=? _) = false |- _ => apply Z.leb_gt in H
  | H : (_ <? _) = true |- _ => apply Z.ltb_lt in H
  | H : (_ <? _) = false |- _ => apply Z.ltb_ge in H
  | H : (_ =? _) = true |- _ => apply Z.eqb_eq in H
  | H : (_ =? _) = false |- _ => apply Z.eqb_neq in H
  | H : (_ <=? _)%nat = true |- _ => apply Nat.leb_le in H
  | H : (_ <=? _)%nat = false |- _ => apply Nat.leb_gt in H
  | H : (_ <? _)%nat = true |- _ => apply Nat.ltb_lt in H
  | H : (_ <? _)%nat = false |- _ => apply Nat.ltb_ge in H
  | H : (_ =? _)%nat = true |- _ => apply Nat.eqb_eq in H
  | H : (_ =? _)%nat = false |- _ => apply Nat.eqb_neq in H
  end.

Ltac divmod_lia := Z.div_mod_to_equations; lia.

Lemma land15 c : Z.land c 15 = c mod 16.
Proof. change 15 with (Z.ones 4). rewrite Z.land_ones by lia. reflexivity. Qed.

Lemma hextoint_range c : 0 ≤ hextoint c ≤ 15.
Proof.
  unfold hextoint. rewrite land15.
  repeat match goal with |- context [if ?b then _ else _] => destruct b eqn:? end;
    bool_arith; divmod_lia.
Qed.

Lemma hextoint_inttohex k :
  0 ≤ k ≤ 15 → hextoint (char_code (char_of_code (inttohex k))) = k.
Proof.
  intros H.
  assert (Hk : k = 0 ∨ k = 1 ∨ k = 2 ∨ k = 3 ∨ k = 4 ∨ k = 5 ∨ k = 6 ∨ k = 7 ∨ k = 8
               ∨ k = 9 ∨ k = 10 ∨ k = 11 ∨ k = 12 ∨ k = 13 ∨ k = 14 ∨ k = 15) by lia.
  repeat (destruct Hk as [-> | Hk]; [reflexivity|]). subst k. reflexivity.
Qed.

Lemma inttohex_hexchar k : 0 ≤ k ≤ 15 → hexchar (char_of_code (inttohex k)).
Proof.
  intros H.
  assert (Hk : k = 0 ∨ k = 1 ∨ k = 2 ∨ k = 3 ∨ k = 4 ∨ k = 5 ∨ k = 6 ∨ k = 7 ∨ k = 8
               ∨ k = 9 ∨ k = 10 ∨ k = 11 ∨ k = 12 ∨ k = 13 ∨ k = 14 ∨ k = 15) by lia.
  repeat (destruct Hk as [-> | Hk]; [reflexivity|]). subst k. reflexivity.
Qed.

Lemma hexchar_not_NUL c : hexchar c → c ≠ NUL.
Proof. intros H ->. discriminate H. Qed.

(** ** Octets and bits of a block *)

Lemma lor_shiftl4 a b : 0 ≤ b ≤ 15 → Z.lor (Z.shiftl a 4) b = 16 * a + b.
Proof.
  intros Hb. rewrite Z.shiftl_mul_pow2 by lia. change (2 ^ 4) with 16.
  rewrite <- Z.add_nocarry_lor; [lia|].
  apply Z.bits_inj'. intros n Hn. rewrite Z.land_spec, Z.bits_0.
  destruct (Z.lt_ge_cases n 4) as [Hlt|Hge].
  - change 16 with (2 ^ 4). rewrite Z.mul_pow2_bits_low by lia. reflexivity.
  - assert (Z.testbit b n = false) as ->; [|apply andb_false_r].
    apply (proj1 (Z.bounded_iff_bits_nonneg 4 b ltac:(lia) ltac:(lia))); [|lia].
    change (2 ^ 4) with 16. lia.
Qed.

Lemma octet_at_range str k : 0 ≤ octet_at str k < 256.
Proof.
  unfold octet_at.
  pose proof (hextoint_range (char_code (nth (k * 2) str NUL))).
  pose proof (hextoint_range (char_code (nth (k * 2 + 1) str NUL))).
  rewrite lor_shiftl4 by lia. lia.
Qed.

Lemma load_Ok str i c : str !! i = Some c → load str i = Ok c.
Proof. unfold load. now intros ->. Qed.

Lemma load_nth str i : (i < length str)%nat → load str i = Ok (nth i str NUL).
Proof.
  intros H. apply load_Ok. destruct (lookup_lt_is_Some_2 str i H) as [c Hc].
  now rewrite (nth_lookup_Some _ _ NUL _ Hc).
Qed.

Lemma getoctet_Ok str k :
  (k * 2 + 1 < length str)%nat → getoctet str k = Ok (octet_at str k).
Proof.
  intros H. unfold getoctet, octet_at.
  rewrite !load_nth by lia. reflexivity.
Qed.

Lemma getoctet_range str k v : getoctet str k = Ok v → 0 ≤ v < 256.
Proof.
  unfold getoctet, load.
  destruct (str !! (k * 2)%nat) as [c1|] eqn:H1; [|discriminate].
  destruct (str !! (k * 2 + 1)%nat) as [c2|] eqn:H2; [|discriminate].
  cbn. intros [= <-].
  pose proof (hextoint_range (char_code c1)). pose proof (hextoint_range (char_code c2)).
  rewrite lor_shiftl4 by lia. lia.
Qed.

Lemma getoctet_inv str k v :
  getoctet str k = Ok v → (k * 2 + 1 < length str)%nat ∧ v = octet_at str k.
Proof.
  intros H. assert (Hlen : (k * 2 + 1 < length str)%nat).
  { unfold getoctet, load in H.
    destruct (str !! (k * 2)%nat); [|discriminate]. cbn in H.
    destruct (str !! (k * 2 + 1)%nat) eqn:E; [|discriminate].
    now apply lookup_lt_Some in E. }
  split; [exact Hlen|]. rewrite getoctet_Ok in H by exact Hlen. now injection H.
Qed.

Lemma putoctet_Ok str k oct :
  (k * 2 + 1 < length str)%nat → putoctet str k oct = Ok (wr_octet str k oct).
Proof.
  intros H. unfold putoctet, store, wr_octet.
  destruct (decide (k * 2 < length str)%nat); [|lia]. cbn.
  rewrite length_insert. destruct (decide (k * 2 + 1 < length str)%nat); [|lia].
  reflexivity.
Qed.

Lemma putoctet_inv str k oct str' :
  putoctet str k oct = Ok str' → (k * 2 + 1 < length str)%nat ∧ str' = wr_octet str k oct.
Proof.
  unfold putoctet, store.
  destruct (decide (k * 2 < length str)%nat); [|discriminate]. cbn.
  rewrite length_insert. destruct (decide (k * 2 + 1 < length str)%nat); [|discriminate].
  intros [= <-]. split; [lia|reflexivity].
Qed.

Lemma length_wr_octet str k oct : length (wr_octet str k oct) = length str.
Proof. unfold wr_octet. now rewrite !length_insert. Qed.

Lemma nth_insert (l : list ascii) i j x :
  nth j (<[i:=x]> l) NUL = if decide (i = j ∧ (i < length l)%nat) then x else nth j l NUL.
Proof.
  rewrite !nth_lookup, list_lookup_insert. now destruct (decide _).
Qed.

Lemma nth_wr_octet_other str k oct p :
  (p / 2 ≠ k)%nat → nth p (wr_octet str k oct) NUL = nth p str NUL.
Proof.
  intros H. unfold wr_octet. rewrite !nth_insert.
  repeat destruct (decide _); try reflexivity; exfalso; apply H;
    destruct_and!; subst p.
  - replace (k * 2 + 1)%nat with (1 + k * 2)%nat by lia. rewrite Nat.div_add by lia. reflexivity.
  - now rewrite Nat.div_mul by lia.
Qed.

Lemma octet_at_wr_octet_same str k oct :
  (k * 2 + 1 < length str)%nat → 0 ≤ oct < 256 → octet_at (wr_octet str k oct) k = oct.
Proof.
  intros Hlen Hoct. unfold octet_at, wr_octet. rewrite !nth_insert, !length_insert.
  destruct (decide (_ ∧ _)) as [[? ?]|?]; [lia|].
  destruct (decide (_ ∧ _)) as [?|?]; [|lia].
  destruct (decide (_ ∧ _)) as [?|?]; [|lia].
  rewrite Z.shiftr_div_pow2, land15 by lia. change (2 ^ 4) with 16.
  rewrite !hextoint_inttohex by divmod_lia.
  rewrite lor_shiftl4 by divmod_lia. divmod_lia.
Qed.

Lemma octet_at_wr_octet_other str k oct j :
  j ≠ k → octet_at (wr_octet str k oct) j = octet_at str j.
Proof.
  intros H. unfold octet_at. rewrite !nth_wr_octet_other; [reflexivity| |].
  - replace (j * 2 + 1)%nat with (1 + j * 2)%nat by lia. now rewrite Nat.div_add by lia.
  - now rewrite Nat.div_mul by lia.
Qed.

Lemma land_pow2_eqb a n : 0 ≤ n → (Z.land a (Z.shiftl 1 n) =? 0) = negb (Z.testbit a n).
Proof.
  intros Hn. rewrite Z.shiftl_1_l.
  destruct (Z.testbit a n) eqn:E; cbn.
  - apply Z.eqb_neq. intros H.
    assert (Hb : Z.testbit (Z.land a (2 ^ n)) n = true).
    { rewrite Z.land_spec, E, Z.pow2_bits_true by lia. reflexivity. }
    rewrite H, Z.bits_0 in Hb. discriminate.
  - apply Z.eqb_eq. apply Z.bits_inj'. intros m Hm.
    rewrite Z.land_spec, Z.bits_0, Z.pow2_bits_eqb by lia.
    destruct (Z.eqb_spec n m) as [->|]; [now rewrite E|apply andb_false_r].
Qed.

Lemma sub_div8 (i : nat) : (i - i / 8 * 8 = i mod 8)%nat.
Proof. pose proof (Nat.div_mod_eq i 8). lia. Qed.

Lemma getbit_Ok str i :
  (i / 8 * 2 + 1 < length str)%nat → getbit str i = Ok (bit_at str i).
Proof.
  intros H. unfold getbit, bit_at. rewrite getoctet_Ok by exact H. cbn.
  rewrite sub_div8, land_pow2_eqb by lia. now rewrite negb_involutive.
Qed.

Lemma testbit_upd_bit oct lft bit t :
  0 ≤ lft → 0 ≤ t →
  Z.testbit (upd_bit oct lft bit) t = if t =? lft then bit else Z.testbit oct t.
Proof.
  intros Hl Ht. unfold upd_bit. rewrite Z.shiftl_1_l.
  destruct bit.
  - rewrite Z.lor_spec, Z.pow2_bits_eqb by lia. rewrite (Z.eqb_sym lft t).
    destruct (t =? lft); [apply orb_true_r|apply orb_false_r].
  - rewrite Z.land_spec, Z.lnot_spec, Z.pow2_bits_eqb by lia. rewrite (Z.eqb_sym lft t).
    destruct (t =? lft); [apply andb_false_r|apply andb_true_r].
Qed.

Lemma upd_bit_range oct lft bit :
  0 ≤ oct < 256 → 0 ≤ lft < 8 → 0 ≤ upd_bit oct lft bit < 256.
Proof.
  intros Ho Hl.
  assert (Hnn : 0 ≤ upd_bit oct lft bit).
  { unfold upd_bit. destruct bit.
    - apply Z.lor_nonneg. split; [lia|]. apply Z.shiftl_nonneg. lia.
    - apply Z.land_nonneg. left. lia. }
  split; [exact Hnn|]. change 256 with (2 ^ 8).
  apply (Z.bounded_iff_bits_nonneg 8); [lia|exact Hnn|].
  intros l Hl8. rewrite testbit_upd_bit by lia.
  destruct (Z.eqb_spec l lft); [lia|].
  apply (proj1 (Z.bounded_iff_bits_nonneg 8 oct ltac:(lia) ltac:(lia))); [|lia].
  change (2 ^ 8) with 256. lia.
Qed.

Arguments wr_octet : simpl never.

Arguments wr_bit : simpl never.

Arguments upd_bit : simpl never.

Lemma putbit_Ok str i bit :
  (i / 8 * 2 + 1 < length str)%nat → putbit str i bit = Ok (wr_bit str i bit).
Proof.
  intros H. unfold putbit, wr_bit. rewrite getoctet_Ok by exact H. cbn.
  rewrite sub_div8. rewrite putoctet_Ok by exact H. reflexivity.
Qed.

Lemma length_wr_bit str i bit : length (wr_bit str i bit) = length str.
Proof. apply length_wr_octet. Qed.

Lemma mod8_bound (i : nat) : 0 ≤ Z.of_nat (i mod 8) < 8.
Proof. pose proof (Nat.mod_upper_bound i 8). lia. Qed.

Lemma bit_at_wr_bit str i bit j :
  (i / 8 * 2 + 1 < length str)%nat →
  bit_at (wr_bit str i bit) j = if decide (j = i) then bit else bit_at str j.
Proof.
  intros H. unfold bit_at, wr_bit.
  destruct (decide (j / 8 = i / 8)%nat) as [E|E].
  - rewrite E, octet_at_wr_octet_same; [|exact H|].
    + rewrite testbit_upd_bit by (pose proof (mod8_bound i); pose proof (mod8_bound j); lia).
      destruct (Z.eqb_spec (Z.of_nat (j mod 8)) (Z.of_nat (i mod 8))) as [E'|E'];
        destruct (decide (j = i)) as [->|N]; try reflexivity.
      * exfalso. apply N. pose proof (Nat.div_mod_eq i 8). pose proof (Nat.div_mod_eq j 8). lia.
      * lia.
    + apply upd_bit_range; [apply octet_at_range|apply mod8_bound].
  - rewrite octet_at_wr_octet_other by exact E.
    destruct (decide (j = i)) as [->|]; [congruence|reflexivity].
Qed.

Lemma nth_wr_bit_other str i bit p :
  (p / 2 ≠ i / 8)%nat → nth p (wr_bit str i bit) NUL = nth p str NUL.
Proof. apply nth_wr_octet_other. Qed.

Lemma nth_wr_octet_hexchar str k oct p :
  (k * 2 + 1 < length str)%nat → 0 ≤ oct < 256 → (p / 2 = k)%nat →
  hexchar (nth p (wr_octet str k oct) NUL).
Proof.
  intros Hlen Ho Hp. unfold wr_octet. rewrite !nth_insert, !length_insert.
  assert (p = k * 2 ∨ p = k * 2 + 1)%nat as [->| ->].
  { pose proof (Nat.div_mod_eq p 2). pose proof (Nat.mod_upper_bound p 2). lia. }
  - destruct (decide (_ ∧ _)) as [[? ?]|?]; [lia|].
    destruct (decide (_ ∧ _)) as [?|?]; [|lia].
    apply inttohex_hexchar. rewrite Z.shiftr_div_pow2 by lia. change (2 ^ 4) with 16.
    divmod_lia.
  - destruct (decide (_ ∧ _)) as [?|?]; [|lia].
    apply inttohex_hexchar. rewrite land15. divmod_lia.
Qed.

Lemma nth_wr_bit_hexchar str i bit p :
  (i / 8 * 2 + 1 < length str)%nat → (p / 2 = i / 8)%nat →
  hexchar (nth p (wr_bit str i bit) NUL).
Proof.
  intros H Hp. apply nth_wr_octet_hexchar; [exact H| |exact Hp].
  apply upd_bit_range; [apply octet_at_range|apply mod8_bound].
Qed.

Lemma length_wr_bits str k n j val : length (wr_bits str k n j val) = length str.
Proof.
  revert str k j. induction n as [|n IH]; intros; cbn; [reflexivity|].
  now rewrite IH, length_wr_bit.
Qed.

Lemma putbits_loop_Ok str k n j val :
  0 ≤ j →
  (n = 0 ∨ (k + n - 1) / 8 * 2 + 1 < length str)%nat →
  putbits_loop str k n (Z.shiftl 1 j) val = Ok (wr_bits str k n j val).
Proof.
  revert str k j. induction n as [|n IH]; intros str k j Hj Hlen; cbn; [reflexivity|].
  assert (Hk : (k / 8 * 2 + 1 < length str)%nat).
  { destruct Hlen as [|Hlen]; [lia|].
    assert (k / 8 ≤ (k + S n - 1) / 8)%nat by (apply Nat.Div0.div_le_mono; lia). lia. }
  rewrite land_pow2_eqb, negb_involutive by lia.
  rewrite putbit_Ok by exact Hk. cbn [bind].
  replace (Z.shiftl (Z.shiftl 1 j) 1) with (Z.shiftl 1 (j + 1))
    by (rewrite Z.shiftl_shiftl by lia; reflexivity).
  apply IH; [lia|]. rewrite length_wr_bit.
  destruct n; [left; reflexivity|right].
  destruct Hlen as [|Hlen]; [lia|]. replace (S k + S n - 1)%nat with (k + S (S n) - 1)%nat by lia.
  exact Hlen.
Qed.

Lemma bit_at_wr_bits str k n j val i :
  (n = 0 ∨ (k + n - 1) / 8 * 2 + 1 < length str)%nat →
  bit_at (wr_bits str k n j val) i =
    if decide (k ≤ i < k + n)%nat then Z.testbit val (j + Z.of_nat (i - k)) else bit_at str i.
Proof.
  revert str k j. induction n as [|n IH]; intros str k j Hlen; cbn.
  - destruct (decide _); [lia|reflexivity].
  - assert (Hk : (k / 8 * 2 + 1 < length str)%nat).
    { destruct Hlen as [|Hlen]; [lia|].
      assert (k / 8 ≤ (k + S n - 1) / 8)%nat by (apply Nat.Div0.div_le_mono; lia). lia. }
    rewrite IH.
    + rewrite bit_at_wr_bit by exact Hk.
      destruct (decide (S k ≤ i < S k + n)%nat), (decide (k ≤ i < k + S n)%nat),
        (decide (i = k)); try lia; try reflexivity.
      * f_equal. lia.
      * subst i. f_equal. lia.
    + rewrite length_wr_bit. destruct n; [left; reflexivity|right].
      destruct Hlen as [|Hlen]; [lia|].
      replace (S k + S n - 1)%nat with (k + S (S n) - 1)%nat by lia. exact Hlen.
Qed.

Lemma nth_wr_bits_other str k n j val p :
  (p / 2 < k / 8 ∨ (k + n - 1) / 8 < p / 2)%nat →
  nth p (wr_bits str k n j val) NUL = nth p str NUL.
Proof.
  revert str k j. induction n as [|n IH]; intros str k j Hp; cbn; [reflexivity|].
  rewrite IH.
  - apply nth_wr_bit_other.
    assert (k / 8 ≤ (k + S n - 1) / 8)%nat by (apply Nat.Div0.div_le_mono; lia). lia.
  - assert (k / 8 ≤ S k / 8)%nat by (apply Nat.Div0.div_le_mono; lia).
    replace (S k + n - 1)%nat with (k + S n - 1)%nat by lia.
    destruct n; [|lia].
    (* n = 0: the range of the remaining loop is empty *)
    destruct Hp as [Hp|Hp]; [left; lia|]. right. replace (k + 1 - 1)%nat with k in Hp by lia.
    replace (k + 1 - 1)%nat with k by lia. lia.
Qed.

Lemma nth_wr_bits_hexchar str k n j val p :
  (n = 0 ∨ (k + n - 1) / 8 * 2 + 1 < length str)%nat →
  hexchar (nth p str NUL) ∨ (0 < n ∧ k / 8 ≤ p / 2 ≤ (k + n - 1) / 8)%nat →
  hexchar (nth p (wr_bits str k n j val) NUL).
Proof.
  revert str k j. induction n as [|n IH]; intros str k j Hlen Hp; cbn [wr_bits].
  - destruct Hp as [Hp|Hp]; [exact Hp|lia].
  - assert (Hk8 : (k / 8 ≤ (k + S n - 1) / 8)%nat) by (apply Nat.Div0.div_le_mono; lia).
    assert (Hk : (k / 8 * 2 + 1 < length str)%nat) by (destruct Hlen; lia).
    apply IH.
    + rewrite length_wr_bit. destruct n; [left; reflexivity|right].
      destruct Hlen as [|Hlen]; [lia|].
      replace (S k + S n - 1)%nat with (k + S (S n) - 1)%nat by lia. exact Hlen.
    + destruct (decide (p / 2 = k / 8)%nat) as [E|E].
      * left. now apply nth_wr_bit_hexchar.
      * destruct Hp as [Hp|Hp].
        -- left. now rewrite nth_wr_bit_other.
        -- right. replace (S k + n - 1)%nat with (k + S n - 1)%nat by lia.
           assert (S k / 8 ≤ k / 8 + 1)%nat.
           { pose proof (Nat.div_mod_eq k 8). pose proof (Nat.div_mod_eq (S k) 8).
             pose proof (Nat.mod_upper_bound k 8). pose proof (Nat.mod_upper_bound (S k) 8).
             lia. }
           destruct n; [|lia]. replace (k + 1 - 1)%nat with k in * by lia. lia.
Qed.

Lemma bits_val_range str k n : 0 ≤ bits_val str k n < 2 ^ Z.of_nat n.
Proof.
  revert k. induction n as [|n IH]; intros k; cbn [bits_val]; [cbn; lia|].
  specialize (IH (S k)). rewrite Nat2Z.inj_succ, Z.pow_succ_r by lia.
  destruct (bit_at str k); cbn; lia.
Qed.

Lemma testbit_bits_val str k n t :
  0 ≤ t →
  Z.testbit (bits_val str k n) t =
    if decide (t < Z.of_nat n) then bit_at str (k + Z.to_nat t) else false.
Proof.
  revert k t. induction n as [|n IH]; intros k t Ht; cbn [bits_val].
  - rewrite Z.bits_0. destruct (decide _); [lia|reflexivity].
  - rewrite Z.add_comm. destruct (Z.eq_dec t 0) as [->|Hne].
    + rewrite Z.testbit_0_r. destruct (decide _); [|lia].
      now replace (k + Z.to_nat 0)%nat with k by lia.
    + replace t with (Z.succ (t - 1)) at 1 by lia.
      rewrite Z.testbit_succ_r by lia. rewrite IH by lia.
      destruct (decide (t - 1 < Z.of_nat n)), (decide (t < Z.of_nat (S n)));
        try reflexivity; try lia.
      f_equal. lia.
Qed.

Lemma getbits_loop_Ok str k n j res :
  0 ≤ j → 0 ≤ res < 2 ^ j →
  (n = 0 ∨ (k + n - 1) / 8 * 2 + 1 < length str)%nat →
  getbits_loop str k n (Z.shiftl 1 j) res = Ok (res + 2 ^ j * bits_val str k n).
Proof.
  revert k j res. induction n as [|n IH]; intros k j res Hj Hres Hlen;
    cbn [getbits_loop bits_val].
  - f_equal. lia.
  - assert (Hk8 : (k / 8 ≤ (k + S n - 1) / 8)%nat) by (apply Nat.Div0.div_le_mono; lia).
    rewrite getbit_Ok by (destruct Hlen; lia). cbn [bind].
    replace (Z.shiftl (Z.shiftl 1 j) 1) with (Z.shiftl 1 (j + 1))
      by (rewrite Z.shiftl_shiftl by lia; reflexivity).
    assert (Hlor : Z.lor res (Z.shiftl 1 j) = res + 2 ^ j).
    { rewrite Z.shiftl_1_l. symmetry. apply Z.add_nocarry_lor.
      apply Z.bits_inj'. intros m Hm. rewrite Z.land_spec, Z.bits_0, Z.pow2_bits_eqb by lia.
      destruct (Z.eqb_spec j m) as [<-|]; [|apply andb_false_r].
      rewrite (proj1 (Z.bounded_iff_bits_nonneg j res Hj ltac:(lia))); [reflexivity|lia|lia]. }
    rewrite IH.
    + f_equal. rewrite Z.pow_add_r by lia. destruct (bit_at str k); cbn [Z.b2z]; [|lia].
      rewrite Hlor. lia.
    + lia.
    + rewrite Z.pow_add_r by lia. destruct (bit_at str k); [rewrite Hlor|]; lia.
    + destruct n; [left; reflexivity|right]. destruct Hlen as [|Hlen]; [lia|].
      replace (S k + S n - 1)%nat with (k + S (S n) - 1)%nat by lia. exact Hlen.
Qed.

Lemma getbits_Ok str k n :
  (n = 0 ∨ (k + n - 1) / 8 * 2 + 1 < length str)%nat →
  getbits str k n = Ok (bits_val str k n).
Proof.
  intros H. unfold getbits. change 1 with (Z.shiftl 1 0) at 1.
  rewrite getbits_loop_Ok; [|lia|cbn; lia|exact H]. f_equal.
  rewrite Z.pow_0_r. lia.
Qed.

Lemma bits_val_eq str k n val :
  (∀ t, (t < n)%nat → bit_at str (k + t) = Z.testbit val (Z.of_nat t)) →
  bits_val str k n = val mod 2 ^ Z.of_nat n.
Proof.
  intros H. apply Z.bits_inj'. intros t Ht.
  rewrite testbit_bits_val, Z.testbit_mod_pow2 by lia.
  destruct (decide _) as [Hlt|Hge].
  - rewrite H by lia. rewrite Z2Nat.id by lia.
    destruct (Z.ltb_spec t (Z.of_nat n)); [reflexivity|lia].
  - destruct (Z.ltb_spec t (Z.of_nat n)); [lia|reflexivity].
Qed.

Lemma bits_val_ext str str' k k' n :
  (∀ t, (t < n)%nat → bit_at str (k + t) = bit_at str' (k' + t)) →
  bits_val str k n = bits_val str' k' n.
Proof.
  revert k k'. induction n as [|n IH]; intros k k' H; cbn [bits_val]; [reflexivity|].
  rewrite (IH (S k) (S k')).
  - specialize (H O ltac:(lia)). rewrite !Nat.add_0_r in H. now rewrite H.
  - intros t Ht. specialize (H (S t) ltac:(lia)).
    now replace (S k + t)%nat with (k + S t)%nat by lia;
        replace (S k' + t)%nat with (k' + S t)%nat by lia.
Qed.

Lemma length_wr_fields str indx fields : length (wr_fields str indx fields) = length str.
Proof.
  revert str indx. induction fields as [|[w v] rest IH]; intros; cbn [wr_fields];
    [reflexivity|]. now rewrite IH, length_wr_bits.
Qed.

Lemma div8_mono (a b : nat) : (a ≤ b → a / 8 ≤ b / 8)%nat.
Proof. intros. apply Nat.Div0.div_le_mono. lia. Qed.

Lemma bit_at_wr_fields_before str indx fields i :
  (width fields = 0 ∨ (indx + width fields - 1) / 8 * 2 + 1 < length str)%nat →
  (i < indx)%nat → bit_at (wr_fields str indx fields) i = bit_at str i.
Proof.
  revert str indx. induction fields as [|[w v] rest IH]; intros str indx Hlen Hi;
    cbn [wr_fields]; [reflexivity|].
  cbn [width] in Hlen.
  rewrite IH.
  - rewrite bit_at_wr_bits.
    + destruct (decide _); [lia|reflexivity].
    + destruct w; [left; reflexivity|right]. destruct Hlen as [|Hlen]; [lia|].
      pose proof (div8_mono (indx + S w - 1) (indx + (S w + width rest) - 1)). lia.
  - rewrite length_wr_bits. destruct Hlen as [Hlen|Hlen]; [left; lia|].
    destruct (width rest) eqn:E; [left; reflexivity|right].
    replace (indx + w + S n - 1)%nat with (indx + (w + S n) - 1)%nat by lia. exact Hlen.
  - lia.
Qed.

Lemma bits_val_wr_fields str indx pre w v post :
  (width (pre ++ (w, v) :: post) = 0
   ∨ (indx + width (pre ++ (w, v) :: post) - 1) / 8 * 2 + 1 < length str)%nat →
  bits_val (wr_fields str indx (pre ++ (w, v) :: post)) (indx + width pre) w
  = v mod 2 ^ Z.of_nat w.
Proof.
  revert str indx. induction pre as [|[w0 v0] pre IH]; intros str indx Hlen.
  - cbn [app wr_fields width] in *.
    rewrite Nat.add_0_r. apply bits_val_eq. intros t Ht.
    rewrite bit_at_wr_fields_before.
    + rewrite bit_at_wr_bits.
      * destruct (decide _); [|lia]. f_equal. lia.
      * right. destruct Hlen as [|Hlen]; [lia|].
        pose proof (div8_mono (indx + w - 1) (indx + (w + width post) - 1)). lia.
    + rewrite length_wr_bits.
      destruct (width post) eqn:E; [left; reflexivity|right].
      destruct Hlen as [|Hlen]; [lia|].
      replace (indx + w + S n - 1)%nat with (indx + (w + S n) - 1)%nat by lia. exact Hlen.
    + lia.
  - cbn [app wr_fields width] in *.
    replace (indx + (w0 + width pre))%nat with (indx + w0 + width pre)%nat by lia.
    apply IH. rewrite length_wr_bits.
    destruct Hlen as [Hlen|Hlen]; [left; lia|].
    destruct (width (pre ++ (w, v) :: post)) eqn:E; [left; reflexivity|right].
    replace (indx + w0 + S n - 1)%nat with (indx + (w0 + S n) - 1)%nat by lia. exact Hlen.
Qed.

Lemma putbits_Ok str k n val :
  (n = 0 ∨ (k + n - 1) / 8 * 2 + 1 < length str)%nat →
  putbits str k n val = Ok (wr_bits str k n 0 val).
Proof.
  intros H. unfold putbits. change 1 with (Z.shiftl 1 0) at 1.
  now apply putbits_loop_Ok.
Qed.

Lemma nth_wr_fields_other str indx fields p :
  (width fields = 0 ∨ p / 2 < indx / 8 ∨ (indx + width fields - 1) / 8 < p / 2)%nat →
  nth p (wr_fields str indx fields) NUL = nth p str NUL.
Proof.
  revert str indx. induction fields as [|[w v] rest IH]; intros str indx Hp;
    cbn [wr_fields width] in *; [reflexivity|].
  rewrite IH.
  - destruct w; [reflexivity|]. apply nth_wr_bits_other.
    pose proof (div8_mono (indx + S w - 1) (indx + (S w + width rest) - 1)). lia.
  - pose proof (div8_mono indx (indx + w)).
    replace (indx + w + width rest)%nat with (indx + (w + width rest))%nat by lia.
    destruct (width rest); [left; reflexivity|right]. lia.
Qed.

Lemma nth_wr_fields_hexchar str indx fields p :
  (width fields = 0 ∨ (indx + width fields - 1) / 8 * 2 + 1 < length str)%nat →
  hexchar (nth p str NUL)
  ∨ (0 < width fields ∧ indx / 8 ≤ p / 2 ≤ (indx + width fields - 1) / 8)%nat →
  hexchar (nth p (wr_fields str indx fields) NUL).
Proof.
  revert str indx. induction fields as [|[w v] rest IH]; intros str indx Hlen Hp;
    cbn [wr_fields width] in *.
  - destruct Hp as [Hp|Hp]; [exact Hp|lia].
  - assert (Hlen1 : (w = 0 ∨ (indx + w - 1) / 8 * 2 + 1 < length str)%nat).
    { destruct w; [left; reflexivity|right]. destruct Hlen as [|Hlen]; [lia|].
      pose proof (div8_mono (indx + S w - 1) (indx + (S w + width rest) - 1)). lia. }
    apply IH.
    + rewrite length_wr_bits. destruct (width rest) eqn:E; [left; reflexivity|right].
      destruct Hlen as [|Hlen]; [lia|].
      replace (indx + w + S n - 1)%nat with (indx + (w + S n) - 1)%nat by lia. exact Hlen.
    + destruct Hp as [Hp|Hp].
      * left. apply nth_wr_bits_hexchar; [exact Hlen1|now left].
      * destruct (decide (0 < w ∧ p / 2 ≤ (indx + w - 1) / 8)%nat) as [Hin|Hout].
        -- left. apply nth_wr_bits_hexchar; [exact Hlen1|right; lia].
        -- right.
           replace (indx + w + width rest)%nat with (indx + (w + width rest))%nat by lia.
           destruct w.
           ++ cbn [Nat.add] in *. rewrite ?Nat.add_0_r in *. lia.
           ++ assert ((indx + S w) / 8 ≤ (indx + S w - 1) / 8 + 1)%nat.
              { pose proof (Nat.div_mod_eq (indx + S w - 1) 8).
                pose proof (Nat.div_mod_eq (indx + S w) 8).
                pose proof (Nat.mod_upper_bound (indx + S w - 1) 8).
                pose proof (Nat.mod_upper_bound (indx + S w) 8). lia. }
              destruct (width rest).
              ** rewrite Nat.add_0_r in Hp. lia.
              ** lia.
Qed.

Lemma hexpair_length v : length (hexpair v) = 2%nat.
Proof. reflexivity. Qed.

Lemma hexstr_length l : length (hexstr l) = (2 * length l)%nat.
Proof.
  unfold hexstr. induction l as [|v l IH]; [reflexivity|].
  cbn [map concat]. rewrite length_app, IH. cbn [length hexpair]. lia.
Qed.

Lemma hexstr_cons v l : hexstr (v :: l) = hexpair v ++ hexstr l.
Proof. reflexivity. Qed.

Lemma hexstr_app l1 l2 : hexstr (l1 ++ l2) = hexstr l1 ++ hexstr l2.
Proof. unfold hexstr. now rewrite map_app, concat_app. Qed.

Lemma wr_octet_app pre rest m v :
  length pre = (m * 2)%nat → (2 ≤ length rest)%nat →
  wr_octet (pre ++ rest) m v = (pre ++ hexpair v) ++ drop 2 rest.
Proof.
  intros Hpre Hrest. unfold wr_octet.
  destruct rest as [|c1 [|c2 rest]]; cbn [length] in Hrest; try lia.
  rewrite (insert_app_r_alt pre _ (m * 2)) by lia.
  replace (m * 2 - length pre)%nat with 0%nat by lia. cbn [list_insert insert].
  rewrite (insert_app_r_alt pre _ (m * 2 + 1)) by lia.
  replace (m * 2 + 1 - length pre)%nat with 1%nat by lia.
  cbn. now rewrite <- app_assoc.
Qed.

Lemma putoctet_app pre rest m v :
  length pre = (m * 2)%nat → (2 ≤ length rest)%nat →
  putoctet (pre ++ rest) m v = Ok ((pre ++ hexpair v) ++ drop 2 rest).
Proof.
  intros Hpre Hrest. rewrite putoctet_Ok by (rewrite length_app; lia).
  now rewrite wr_octet_app.
Qed.

Lemma store_app pre rest i c :
  length pre = i → (1 ≤ length rest)%nat →
  store (pre ++ rest) i c = Ok (pre ++ c :: drop 1 rest).
Proof.
  intros Hpre Hrest. unfold store. rewrite length_app.
  destruct (decide _); [|lia]. f_equal.
  rewrite insert_app_r_alt by lia. replace (i - length pre)%nat with 0%nat by lia.
  destruct rest; [cbn in Hrest; lia|reflexivity].
Qed.

Lemma octet_at_app pre rest m k :
  length pre = (m * 2)%nat → octet_at (pre ++ rest) (m + k) = octet_at rest k.
Proof.
  intros Hpre. unfold octet_at.
  rewrite !(app_nth2 pre) by lia. do 2 f_equal; do 3 f_equal; lia.
Qed.

Lemma octet_at_app_l pre rest k :
  (k * 2 + 1 < length pre)%nat → octet_at (pre ++ rest) k = octet_at pre k.
Proof.
  intros H. unfold octet_at. now rewrite !(app_nth1 pre) by lia.
Qed.

Lemma octet_at_hexpair v rest : 0 ≤ v < 256 → octet_at (hexpair v ++ rest) 0 = v.
Proof.
  intros Hv. unfold octet_at, hexpair. cbn [app nth Nat.mul Nat.add].
  rewrite Z.shiftr_div_pow2, land15 by lia. change (2 ^ 4) with 16.
  rewrite !hextoint_inttohex by divmod_lia.
  rewrite lor_shiftl4 by divmod_lia. divmod_lia.
Qed.

Lemma wr_bit_app pre rest m i b :
  length pre = (m * 2)%nat → (i / 8 * 2 + 1 < length rest)%nat →
  wr_bit (pre ++ rest) (m * 8 + i) b = pre ++ wr_bit rest i b.
Proof.
  intros Hpre Hrest. unfold wr_bit.
  replace ((m * 8 + i) / 8)%nat with (m + i / 8)%nat
    by (rewrite (Nat.add_comm (m * 8) i), Nat.div_add by lia; lia).
  replace ((m * 8 + i) mod 8)%nat with (i mod 8)%nat
    by (rewrite (Nat.add_comm (m * 8) i), Nat.Div0.mod_add; reflexivity).
  rewrite octet_at_app by exact Hpre.
  unfold wr_octet.
  rewrite (insert_app_r_alt pre) by lia. rewrite (insert_app_r_alt pre) by lia.
  do 2 f_equal; [lia|]. f_equal. lia.
Qed.

Lemma wr_bits_app pre rest m k n j val :
  length pre = (m * 2)%nat → (n = 0 ∨ (k + n - 1) / 8 * 2 + 1 < length rest)%nat →
  wr_bits (pre ++ rest) (m * 8 + k) n j val = pre ++ wr_bits rest k n j val.
Proof.
  intros Hpre. revert rest k j. induction n as [|n IH]; intros rest k j Hlen;
    cbn [wr_bits]; [reflexivity|].
  pose proof (div8_mono k (k + S n - 1)).
  rewrite wr_bit_app by (try exact Hpre; destruct Hlen; lia).
  replace (S (m * 8 + k)) with (m * 8 + S k)%nat by lia.
  apply IH. rewrite length_wr_bit. destruct n; [left; reflexivity|right].
  destruct Hlen as [|Hlen]; [lia|].
  replace (S k + S n - 1)%nat with (k + S (S n) - 1)%nat by lia. exact Hlen.
Qed.

Lemma wr_fields_app pre rest m k fields :
  length pre = (m * 2)%nat →
  (width fields = 0 ∨ (k + width fields - 1) / 8 * 2 + 1 < length rest)%nat →
  wr_fields (pre ++ rest) (m * 8 + k) fields = pre ++ wr_fields rest k fields.
Proof.
  intros Hpre. revert rest k. induction fields as [|[w v] fields IH]; intros rest k Hlen;
    cbn [wr_fields width] in *; [reflexivity|].
  rewrite wr_bits_app; [|exact Hpre|].
  - replace (m * 8 + k + w)%nat with (m * 8 + (k + w))%nat by lia.
    apply IH. rewrite length_wr_bits.
    destruct (width fields) eqn:E; [left; reflexivity|right].
    destruct Hlen as [|Hlen]; [lia|].
    replace (k + w + S n - 1)%nat with (k + (w + S n) - 1)%nat by lia. exact Hlen.
  - destruct w; [left; reflexivity|right]. destruct Hlen as [|Hlen]; [lia|].
    pose proof (div8_mono (k + S w - 1) (k + (S w + width fields) - 1)). lia.
Qed.

Lemma wr_bit_app_l str rest i b :
  (i / 8 * 2 + 1 < length str)%nat →
  wr_bit (str ++ rest) i b = wr_bit str i b ++ rest.
Proof.
  intros H. unfold wr_bit. rewrite octet_at_app_l by exact H. unfold wr_octet.
  rewrite insert_app_l by lia. rewrite insert_app_l by (rewrite length_insert; lia).
  reflexivity.
Qed.

Lemma wr_bits_app_l str rest k n j val :
  (n = 0 ∨ (k + n - 1) / 8 * 2 + 1 < length str)%nat →
  wr_bits (str ++ rest) k n j val = wr_bits str k n j val ++ rest.
Proof.
  revert str k j. induction n as [|n IH]; intros str k j Hlen; cbn [wr_bits];
    [reflexivity|].
  pose proof (div8_mono k (k + S n - 1)).
  rewrite wr_bit_app_l by (destruct Hlen; lia).
  apply IH. rewrite length_wr_bit. destruct n; [left; reflexivity|right].
  destruct Hlen as [|Hlen]; [lia|].
  replace (S k + S n - 1)%nat with (k + S (S n) - 1)%nat by lia. exact Hlen.
Qed.

Lemma wr_fields_app_l str rest k fields :
  (width fields = 0 ∨ (k + width fields - 1) / 8 * 2 + 1 < length str)%nat →
  wr_fields (str ++ rest) k fields = wr_fields str k fields ++ rest.
Proof.
  revert str k. induction fields as [|[w v] fields IH]; intros str k Hlen;
    cbn [wr_fields width] in *; [reflexivity|].
  rewrite wr_bits_app_l.
  - apply IH. rewrite length_wr_bits.
    destruct (width fields) eqn:E; [left; reflexivity|right].
    destruct Hlen as [|Hlen]; [lia|].
    replace (k + w + S n - 1)%nat with (k + (w + S n) - 1)%nat by lia. exact Hlen.
  - destruct w; [left; reflexivity|right]. destruct Hlen as [|Hlen]; [lia|].
    pose proof (div8_mono (k + S w - 1) (k + (S w + width fields) - 1)). lia.
Qed.

Lemma be_octets_length ndig num : length (be_octets ndig num) = ndig.
Proof. induction ndig; cbn; [reflexivity|now f_equal]. Qed.

Lemma putnumber_app pre rest m ndig num :
  length pre = (m * 2)%nat → (2 * ndig ≤ length rest)%nat →
  putnumber (pre ++ rest) m ndig num
  = Ok ((pre ++ hexstr (be_octets ndig num)) ++ drop (2 * ndig) rest).
Proof.
  unfold putnumber. revert pre rest m.
  induction ndig as [|n IH]; intros pre rest m Hpre Hrest;
    cbn [putnumber_loop be_octets].
  - cbn. now rewrite app_nil_r.
  - rewrite putoctet_app by (try exact Hpre; lia). cbn [bind].
    rewrite IH.
    + f_equal. rewrite hexstr_cons, drop_drop, <- !app_assoc.
      now replace (2 + 2 * n)%nat with (2 * S n)%nat by lia.
    + rewrite length_app, hexpair_length. lia.
    + rewrite length_drop. lia.
Qed.

(** ** The encoders extend a block *)

Ltac len_simpl :=
  repeat first
    [ rewrite length_app | rewrite length_drop | rewrite hexpair_length
    | rewrite hexstr_length | rewrite be_octets_length | rewrite length_cons
    | rewrite length_replicate | rewrite length_take | rewrite length_wr_bits
    | rewrite length_wr_fields ];
  cbn [length].

Ltac len := len_simpl; try lia.

Ltac ok_eq := apply (f_equal Ok); repeat (apply pair_equal_spec; split).

Lemma encodeUsageField_app pre rest m g :
  length pre = (m * 2)%nat →
  (2 * length (Usage_octets (usage g)) + 1 ≤ length rest)%nat →
  encodeUsageField (pre ++ rest) m g
  = Ok ((pre ++ hexstr (Usage_octets (usage g)))
          ++ NUL :: drop (2 * length (Usage_octets (usage g)) + 1) rest,
        (m + length (Usage_octets (usage g)))%nat,
        set_usage g (usage_reconciled (usage g)),
        usage_diags (usage g)).
Proof.
  intros Hpre Hrest. unfold encodeUsageField, Usage_octets, usage_reconciled, usage_diags in *.
  destruct (truthy (retention_expires_present (usage g))) eqn:Et;
    destruct (expiration (usage g) =? 0) eqn:Ee; cbn [negb] in *;
    cbn [retention_expires_present set_retention_expires_present truthy negb
         Z.eqb retransmission_allowed STA_location_policy expiration] in *;
    rewrite ?Et, ?Ee in *; cbn [app length be_octets] in *.
  all: rewrite putoctet_app by len; cbn [bind].
  all: rewrite putoctet_app by len; cbn [bind].
  all: rewrite putoctet_app by len; cbn [bind].
  all: try (rewrite putnumber_app by len; cbn [bind]).
  all: rewrite store_app by len; cbn [bind].
  all: apply (f_equal Ok); repeat (apply pair_equal_spec; split);
    try reflexivity; try lia.
  all: rewrite ?drop_drop, <- ?app_assoc; cbn [hexstr map concat be_octets app];
    rewrite <- ?app_assoc, ?app_nil_r; reflexivity.
Qed.

Lemma div8_lt (a q : nat) : (a < q * 8 → a / 8 < q)%nat.
Proof. intros H. apply Nat.Div0.div_lt_upper_bound. lia. Qed.

Lemma putbits_Ok' str k n val q :
  (k + n ≤ q * 8)%nat → (q * 2 ≤ length str)%nat →
  putbits str k n val = Ok (wr_bits str k n 0 val).
Proof.
  intros Hq Hlen. apply putbits_Ok. destruct n; [left; reflexivity|right].
  pose proof (div8_lt (k + S n - 1) q). lia.
Qed.

Lemma wr_fields_one str indx w v : wr_fields str indx [(w, v)] = wr_bits str indx w 0 v.
Proof. reflexivity. Qed.

Lemma wr_fields_cons str indx w v rest :
  wr_fields str indx ((w, v) :: rest) = wr_fields (wr_bits str indx w 0 v) (indx + w) rest.
Proof. reflexivity. Qed.

Lemma fields_bound k w q len :
  (k + w ≤ q * 8 → q * 2 ≤ len → w = 0 ∨ (k + w - 1) / 8 * 2 + 1 < len)%nat.
Proof.
  intros Hq Hlen. destruct w; [left; reflexivity|right].
  pose proof (div8_lt (k + S w - 1) q). lia.
Qed.

Lemma wr_fields_app' q pre rest m k fields :
  length pre = (m * 2)%nat → (k + width fields ≤ q * 8)%nat → (q * 2 ≤ length rest)%nat →
  wr_fields (pre ++ rest) (m * 8 + k) fields = pre ++ wr_fields rest k fields.
Proof. intros. apply wr_fields_app; [assumption|]. now apply (fields_bound _ _ q). Qed.

Lemma wr_fields_app_l' q str rest k fields :
  (k + width fields ≤ q * 8)%nat → (q * 2 ≤ length str)%nat →
  wr_fields (str ++ rest) k fields = wr_fields str k fields ++ rest.
Proof. intros. apply wr_fields_app_l. now apply (fields_bound _ _ q). Qed.

Section Wire.

Variable log2 : Q → Q.

Lemma encodeLCIfield_app pre mid rest m g :
  length pre = (m * 2)%nat → length mid = 36%nat → (1 ≤ length rest)%nat →
  encodeLCIfield log2 (pre ++ mid ++ rest) m g
  = Ok ((pre ++ hexstr [LCI_CODE; 16] ++ wr_fields (drop 4 mid) 0 (LCI_fields log2 g))
          ++ NUL :: drop 1 rest,
        (m + 18)%nat, LCI_diags log2 g).
Proof.
  intros Hpre Hmid Hrest. unfold encodeLCIfield, LCI_diags, LCI_fields.
  rewrite putoctet_app by len; cbn [bind].
  rewrite putoctet_app by len; cbn [bind].
  destruct (uncertainty_code log2 _ (latitude_uncertainty _) _ _) as [c1 d1] eqn:E1.
  destruct (uncertainty_code log2 _ (longitude_uncertainty _) _ _) as [c2 d2] eqn:E2.
  destruct (uncertainty_code log2 _ (altitude_uncertainty _) _ _) as [c3 d3] eqn:E3.
  cbn [snd].
  repeat (rewrite (putbits_Ok' _ _ _ _ (m + 18))
            by len; cbn [bind]).
  cbn [fst].
  replace (((m + 2) * 8 + 6 + 34 + 6 + 34 + 4 + 6 + 30 + 3 + 1 + 1 + 1 + 2) / 8)%nat
    with (m + 18)%nat
    by (replace ((m + 2) * 8 + 6 + 34 + 6 + 34 + 4 + 6 + 30 + 3 + 1 + 1 + 1 + 2)%nat
          with ((m + 18) * 8)%nat by lia; now rewrite Nat.div_mul by lia).
  rewrite <- wr_fields_one. rewrite <- !wr_fields_cons.
  replace (((pre ++ hexpair LCI_CODE) ++ hexpair 16) ++ drop 2 (drop 2 (mid ++ rest)))
    with ((pre ++ hexstr [LCI_CODE; 16]) ++ (drop 4 mid ++ rest))
    by (rewrite drop_drop, drop_app_le by lia; cbn [hexstr map concat];
        now rewrite app_nil_r, <- !app_assoc).
  replace ((m + 2) * 8)%nat with ((m + 2) * 8 + 0)%nat by lia.
  rewrite (wr_fields_app' 16) by (cbn [width]; len).
  rewrite (wr_fields_app_l' 16) by (cbn [width]; len).
  rewrite !app_assoc.
  rewrite store_app by len. cbn [bind].
  ok_eq; try reflexivity.
Qed.

Lemma encodeZfield_app pre rest m g :
  length pre = (m * 2)%nat → (17 ≤ length rest)%nat →
  encodeZfield log2 (pre ++ rest) m g
  = Ok ((pre ++ hexstr (Z_octets log2 g)) ++ NUL :: drop 17 rest, (m + 8)%nat, Z_diags log2 g).
Proof.
  intros Hpre Hrest. unfold encodeZfield, Z_octets, Z_diags, Z_code, Z_fields_info.
  rewrite putoctet_app by len; cbn [bind].
  rewrite putoctet_app by len; cbn [bind].
  destruct (uncertainty_code log2 _ _ _ _) as [c d] eqn:E. cbn [fst snd].
  rewrite putnumber_app by len; cbn [bind].
  rewrite putnumber_app by len; cbn [bind].
  rewrite putnumber_app by len; cbn [bind].
  rewrite store_app by len; cbn [bind].
  ok_eq; try reflexivity; try lia.
  rewrite !drop_drop, !hexstr_app, <- !app_assoc. cbn [Nat.mul Nat.add].
  reflexivity.
Qed.

End Wire.

Lemma bssid_pairs_length bssid stride k n :
  length (bssid_pairs bssid stride k n) = (2 * n)%nat.
Proof. revert k. induction n as [|n IH]; intros k; cbn; [reflexivity|]. rewrite IH. lia. Qed.

Lemma placed_length bssid : length (placed bssid) = 12%nat ∨ length (placed bssid) = 0%nat.
Proof.
  unfold placed. destruct (_ =? 17)%nat; [left; apply bssid_pairs_length|].
  destruct (_ =? 12)%nat; [left; apply bssid_pairs_length|right; reflexivity].
Qed.

Lemma store2_app pre rest m c1 c2 :
  length pre = (m * 2)%nat → (2 ≤ length rest)%nat →
  (s <- store (pre ++ rest) (m * 2) c1;; store s (m * 2 + 1) c2)
  = Ok ((pre ++ [c1; c2]) ++ drop 2 rest).
Proof.
  intros Hpre Hrest.
  destruct rest as [|a [|b rest]]; cbn [length] in Hrest; try lia.
  rewrite store_app by (cbn [length]; lia). cbn [bind drop].
  change (pre ++ c1 :: b :: rest) with (pre ++ [c1] ++ b :: rest).
  rewrite app_assoc.
  rewrite store_app by (rewrite ?length_app; cbn [length]; lia).
  cbn [drop]. now rewrite <- !app_assoc.
Qed.

Lemma placeBSSID_loop_app pre rest m bssid stride k n :
  length pre = (m * 2)%nat → (2 * n ≤ length rest)%nat →
  placeBSSID_loop (pre ++ rest) m bssid stride k n
  = Ok ((pre ++ bssid_pairs bssid stride k n) ++ drop (2 * n) rest, (m + n)%nat).
Proof.
  revert pre rest m k. induction n as [|n IH]; intros pre rest m k Hpre Hrest;
    cbn [placeBSSID_loop bssid_pairs].
  - cbn. rewrite app_nil_r. ok_eq; [reflexivity|lia].
  - pose proof (store2_app pre rest m (nth (k * stride) bssid NUL)
                  (nth (k * stride + 1) bssid NUL) Hpre ltac:(lia)) as E.
    unfold bind in E |- *.
    destruct (store (pre ++ rest) (m * 2) _) as [s| |]; try discriminate E.
    rewrite E. rewrite IH by len.
    ok_eq; [|lia]. rewrite drop_drop, <- !app_assoc. cbn [app].
    now replace (2 + 2 * n)%nat with (2 * S n)%nat by lia.
Qed.

Lemma placeBSSID_app pre rest m bssid :
  length pre = (m * 2)%nat → (12 ≤ length rest)%nat →
  placeBSSID (pre ++ rest) m bssid
  = Ok ((pre ++ placed bssid) ++ drop (length (placed bssid)) rest,
        (m + length (placed bssid) / 2)%nat, placed_diags bssid).
Proof.
  intros Hpre Hrest. unfold placeBSSID, placed, placed_diags.
  destruct (_ =? 17)%nat; [|destruct (_ =? 12)%nat].
  - rewrite placeBSSID_loop_app by lia. cbn [bind]. rewrite bssid_pairs_length. reflexivity.
  - rewrite placeBSSID_loop_app by lia. cbn [bind]. rewrite bssid_pairs_length. reflexivity.
  - cbn. rewrite app_nil_r. ok_eq; [reflexivity|lia|reflexivity].
Qed.

Lemma all_placed_length bssids : (length (all_placed bssids) ≤ 12 * length bssids)%nat.
Proof.
  unfold all_placed. induction bssids as [|b bs IH]; cbn [map concat length]; [lia|].
  rewrite length_app. destruct (placed_length b); lia.
Qed.

Lemma all_placed_even bssids : ∃ n, length (all_placed bssids) = (n * 2)%nat.
Proof.
  unfold all_placed. induction bssids as [|b bs [n IH]]; cbn [map concat length].
  - now exists 0%nat.
  - rewrite length_app, IH. destruct (placed_length b) as [-> | ->];
      [exists (6 + n)%nat|exists n]; lia.
Qed.

Lemma placeBSSIDs_app pre rest m bssids :
  length pre = (m * 2)%nat → (12 * length bssids ≤ length rest)%nat →
  placeBSSIDs (pre ++ rest) m bssids
  = Ok ((pre ++ all_placed bssids) ++ drop (length (all_placed bssids)) rest,
        (m + length (all_placed bssids) / 2)%nat, all_placed_diags bssids).
Proof.
  revert pre rest m. unfold all_placed, all_placed_diags.
  induction bssids as [|b bs IH]; intros pre rest m Hpre Hrest;
    cbn [placeBSSIDs map concat length] in *.
  - cbn. rewrite app_nil_r. ok_eq; [reflexivity|lia|reflexivity].
  - rewrite placeBSSID_app by lia. cbn [bind].
    destruct (all_placed_even bs) as [n Hn]. unfold all_placed in Hn.
    assert (Hp : length (placed b) = (length (placed b) / 2 * 2)%nat).
    { destruct (placed_length b) as [-> | ->]; reflexivity. }
    rewrite IH.
    + cbn [bind]. ok_eq; [|rewrite length_app|reflexivity].
      * rewrite length_app, drop_drop, <- !app_assoc. reflexivity.
      * rewrite Hn. destruct (placed_length b) as [-> | ->].
        -- replace (12 + n * 2)%nat with ((6 + n) * 2)%nat by lia.
           rewrite !Nat.div_mul by lia. change (12 / 2)%nat with 6%nat. lia.
        -- cbn [Nat.add]. rewrite Nat.div_mul by lia. cbn. lia.
    + len.
    + len. destruct (placed_length b); lia.
Qed.

Lemma BSSID_seg_length g : length (BSSID_seg g) = (6 + length (all_placed (BSSIDS g)))%nat.
Proof. unfold BSSID_seg. rewrite length_app, hexstr_length. reflexivity. Qed.

Lemma drop_succ_cons {A} n (x : A) l : drop (n + 1) (x :: l) = drop n l.
Proof. now rewrite Nat.add_1_r. Qed.

Lemma encodeColocatedBSSID_app pre rest m g :
  bssid_index g ≠ 0%nat → length pre = (m * 2)%nat →
  (6 + 12 * bssid_index g + 1 ≤ length rest)%nat →
  encodeColocatedBSSID (pre ++ rest) m (bssid_index g) g
  = Ok ((pre ++ BSSID_seg g) ++ NUL :: drop (length (BSSID_seg g) + 1) rest,
        (m + length (BSSID_seg g) / 2)%nat, all_placed_diags (BSSIDS g)).
Proof.
  intros HN Hpre Hrest. unfold encodeColocatedBSSID.
  destruct (Nat.eqb_spec (bssid_index g) 0); [contradiction|].
  rewrite putoctet_app by len; cbn [bind].
  rewrite putoctet_app by len; cbn [bind].
  rewrite putoctet_app by len; cbn [bind].
  unfold bssid_index in *.
  rewrite placeBSSIDs_app by len. cbn [bind].
  pose proof (all_placed_length (BSSIDS g)) as Hle.
  destruct (all_placed_even (BSSIDS g)) as [q Hq].
  rewrite store_app.
  - cbn [bind]. rewrite BSSID_seg_length. unfold BSSID_seg, bssid_index.
    ok_eq; [|rewrite Hq|reflexivity].
    + rewrite !drop_drop, <- !app_assoc. cbn [hexstr map concat app].
      rewrite <- !app_assoc. cbn [app]. do 7 f_equal; try (f_equal; lia).
    + replace (6 + q * 2)%nat with ((3 + q) * 2)%nat by lia.
      rewrite !Nat.div_mul by lia. lia.
  - len. rewrite Hq, Nat.div_mul by lia. lia.
  - len.
Qed.

(** ** The layout of the element [encodeLCIstring] writes *)

Lemma tailc_length R0 c : (c + 1 ≤ length R0)%nat → length (tailc R0 c) = (length R0 - c)%nat.
Proof.
  intros H. unfold tailc. destruct (Nat.eqb_spec c 0) as [->|]; [lia|].
  cbn [length]. rewrite length_drop. lia.
Qed.

Lemma tailc_step R0 c s :
  (0 < s)%nat → NUL :: drop (s + 1) (tailc R0 c) = tailc R0 (c + s).
Proof.
  intros Hs. unfold tailc.
  destruct (Nat.eqb_spec c 0) as [->|Hc];
    match goal with |- context [(?a =? 0)%nat] => destruct (Nat.eqb_spec a 0) end; try lia.
  - reflexivity.
  - rewrite drop_succ_cons, drop_drop. do 2 f_equal. lia.
Qed.

Section Layout.

Variable log2 : Q → Q.

Lemma LCI_seg_length g : length (LCI_seg log2 g) = 36%nat.
Proof.
  unfold LCI_seg, LCI_body.
  rewrite length_app, hexstr_length, length_wr_fields, length_replicate.
  reflexivity.
Qed.

Lemma Z_octets_length g : length (Z_octets log2 g) = 8%nat.
Proof. reflexivity. Qed.

Lemma Usage_octets_length u :
  length (Usage_octets u) = 3%nat ∨ length (Usage_octets u) = 5%nat.
Proof.
  unfold Usage_octets. rewrite length_app. cbn [length].
  destruct (truthy _); [right|left]; reflexivity.
Qed.

Lemma stepZ R0 pre c m g :
  length pre = (m * 2)%nat → (c + 17 ≤ length R0)%nat →
  (if emitZ g then encodeZfield log2 (pre ++ tailc R0 c) m g
   else Ok (pre ++ tailc R0 c, m, []))
  = Ok ((pre ++ segZ log2 g) ++ tailc R0 (c + length (segZ log2 g)),
        (m + length (segZ log2 g) / 2)%nat, if emitZ g then Z_diags log2 g else []).
Proof.
  intros Hpre Hlen. unfold segZ. destruct (emitZ g).
  - rewrite encodeZfield_app by (rewrite ?tailc_length; lia).
    rewrite hexstr_length, Z_octets_length.
    change 17%nat with (16 + 1)%nat. rewrite tailc_step by lia. reflexivity.
  - cbn [length]. rewrite app_nil_r, Nat.add_0_r. ok_eq; [reflexivity|cbn; lia|reflexivity].
Qed.

Lemma stepBSSID R0 pre c m g :
  length pre = (m * 2)%nat → (c + 6 + 12 * bssid_index g + 1 ≤ length R0)%nat →
  (if emitBSSID g then encodeColocatedBSSID (pre ++ tailc R0 c) m (bssid_index g) g
   else Ok (pre ++ tailc R0 c, m, []))
  = Ok ((pre ++ segBSSID g) ++ tailc R0 (c + length (segBSSID g)),
        (m + length (segBSSID g) / 2)%nat,
        if emitBSSID g then all_placed_diags (BSSIDS g) else []).
Proof.
  intros Hpre Hlen. unfold segBSSID. destruct (emitBSSID g) eqn:E.
  - unfold emitBSSID, needBSSID in E. apply andb_true_iff in E as [_ E].
    apply Nat.ltb_lt in E.
    rewrite encodeColocatedBSSID_app by (rewrite ?tailc_length; lia).
    rewrite tailc_step by (rewrite BSSID_seg_length; lia). reflexivity.
  - cbn [length]. rewrite app_nil_r, Nat.add_0_r. ok_eq; [reflexivity|cbn; lia|reflexivity].
Qed.

Lemma stepUsage R0 pre c m g :
  length pre = (m * 2)%nat → (c + 11 ≤ length R0)%nat →
  (if emitUsage g then encodeUsageField (pre ++ tailc R0 c) m g
   else Ok (pre ++ tailc R0 c, m, g, []))
  = Ok ((pre ++ segUsage g) ++ tailc R0 (c + length (segUsage g)),
        (m + length (segUsage g) / 2)%nat, encode_globals g,
        if emitUsage g then usage_diags (usage g) else []).
Proof.
  intros Hpre Hlen. unfold segUsage, encode_globals. destruct (emitUsage g).
  - pose proof (Usage_octets_length (usage g)) as Hu.
    rewrite encodeUsageField_app by (rewrite ?tailc_length; lia).
    rewrite tailc_step by lia. rewrite hexstr_length.
    ok_eq; try reflexivity.
    rewrite Nat.mul_comm, Nat.div_mul by lia. reflexivity.
  - cbn [length]. rewrite app_nil_r, Nat.add_0_r.
    ok_eq; [reflexivity|cbn; lia|reflexivity|reflexivity].
Qed.

Lemma R0_length g : length (R0 g) = (69 + 12 * bssid_index g)%nat.
Proof. unfold R0. rewrite length_app, length_replicate. cbn [length]. lia. Qed.

Lemma segLCI_half g : length (segLCI log2 g) = (length (segLCI log2 g) / 2 * 2)%nat.
Proof. unfold segLCI. destruct (emitLCI g); [rewrite LCI_seg_length|]; reflexivity. Qed.

Lemma segZ_half g : length (segZ log2 g) = (length (segZ log2 g) / 2 * 2)%nat.
Proof. unfold segZ. destruct (emitZ g); reflexivity. Qed.

Lemma segBSSID_half g : length (segBSSID g) = (length (segBSSID g) / 2 * 2)%nat.
Proof.
  unfold segBSSID. destruct (emitBSSID g); [|reflexivity].
  rewrite BSSID_seg_length. destruct (all_placed_even (BSSIDS g)) as [q ->].
  replace (6 + q * 2)%nat with ((3 + q) * 2)%nat by lia. now rewrite Nat.div_mul by lia.
Qed.

Lemma segUsage_half g : length (segUsage g) = (length (segUsage g) / 2 * 2)%nat.
Proof.
  unfold segUsage. destruct (emitUsage g); [|reflexivity].
  rewrite hexstr_length. now rewrite Nat.mul_comm, Nat.div_mul by lia.
Qed.

Lemma segLCI_le g : (length (segLCI log2 g) ≤ 36)%nat.
Proof. unfold segLCI. destruct (emitLCI g); [rewrite LCI_seg_length|cbn]; lia. Qed.

Lemma segZ_le g : (length (segZ log2 g) ≤ 16)%nat.
Proof. unfold segZ. destruct (emitZ g); cbn; lia. Qed.

Lemma segBSSID_le g : (length (segBSSID g) ≤ 6 + 12 * bssid_index g)%nat.
Proof.
  unfold segBSSID. destruct (emitBSSID g); [|cbn; lia].
  rewrite BSSID_seg_length. pose proof (all_placed_length (BSSIDS g)). unfold bssid_index. lia.
Qed.

Lemma segUsage_le g : (length (segUsage g) ≤ 10)%nat.
Proof.
  unfold segUsage. destruct (emitUsage g); [|cbn; lia].
  rewrite hexstr_length. destruct (Usage_octets_length (usage g)); lia.
Qed.

Lemma stepLCI g :
  (if emitLCI g then encodeLCIfield log2 (header ++ R0 g) 3 g
   else Ok (header ++ R0 g, 3%nat, []))
  = Ok ((header ++ segLCI log2 g) ++ tailc (R0 g) (length (segLCI log2 g)),
        (3 + length (segLCI log2 g) / 2)%nat, if emitLCI g then LCI_diags log2 g else []).
Proof.
  unfold segLCI. destruct (emitLCI g).
  - unfold R0. replace (68 + 12 * bssid_index g)%nat with (36 + (32 + 12 * bssid_index g))%nat
      by lia.
    rewrite replicate_add, <- app_assoc.
    rewrite encodeLCIfield_app by (try reflexivity; len).
    rewrite LCI_seg_length. unfold tailc, LCI_seg, LCI_body.
    change (36 =? 0)%nat with false. cbv iota.
    rewrite (drop_app_ge (replicate 36 _)) by (rewrite length_replicate; lia).
    rewrite length_replicate. reflexivity.
  - cbn [length]. rewrite app_nil_r. reflexivity.
Qed.

Lemma putoctet_nil rest v :
  (2 ≤ length rest)%nat → putoctet rest 0 v = Ok (([] ++ hexpair v) ++ drop 2 rest).
Proof. intros H. now apply (putoctet_app [] rest 0). Qed.

Theorem encodeLCIstring_layout g :
  encodeLCIstring log2 g
  = Ok (wire log2 g ++ tailc (R0 g) (length (wire log2 g) - 6), encode_globals g, encode_diags log2 g).
Proof.
  unfold encodeLCIstring.
  rewrite putoctet_nil by len. cbn [bind].
  rewrite putoctet_app by (try reflexivity; len). cbn [bind].
  rewrite putoctet_app by (try reflexivity; len). cbn [bind].
  replace ((([] ++ hexpair MEASURE_TOKEN) ++ hexpair MEASURE_REQUEST_MODE) ++ hexpair LCI_TYPE)
    with header by reflexivity.
  match goal with |- context [header ++ ?X] => replace X with (R0 g) end.
  2:{ unfold R0. rewrite !drop_drop, drop_app_le by len. rewrite drop_replicate.
      do 2 f_equal. lia. }
  change (truthy (wantLCIflag (flags g))) with (emitLCI g).
  change (truthy (wantZflag (flags g))) with (emitZ g).
  change (truthy (wantColocatedflag (flags g)) && (0 <? bssid_index g)%nat)
    with (emitBSSID g).
  match goal with |- context [truthy (wantUsageflag (flags g)) && ?c] =>
    change (truthy (wantUsageflag (flags g)) && c) with (emitUsage g) end.
  cbn [Nat.add]. rewrite stepLCI. cbn [bind].
  pose proof (segLCI_half g). pose proof (segZ_half g).
  pose proof (segBSSID_half g). pose proof (segUsage_half g).
  pose proof (segLCI_le g). pose proof (segZ_le g).
  pose proof (segBSSID_le g). pose proof (segUsage_le g).
  pose proof (R0_length g).
  assert (Hh : length header = 6%nat) by reflexivity.
  rewrite stepZ by len. cbn [bind].
  rewrite stepBSSID by len. cbn [bind].
  rewrite stepUsage by len. cbn [bind].
  unfold wire, encode_diags. ok_eq; try reflexivity.
  rewrite <- !app_assoc. do 5 f_equal. rewrite !length_app. f_equal. lia.
Qed.

End Layout.

(** ** The decoders *)

Lemma strlen_app A R : Forall (λ c, c ≠ NUL) A → strlen (A ++ NUL :: R) = Ok (length A).
Proof.
  induction 1 as [|c A Hc _ IH]; cbn [app strlen length]; [reflexivity|].
  destruct (Ascii.eqb_spec c NUL); [contradiction|]. now rewrite IH.
Qed.

Lemma c_str_app A R : Forall (λ c, c ≠ NUL) A → c_str (A ++ NUL :: R) = A.
Proof.
  induction 1 as [|c A Hc _ IH]; cbn [app c_str]; [reflexivity|].
  destruct (Ascii.eqb_spec c NUL); [contradiction|]. now rewrite IH.
Qed.

Lemma hexpair_hexchar v : octet v → Forall hexchar (hexpair v).
Proof.
  intros Hv. unfold octet in Hv. unfold hexpair. repeat constructor.
  - apply inttohex_hexchar. rewrite Z.shiftr_div_pow2 by lia. change (2 ^ 4) with 16.
    divmod_lia.
  - apply inttohex_hexchar. rewrite land15. divmod_lia.
Qed.

Lemma hexstr_hexchar l : Forall octet l → Forall hexchar (hexstr l).
Proof.
  induction 1 as [|v l Hv _ IH]; [constructor|].
  rewrite hexstr_cons. apply Forall_app. split; [now apply hexpair_hexchar|exact IH].
Qed.

Lemma hexchar_Forall_not_NUL l : Forall hexchar l → Forall (λ c, c ≠ NUL) l.
Proof. intros H. eapply Forall_impl; [exact H|]. intros c. apply hexchar_not_NUL. Qed.


Lemma getoctet_app pre rest m k :
  length pre = (m * 2)%nat → ((k + 1) * 2 ≤ length rest)%nat →
  getoctet (pre ++ rest) (m + k) = Ok (octet_at rest k).
Proof.
  intros Hpre Hk. rewrite getoctet_Ok by (rewrite length_app; lia).
  now rewrite octet_at_app.
Qed.


Lemma lor_shiftl8 a b : octet b → Z.lor (Z.shiftl a 8) b = 256 * a + b.
Proof.
  intros Hb. unfold octet in Hb. rewrite Z.shiftl_mul_pow2 by lia. change (2 ^ 8) with 256.
  rewrite <- Z.add_nocarry_lor; [lia|].
  apply Z.bits_inj'. intros n Hn. rewrite Z.land_spec, Z.bits_0.
  destruct (Z.lt_ge_cases n 8) as [Hlt|Hge].
  - change 256 with (2 ^ 8). rewrite Z.mul_pow2_bits_low by lia. reflexivity.
  - assert (Z.testbit b n = false) as ->; [|apply andb_false_r].
    apply (proj1 (Z.bounded_iff_bits_nonneg 8 b ltac:(lia) ltac:(lia))); [|lia].
    change (2 ^ 8) with 256. lia.
Qed.

Lemma be_octet_range x p : octet (Z.land (Z.shiftr x p) 255).
Proof.
  unfold octet. change 255 with (Z.ones 8). rewrite Z.land_ones by lia.
  change (2 ^ 8) with 256. divmod_lia.
Qed.

Lemma be_octets_octet n x : Forall octet (be_octets n x).
Proof. induction n; cbn [be_octets]; constructor; [apply be_octet_range|assumption]. Qed.

Lemma getnumber_loop_be pre rest m n x res :
  length pre = (m * 2)%nat →
  getnumber_loop (pre ++ hexstr (be_octets n x) ++ rest) m n res
  = Ok (res * 2 ^ (8 * Z.of_nat n) + x mod 2 ^ (8 * Z.of_nat n)).
Proof.
  revert pre m res. induction n as [|n IH]; intros pre m res Hpre;
    cbn [getnumber_loop be_octets].
  - cbn. f_equal. rewrite Z.mod_1_r. lia.
  - rewrite hexstr_cons, <- app_assoc.
    replace m with (m + 0)%nat at 1 by lia.
    rewrite getoctet_app by (try exact Hpre; rewrite length_app, hexpair_length; lia).
    rewrite octet_at_hexpair by apply be_octet_range. cbn [bind].
    rewrite app_assoc.
    rewrite IH by (rewrite length_app, hexpair_length; lia).
    f_equal. rewrite lor_shiftl8 by apply be_octet_range.
    change 255 with (Z.ones 8). rewrite Z.land_ones, Z.shiftr_div_pow2 by lia.
    replace (8 * Z.of_nat (S n)) with (Z.of_nat n * 8 + 8) by lia.
    replace (8 * Z.of_nat n) with (Z.of_nat n * 8) by lia.
    rewrite (Z.pow_add_r 2 (Z.of_nat n * 8) 8) by lia.
    rewrite (Z.rem_mul_r x (2 ^ (Z.of_nat n * 8)) (2 ^ 8)) by lia.
    lia.
Qed.

Lemma getnumber_be pre rest m n x :
  length pre = (m * 2)%nat →
  getnumber (pre ++ hexstr (be_octets n x) ++ rest) m n = Ok (x mod 2 ^ (8 * Z.of_nat n)).
Proof.
  intros Hpre. unfold getnumber. rewrite getnumber_loop_be by exact Hpre. reflexivity.
Qed.

Lemma getoctet_hexstr0 pre v l rest m :
  length pre = (m * 2)%nat → octet v →
  getoctet (pre ++ hexstr (v :: l) ++ rest) m = Ok v.
Proof.
  intros Hpre Hv. replace m with (m + 0)%nat at 1 by lia.
  rewrite getoctet_app by (try exact Hpre; rewrite length_app, hexstr_length; cbn; lia).
  rewrite hexstr_cons, <- app_assoc. now rewrite octet_at_hexpair.
Qed.

Lemma getoctet_hexstr1 pre v0 v l rest m :
  length pre = (m * 2)%nat → octet v →
  getoctet (pre ++ hexstr (v0 :: v :: l) ++ rest) (m + 1) = Ok v.
Proof.
  intros Hpre Hv. rewrite (hexstr_cons v0), <- app_assoc, (app_assoc pre).
  apply getoctet_hexstr0; [|exact Hv]. rewrite length_app, hexpair_length. lia.
Qed.

Ltac regroup pre := rewrite (app_assoc pre).

Lemma decode_Z_sub pre post slen m g0 info h code :
  length pre = (m * 2)%nat → (m + 8 ≤ slen)%nat → octet code →
  decode_subelement
    (pre ++ hexstr ([Z_CODE; 6] ++ be_octets 2 info ++ be_octets 3 h ++ [code]) ++ post)
    slen m g0
  = Ok (inr (m + 8)%nat,
        set_zsub g0 (Z_decoded (info mod 2 ^ 16) (h mod 2 ^ 24) code),
        if MAX_Z_UNCERTAINTY <? code then [ErrZUncertaintyCode code] else []).
Proof.
  intros Hpre Hslen Hcode. unfold decode_subelement. cbn [app].
  rewrite getoctet_hexstr0 by (try exact Hpre; unfold octet, Z_CODE; lia). cbn [bind].
  rewrite getoctet_hexstr1 by (try exact Hpre; unfold octet; lia). cbn [bind].
  change (Z.to_nat 6) with 6%nat.
  destruct (Nat.ltb_spec slen (m + 2 + 6)); [lia|].
  change (Z_CODE =? LCI_CODE) with false. change (Z_CODE =? Z_CODE) with true.
  change (6 =? 6) with true. change (6 =? 5) with false. cbn [negb andb app].
  change (hexstr (Z_CODE :: 6 :: be_octets 2 info ++ be_octets 3 h ++ [code]))
    with (hexstr ([Z_CODE; 6] ++ be_octets 2 info ++ be_octets 3 h ++ [code])).
  rewrite !hexstr_app, <- !app_assoc.
  regroup pre. rewrite getnumber_be by len. cbn [bind].
  regroup (pre ++ hexstr [Z_CODE; 6]). rewrite getnumber_be by len. cbn [bind].
  regroup ((pre ++ hexstr [Z_CODE; 6]) ++ hexstr (be_octets 2 info)).
  rewrite getoctet_hexstr0 by (try exact Hcode; len). cbn [bind].
  ok_eq; try reflexivity. f_equal. lia.
Qed.

Lemma decode_Usage1_sub pre post slen m g0 parameters :
  length pre = (m * 2)%nat → (m + 3 ≤ slen)%nat → octet parameters →
  decode_subelement (pre ++ hexstr [USAGE_CODE; 1; parameters] ++ post) slen m g0
  = Ok (inr (m + 3)%nat, set_usage g0 (Usage_decoded parameters 0),
        Usage_decode_diags parameters 1 0).
Proof.
  intros Hpre Hslen Hp. unfold decode_subelement.
  rewrite getoctet_hexstr0 by (try exact Hpre; unfold octet, USAGE_CODE; lia). cbn [bind].
  rewrite getoctet_hexstr1 by (try exact Hpre; unfold octet; lia). cbn [bind].
  change (Z.to_nat 1) with 1%nat.
  destruct (Nat.ltb_spec slen (m + 2 + 1)); [lia|].
  change (USAGE_CODE =? LCI_CODE) with false. change (USAGE_CODE =? Z_CODE) with false.
  change (USAGE_CODE =? USAGE_CODE) with true.
  change (1 =? 1) with true. change (1 =? 3) with false. cbn [negb andb].
  change (hexstr [USAGE_CODE; 1; parameters])
    with (hexstr ([USAGE_CODE; 1] ++ [parameters])).
  rewrite hexstr_app, <- app_assoc. regroup pre.
  rewrite getoctet_hexstr0 by (try exact Hp; len). cbn [bind].
  ok_eq; try reflexivity. f_equal. lia.
Qed.

Lemma decode_Usage3_sub pre post slen m g0 parameters e :
  length pre = (m * 2)%nat → (m + 5 ≤ slen)%nat → octet parameters →
  decode_subelement
    (pre ++ hexstr ([USAGE_CODE; 3; parameters] ++ be_octets 2 e) ++ post) slen m g0
  = Ok (inr (m + 5)%nat, set_usage g0 (Usage_decoded parameters (e mod 2 ^ 16)),
        Usage_decode_diags parameters 3 (e mod 2 ^ 16)).
Proof.
  intros Hpre Hslen Hp. unfold decode_subelement. cbn [app].
  rewrite getoctet_hexstr0 by (try exact Hpre; unfold octet, USAGE_CODE; lia). cbn [bind].
  rewrite getoctet_hexstr1 by (try exact Hpre; unfold octet; lia). cbn [bind].
  change (Z.to_nat 3) with 3%nat.
  destruct (Nat.ltb_spec slen (m + 2 + 3)); [lia|].
  change (USAGE_CODE =? LCI_CODE) with false. change (USAGE_CODE =? Z_CODE) with false.
  change (USAGE_CODE =? USAGE_CODE) with true.
  change (3 =? 1) with false. change (3 =? 3) with true. cbn [negb andb].
  change (hexstr (USAGE_CODE :: 3 :: parameters :: be_octets 2 e))
    with (hexstr ([USAGE_CODE; 3] ++ [parameters] ++ be_octets 2 e)).
  rewrite !hexstr_app, <- !app_assoc. regroup pre.
  rewrite getoctet_hexstr0 by (try exact Hp; len). cbn [bind].
  regroup (pre ++ hexstr [USAGE_CODE; 3]).
  rewrite getnumber_be by len. cbn [bind].
  change (Z.to_nat (3 - 1)) with 2%nat.
  ok_eq; try reflexivity. f_equal. lia.
Qed.

Lemma load_app pre c rest : load (pre ++ c :: rest) (length pre) = Ok c.
Proof. apply load_Ok. now rewrite lookup_app_r, Nat.sub_diag by lia. Qed.

Lemma strndup_app pre chunk rest :
  Forall (λ c, c ≠ NUL) chunk →
  strndup (pre ++ chunk ++ rest) (length pre) (length chunk) = Ok chunk.
Proof.
  intros H. revert pre. induction H as [|c chunk Hc _ IH]; intros pre;
    cbn [length strndup app]; [reflexivity|].
  rewrite load_app. cbn [bind]. destruct (Ascii.eqb_spec c NUL); [contradiction|].
  specialize (IH (pre ++ [c])). rewrite <- app_assoc, length_app in IH. cbn [app length] in IH.
  rewrite Nat.add_1_r in IH. now rewrite IH.
Qed.

Lemma strndup_app' pre chunk rest pos n :
  pos = length pre → n = length chunk → Forall (λ c, c ≠ NUL) chunk →
  strndup (pre ++ chunk ++ rest) pos n = Ok chunk.
Proof. intros -> ->. apply strndup_app. Qed.

Lemma decodeColocatedBSSID_loop_app pre chars rest m n :
  length pre = (m * 2)%nat → length chars = (12 * n)%nat → Forall (λ c, c ≠ NUL) chars →
  decodeColocatedBSSID_loop (pre ++ chars ++ rest) m n
  = Ok ((m + 6 * n)%nat, chunks12 chars n, bssid_errors (chunks12 chars n)).
Proof.
  revert pre chars m. induction n as [|n IH]; intros pre chars m Hpre Hlen Hnn;
    cbn [decodeColocatedBSSID_loop chunks12].
  - ok_eq; [lia|reflexivity|reflexivity].
  - assert (Ht : length (take 12 chars) = 12%nat) by (rewrite length_take; lia).
    assert (S1 : strndup (pre ++ chars ++ rest) (m * 2) (6 * 2) = Ok (take 12 chars)).
    { rewrite <- (take_drop 12 chars) at 1. rewrite <- app_assoc.
      apply strndup_app'; [lia|now rewrite Ht|now apply Forall_take]. }
    rewrite S1. cbn [bind].
    assert (E : pre ++ chars ++ rest = (pre ++ take 12 chars) ++ drop 12 chars ++ rest).
    { rewrite <- (take_drop 12 chars) at 1. now rewrite <- !app_assoc. }
    rewrite E, IH.
    + cbn [bind]. unfold bssid_errors. cbn [map concat]. ok_eq; try reflexivity. lia.
    + rewrite length_app, Ht. lia.
    + rewrite length_drop. lia.
    + now apply Forall_drop.
Qed.

Lemma decodeColocatedBSSID_app pre c1 c2 chars rest m n :
  length pre = (m * 2)%nat → length chars = (12 * n)%nat → Forall (λ c, c ≠ NUL) chars →
  decodeColocatedBSSID (pre ++ c1 :: c2 :: chars ++ rest) m (1 + 6 * Z.of_nat n)
  = Ok ((m + 1 + 6 * n)%nat, chunks12 chars n,
        indicator_diags (octet_at [c1; c2] 0) (Z.of_nat n)
        ++ bssid_errors (chunks12 chars n)).
Proof.
  intros Hpre Hlen Hnn. unfold decodeColocatedBSSID.
  replace m with (m + 0)%nat at 1 by lia.
  rewrite getoctet_app by (try exact Hpre; cbn [length]; lia). cbn [bind].
  replace (1 + 6 * Z.of_nat n - 1) with (Z.of_nat n * 6) by lia.
  rewrite Z.quot_mul by lia. rewrite Nat2Z.id.
  change (pre ++ c1 :: c2 :: chars ++ rest) with (pre ++ [c1; c2] ++ chars ++ rest).
  rewrite (app_assoc pre).
  rewrite decodeColocatedBSSID_loop_app; [|len|exact Hlen|exact Hnn].
  cbn [bind]. ok_eq; reflexivity.
Qed.

Lemma decode_BSSID_sub pre post slen m g0 ind chars n :
  length pre = (m * 2)%nat → length chars = (12 * n)%nat → Forall (λ c, c ≠ NUL) chars →
  octet ind → (6 * n + 1 ≤ 255)%nat → (m + 3 + 6 * n ≤ slen)%nat →
  decode_subelement
    (pre ++ (hexstr [COLOCATED_BSSID; Z.of_nat n * 6 + 1; ind] ++ chars) ++ post) slen m g0
  = Ok (inr (m + 3 + 6 * n)%nat, set_BSSIDS g0 (chunks12 chars n),
        indicator_diags ind (Z.of_nat n) ++ bssid_errors (chunks12 chars n)).
Proof.
  intros Hpre Hlen Hnn Hind Hn Hslen. unfold decode_subelement. rewrite <- app_assoc.
  rewrite getoctet_hexstr0 by (try exact Hpre; unfold octet, COLOCATED_BSSID; lia).
  cbn [bind].
  rewrite getoctet_hexstr1 by (try exact Hpre; unfold octet; lia). cbn [bind].
  replace (Z.to_nat (Z.of_nat n * 6 + 1)) with (6 * n + 1)%nat by lia.
  destruct (Nat.ltb_spec slen (m + 2 + (6 * n + 1))); [lia|].
  change (COLOCATED_BSSID =? LCI_CODE) with false.
  change (COLOCATED_BSSID =? Z_CODE) with false.
  change (COLOCATED_BSSID =? USAGE_CODE) with false.
  change (COLOCATED_BSSID =? COLOCATED_BSSID) with true. cbv iota.
  replace (Z.of_nat n * 6 + 1 - 1) with (Z.of_nat n * 6) by lia.
  rewrite Z.rem_mul by lia. change (negb (0 =? 0)) with false. cbv iota.
  change (hexstr [COLOCATED_BSSID; Z.of_nat n * 6 + 1; ind])
    with (hexstr [COLOCATED_BSSID; Z.of_nat n * 6 + 1] ++ hexpair ind ++ []).
  rewrite <- !app_assoc. regroup pre. cbn [hexpair app].
  replace (Z.of_nat n * 6 + 1) with (1 + 6 * Z.of_nat n) by lia.
  rewrite decodeColocatedBSSID_app by (try assumption; len).
  cbn [bind app].
  pose proof (octet_at_hexpair ind [] Hind) as Ho. unfold hexpair in Ho. cbn [app] in Ho.
  rewrite Ho.
  ok_eq; try reflexivity. f_equal. lia.
Qed.

Lemma getbits_Ok' str k n q :
  (k + n ≤ q * 8)%nat → (q * 2 ≤ length str)%nat → getbits str k n = Ok (bits_val str k n).
Proof. intros. apply getbits_Ok. now apply (fields_bound _ _ q). Qed.

Lemma decodeLCIfield_Ok str :
  (32 ≤ length str)%nat →
  decodeLCIfield str 0 = Ok (128%nat, LCI_of_block str, LCI_diags_of_block str).
Proof.
  intros Hlen. unfold decodeLCIfield.
  repeat (rewrite (getbits_Ok' _ _ _ 16) by (cbn [Nat.add]; lia); cbn [bind]).
  reflexivity.
Qed.

Lemma decode_LCI_sub pre body post slen m g0 :
  length pre = (m * 2)%nat → length body = 32%nat → (m + 18 ≤ slen)%nat →
  decode_subelement (pre ++ (hexstr [LCI_CODE; 16] ++ body) ++ post) slen m g0
  = Ok (inr (m + 18)%nat, set_lci g0 (LCI_of_block (body ++ post)),
        LCI_diags_of_block (body ++ post)).
Proof.
  intros Hpre Hbody Hslen. unfold decode_subelement. rewrite <- app_assoc.
  rewrite getoctet_hexstr0 by (try exact Hpre; unfold octet, LCI_CODE; lia). cbn [bind].
  rewrite getoctet_hexstr1 by (try exact Hpre; unfold octet; lia). cbn [bind].
  change (Z.to_nat 16) with 16%nat.
  destruct (Nat.ltb_spec slen (m + 2 + 16)); [lia|].
  change (LCI_CODE =? LCI_CODE) with true. change (16 =? 0) with false.
  change (16 =? 16) with true. cbn [negb]. cbv iota.
  rewrite (app_assoc pre), drop_app_length' by len.
  rewrite decodeLCIfield_Ok by len. cbn [bind]. rewrite app_nil_r.
  ok_eq; try reflexivity. f_equal. change (128 / 8)%nat with 16%nat. lia.
Qed.

Lemma decode_loop_subs l :
  Forall sub_ok l →
  ∀ fuel pre post m g0,
    length pre = (m * 2)%nat → (length l ≤ fuel)%nat →
    decode_loop fuel (pre ++ subs_chars l ++ post) (m + subs_octs l) m g0
    = Ok (subs_eff l g0, subs_dg l).
Proof.
  induction 1 as [|s l Hs _ IH]; intros fuel pre post m g0 Hpre Hfuel.
  - cbn [subs_octs sum_list_with]. rewrite Nat.add_0_r.
    destruct fuel; cbn [decode_loop]; rewrite Nat.ltb_irrefl; reflexivity.
  - destruct Hs as ([c [rest [Hc Hnn]]] & Hlen & Hdec).
    cbn [length] in Hfuel. destruct fuel as [|fuel]; [lia|].
    cbn [decode_loop subs_octs sum_list_with subs_chars map concat].
    assert (Hq : (0 < octs s)%nat).
    { rewrite Hc in Hlen. cbn [length] in Hlen. lia. }
    destruct (Nat.ltb_spec m (m + (octs s + sum_list_with octs l))); [|lia].
    rewrite <- Hpre, <- !app_assoc, Hc. cbn [app]. rewrite load_app. cbn [bind].
    destruct (Ascii.eqb_spec c NUL); [contradiction|]. cbn [negb].
    change (c :: rest ++ concat (map chars l) ++ post)
      with ((c :: rest) ++ subs_chars l ++ post).
    rewrite <- Hc. rewrite Hdec by lia. cbn [bind].
    rewrite (app_assoc pre).
    replace (m + (octs s + sum_list_with octs l))%nat
      with ((m + octs s) + subs_octs l)%nat by (unfold subs_octs; lia).
    rewrite IH by (rewrite ?length_app; lia).
    cbn [bind]. reflexivity.
Qed.

(** ** The subelements the encoders write, as the decoder reads them *)

Lemma nth_not_NUL (b : list ascii) i :
  Forall (λ c, c ≠ NUL) b → (i < length b)%nat → nth i b NUL ≠ NUL.
Proof.
  intros H Hi. destruct (lookup_lt_is_Some_2 b i Hi) as [c Hc].
  rewrite (nth_lookup_Some _ _ NUL _ Hc). rewrite Forall_lookup in H. exact (H i c Hc).
Qed.

Lemma placed_wf b :
  wf_bssid b → length (placed b) = 12%nat ∧ Forall (λ c, c ≠ NUL) (placed b).
Proof.
  intros [[Hl|Hl] Hnn]; unfold placed; rewrite Hl; cbn [Nat.eqb bssid_pairs];
    (split; [reflexivity|]); repeat constructor; apply nth_not_NUL; try assumption;
    rewrite Hl; cbn; lia.
Qed.

Lemma all_placed_wf bs :
  Forall wf_bssid bs →
  length (all_placed bs) = (12 * length bs)%nat ∧ Forall (λ c, c ≠ NUL) (all_placed bs).
Proof.
  unfold all_placed. induction 1 as [|b bs Hb _ [IHl IHn]]; cbn [map concat length].
  - split; [reflexivity|constructor].
  - destruct (placed_wf b Hb) as [Hl Hn]. split.
    + rewrite length_app, Hl, IHl. lia.
    + apply Forall_app. now split.
Qed.

Section Subelements.

Variable log2 : Q → Q.

Lemma encodebinarydot_range val m :
  0 ≤ fst (encodebinarydot log2 val m) ≤ MAX_LCI_UNCERTAINTY.
Proof.
  unfold encodebinarydot, MAX_LCI_UNCERTAINTY.
  destruct (Qle_bool val 0); [cbn; lia|].
  destruct (Z.leb_spec (m - Qceiling (log2 val - eps)) 0); [cbn; lia|].
  destruct (Z.ltb_spec 34 (m - Qceiling (log2 val - eps))); cbn; lia.
Qed.

Lemma uncertainty_code_range s u m max :
  0 ≤ max ≤ MAX_LCI_UNCERTAINTY →
  0 ≤ fst (uncertainty_code log2 s u m max) ≤ MAX_LCI_UNCERTAINTY.
Proof.
  intros Hmax. unfold uncertainty_code.
  destruct (Qpositive u); [apply encodebinarydot_range|].
  destruct (negb (truthy s)); cbn; unfold MAX_LCI_UNCERTAINTY in *; lia.
Qed.

Lemma Z_code_range g : 0 ≤ Z_code log2 g ≤ MAX_Z_UNCERTAINTY.
Proof.
  unfold Z_code.
  pose proof (uncertainty_code_range (smallestflag (flags g))
                (sta_height_above_floor_uncertainty (zsub g)) 11 MAX_Z_UNCERTAINTY) as H.
  unfold MAX_Z_UNCERTAINTY, MAX_LCI_UNCERTAINTY in *. specialize (H ltac:(lia)).
  destruct (Z.ltb_spec 24 (fst (uncertainty_code log2 (smallestflag (flags g))
                (sta_height_above_floor_uncertainty (zsub g)) 11 24))); lia.
Qed.

Lemma bit_at_app_l str rest i :
  (i / 8 * 2 + 1 < length str)%nat → bit_at (str ++ rest) i = bit_at str i.
Proof. intros H. unfold bit_at. now rewrite octet_at_app_l. Qed.

Lemma bits_val_app_l str rest k n q :
  (k + n ≤ q * 8)%nat → (q * 2 ≤ length str)%nat →
  bits_val (str ++ rest) k n = bits_val str k n.
Proof.
  intros Hq Hlen. apply bits_val_ext. intros t Ht. apply bit_at_app_l.
  pose proof (div8_lt (k + t) q). lia.
Qed.

Lemma LCI_of_block_app body post :
  length body = 32%nat →
  LCI_of_block (body ++ post) = LCI_of_block body
  ∧ LCI_diags_of_block (body ++ post) = LCI_diags_of_block body.
Proof.
  intros Hlen. unfold LCI_of_block, LCI_diags_of_block.
  rewrite !(bits_val_app_l body post _ _ 16) by lia. split; reflexivity.
Qed.

Lemma LCI_body_length g : length (LCI_body log2 g) = 32%nat.
Proof. unfold LCI_body. now rewrite length_wr_fields, length_replicate. Qed.

Lemma LCI_body_hexchar g : Forall hexchar (LCI_body log2 g).
Proof.
  apply Forall_lookup. intros i c Hc.
  pose proof (lookup_lt_Some _ _ _ Hc) as Hi. rewrite LCI_body_length in Hi.
  rewrite <- (nth_lookup_Some _ _ NUL _ Hc). unfold LCI_body.
  apply nth_wr_fields_hexchar.
  - right. rewrite length_replicate. cbn. lia.
  - right. cbn [width LCI_fields]. split; [lia|]. split; [cbn; lia|].
    change ((0 + (6 + (34 + (6 + (34 + (4 + (6 + (30 + (3 + (1 + (1 + (1 + (2 + 0))))))))))))
             - 1) / 8)%nat with 15%nat.
    pose proof (Nat.Div0.div_lt_upper_bound i 2 16). lia.
Qed.

Lemma hexstr_head v l : octet v → ∃ c rest, hexstr (v :: l) = c :: rest ∧ c ≠ NUL.
Proof.
  intros Hv. rewrite hexstr_cons. pose proof (hexpair_hexchar v Hv) as H.
  unfold hexpair in *. eexists _, _. split; [reflexivity|].
  apply hexchar_not_NUL. now inversion H.
Qed.

Lemma hexstr_head_app v l r :
  octet v → ∃ c rest, hexstr (v :: l) ++ r = c :: rest ∧ c ≠ NUL.
Proof.
  intros Hv. destruct (hexstr_head v l Hv) as (c & rest & -> & Hc).
  now exists c, (rest ++ r).
Qed.

Lemma subLCI_ok g : sub_ok (subLCI log2 g).
Proof.
  split; [|split].
  - cbn [chars subLCI]. unfold LCI_seg. apply hexstr_head_app. unfold octet, LCI_CODE. lia.
  - cbn [chars octs subLCI]. now rewrite LCI_seg_length.
  - intros pre post slen m g0 Hpre Hslen. cbn [chars octs eff dg subLCI] in *.
    unfold LCI_seg.
    rewrite decode_LCI_sub by (try apply LCI_body_length; assumption).
    destruct (LCI_of_block_app (LCI_body log2 g) post (LCI_body_length g)) as [-> ->].
    reflexivity.
Qed.

Lemma Z_octets_eq g :
  Z_octets log2 g
  = [Z_CODE; 6] ++ be_octets 2 (Z_fields_info g)
    ++ be_octets 3 (trunc (sta_height_above_floor (zsub g) * 4096)) ++ [Z_code log2 g].
Proof.
  unfold Z_octets. do 3 f_equal. cbn [be_octets]. f_equal.
  pose proof (Z_code_range g) as H. unfold MAX_Z_UNCERTAINTY in H.
  change (Z.of_nat 0 * 8) with 0. rewrite Z.shiftr_0_r.
  change 255 with (Z.ones 8). rewrite Z.land_ones by lia. apply Z.mod_small.
  change (2 ^ 8) with 256. lia.
Qed.

Lemma subZ_ok g : sub_ok (subZ log2 g).
Proof.
  split; [|split].
  - cbn [chars subZ]. unfold Z_octets. cbn [app]. apply hexstr_head.
    unfold octet, Z_CODE. lia.
  - reflexivity.
  - intros pre post slen m g0 Hpre Hslen. cbn [chars octs eff dg subZ] in *.
    rewrite Z_octets_eq. apply decode_Z_sub; try assumption.
    pose proof (Z_code_range g). unfold octet, MAX_Z_UNCERTAINTY in *. lia.
Qed.

Lemma subBSSID_ok g :
  Forall wf_bssid (BSSIDS g) → (bssid_index g ≤ 42)%nat → sub_ok (subBSSID g).
Proof.
  intros Hwf HN. destruct (all_placed_wf _ Hwf) as [Hl Hnn].
  split; [|split].
  - cbn [chars subBSSID]. unfold BSSID_seg. apply hexstr_head_app.
    unfold octet, COLOCATED_BSSID. lia.
  - cbn [chars octs subBSSID]. rewrite BSSID_seg_length, Hl. unfold bssid_index. lia.
  - intros pre post slen m g0 Hpre Hslen. cbn [chars octs eff dg subBSSID] in *.
    unfold BSSID_seg.
    rewrite decode_BSSID_sub; try assumption; try (unfold bssid_index in *; lia).
    + ok_eq; try reflexivity. f_equal. lia.
    + unfold octet. lia.
Qed.

Lemma Usage_parameters_octet u : wf_usage u → octet (Usage_parameters u).
Proof.
  intros (H1 & H2 & H3). unfold Usage_parameters, octet.
  destruct H1 as [-> | ->], H2 as [-> | ->], H3 as [-> | ->];
    (split; [apply Z.leb_le|apply Z.ltb_lt]; reflexivity).
Qed.

Lemma usage_reconciled_wf u : wf_usage u → wf_usage (usage_reconciled u).
Proof.
  intros (H1 & H2 & H3). unfold usage_reconciled.
  destruct (truthy _); destruct (_ =? 0); cbn [negb]; repeat split; try assumption;
    cbn; unfold flag01; lia.
Qed.

Lemma subUsage_ok g : wf_usage (usage g) → sub_ok (subUsage g).
Proof.
  intros Hwf. pose proof (Usage_parameters_octet _ (usage_reconciled_wf _ Hwf)) as Hp.
  split; [|split].
  - cbn [chars subUsage]. unfold Usage_octets. cbn [app]. apply hexstr_head.
    unfold octet, USAGE_CODE. lia.
  - cbn [chars octs subUsage]. rewrite hexstr_length. lia.
  - intros pre post slen m g0 Hpre Hslen. cbn [chars octs eff dg subUsage] in *.
    unfold Usage_octets in *. fold (Usage_parameters (usage_reconciled (usage g))) in *.
    destruct (truthy (retention_expires_present (usage_reconciled (usage g)))).
    + cbn [length app] in Hslen. rewrite decode_Usage3_sub by (cbn [length]; assumption || lia).
      reflexivity.
    + cbn [length app] in Hslen |- *.
      rewrite decode_Usage1_sub by (cbn [length]; assumption || lia).
      reflexivity.
Qed.

End Subelements.

(** ** Decoding an encoded element *)

Section DecodeEncode.

Variable log2 : Q → Q.

Lemma wire_subs g : wire log2 g = header ++ subs_chars (enc_subs log2 g).
Proof.
  unfold wire, enc_subs, segLCI, segZ, segBSSID, segUsage, subs_chars.
  destruct (emitLCI g), (emitZ g), (emitBSSID g), (emitUsage g);
    cbn [app map concat chars subLCI subZ subBSSID subUsage];
    rewrite ?app_nil_r, <- ?app_assoc; reflexivity.
Qed.

Lemma enc_subs_ok g : wf_globals g → Forall sub_ok (enc_subs log2 g).
Proof.
  intros (Hb & HN & Hu). unfold enc_subs.
  apply Forall_app_2; [|apply Forall_app_2; [|apply Forall_app_2]].
  - destruct (emitLCI g); [|constructor]. constructor; [apply subLCI_ok|constructor].
  - destruct (emitZ g); [|constructor]. constructor; [apply subZ_ok|constructor].
  - destruct (emitBSSID g); [|constructor].
    constructor; [now apply subBSSID_ok|constructor].
  - destruct (emitUsage g); [|constructor].
    constructor; [now apply subUsage_ok|constructor].
Qed.

Lemma sub_ok_chars_not_NUL_head s : sub_ok s → (1 ≤ octs s)%nat.
Proof.
  intros ((c & rest & Hc & _) & Hlen & _). rewrite Hc in Hlen. cbn [length] in Hlen. lia.
Qed.

Lemma subs_length_octs l : Forall sub_ok l → (length l ≤ subs_octs l)%nat.
Proof.
  induction 1 as [|s l Hs _ IH]; cbn [length subs_octs sum_list_with]; [lia|].
  pose proof (sub_ok_chars_not_NUL_head s Hs). unfold subs_octs in IH. lia.
Qed.

Lemma subs_chars_length l :
  Forall sub_ok l → length (subs_chars l) = (subs_octs l * 2)%nat.
Proof.
  unfold subs_chars, subs_octs.
  induction 1 as [|s l Hs _ IH]; cbn [map concat sum_list_with length]; [reflexivity|].
  destruct Hs as (_ & Hlen & _). rewrite length_app, Hlen, IH. lia.
Qed.

(** The characters of the encoded element are those of a C string. *)
Lemma Z_octets_octet g : Forall octet (Z_octets log2 g).
Proof.
  unfold Z_octets.
  apply Forall_app_2; [|apply Forall_app_2; [|apply Forall_app_2]];
    try apply be_octets_octet.
  repeat constructor; unfold octet, Z_CODE; lia.
Qed.

Lemma Usage_octets_octet u : wf_usage u → Forall octet (Usage_octets u).
Proof.
  intros Hwf. unfold Usage_octets. apply Forall_app_2.
  - constructor; [unfold octet, USAGE_CODE; lia|].
    constructor; [unfold octet; destruct (truthy _); lia|].
    constructor; [|constructor].
    apply (Usage_parameters_octet _ (usage_reconciled_wf _ Hwf)).
  - destruct (truthy _); [apply be_octets_octet|constructor].
Qed.

Lemma wire_not_NUL g : wf_globals g → Forall (λ c, c ≠ NUL) (wire log2 g).
Proof.
  intros (Hb & HN & Hu). unfold wire, segLCI, segZ, segBSSID, segUsage.
  apply Forall_app_2; [|apply Forall_app_2; [|apply Forall_app_2; [|apply Forall_app_2]]].
  - apply hexchar_Forall_not_NUL. unfold header. apply hexstr_hexchar.
    repeat constructor; unfold octet;
      unfold MEASURE_TOKEN, MEASURE_REQUEST_MODE, LCI_TYPE; lia.
  - destruct (emitLCI g); [|constructor]. unfold LCI_seg. apply Forall_app_2.
    + apply hexchar_Forall_not_NUL, hexstr_hexchar.
      repeat constructor; unfold octet, LCI_CODE; lia.
    + apply hexchar_Forall_not_NUL, LCI_body_hexchar.
  - destruct (emitZ g); [|constructor].
    apply hexchar_Forall_not_NUL, hexstr_hexchar, Z_octets_octet.
  - destruct (emitBSSID g); [|constructor]. unfold BSSID_seg. apply Forall_app_2.
    + apply hexchar_Forall_not_NUL, hexstr_hexchar.
      repeat constructor; unfold octet, COLOCATED_BSSID; lia.
    + now apply all_placed_wf.
  - destruct (emitUsage g); [|constructor].
    apply hexchar_Forall_not_NUL, hexstr_hexchar. now apply Usage_octets_octet.
Qed.

Lemma header_length : length header = 6%nat.
Proof. reflexivity. Qed.

Theorem decode_encoded g g0 :
  wf_globals g → emit_any g = true →
  decodeLCIstring (wire log2 g ++ tailc (R0 g) (length (wire log2 g) - 6)) g0
  = Ok (subs_eff (enc_subs log2 g) g0,
        subs_dg (enc_subs log2 g) ++ checksettings (subs_eff (enc_subs log2 g) g0)).
Proof.
  intros Hwf Hany. pose proof (enc_subs_ok g Hwf) as Hok.
  pose proof (wire_not_NUL g Hwf) as Hnn.
  pose proof (subs_chars_length _ Hok) as Hlen.
  pose proof (subs_length_octs _ Hok) as Hfuel.
  assert (Hw : length (wire log2 g) = ((3 + subs_octs (enc_subs log2 g)) * 2)%nat).
  { rewrite wire_subs, length_app, header_length, Hlen. lia. }
  assert (Hpos : (0 < subs_octs (enc_subs log2 g))%nat).
  { clear Hw Hlen Hok. unfold emit_any in Hany. unfold enc_subs in *.
    destruct (emitLCI g), (emitZ g), (emitBSSID g), (emitUsage g);
      try discriminate Hany; cbn [app length] in *; lia. }
  unfold tailc. destruct (Nat.eqb_spec (length (wire log2 g) - 6) 0) as [E|_]; [lia|].
  unfold decodeLCIstring. rewrite strlen_app by exact Hnn. cbn [bind].
  rewrite Hw, Nat.div_mul by lia.
  assert (Hhead : ∀ k, (k < 3)%nat →
    getoctet (wire log2 g ++ NUL :: drop (((3 + subs_octs (enc_subs log2 g)) * 2 - 6) + 1) (R0 g)) k
    = Ok (octet_at header k)).
  { intros k Hk. rewrite getoctet_Ok by (rewrite length_app, Hw; lia).
    rewrite wire_subs, <- app_assoc. f_equal. apply octet_at_app_l.
    rewrite header_length. lia. }
  rewrite !Hhead by lia. cbn [bind].
  change (octet_at header 0) with 1. change (octet_at header 1) with 0.
  change (octet_at header 2) with 8.
  change (negb (1 =? MEASURE_TOKEN) || negb (0 =? MEASURE_REQUEST_MODE)
          || negb (8 =? LCI_TYPE)) with false. cbv iota.
  rewrite wire_subs, <- app_assoc.
  rewrite decode_loop_subs; [|exact Hok|reflexivity|lia].
  cbn [bind app]. reflexivity.
Qed.

End DecodeEncode.

(** ** Rounding and powers of two *)

Lemma round_inject_Z a : round (inject_Z a) = a.
Proof.
  unfold round. destruct (Qle_bool 0 (inject_Z a)).
  - assert (H : (inject_Z a + (1 # 2) == inject_Z (2 * a + 1) / inject_Z 2)%Q).
    { rewrite inject_Z_plus, inject_Z_mult. field. }
    rewrite (Qfloor_comp _ _ H), <- Zdiv_Qdiv. divmod_lia.
  - unfold Qceiling.
    assert (H : (- (inject_Z a - (1 # 2)) == inject_Z (- 2 * a + 1) / inject_Z 2)%Q).
    { rewrite inject_Z_plus, inject_Z_mult. field. }
    rewrite (Qfloor_comp _ _ H), <- Zdiv_Qdiv. divmod_lia.
Qed.

Lemma trunc_inject_Z a : trunc (inject_Z a) = a.
Proof. unfold trunc. destruct (Qle_bool 0 (inject_Z a)); [apply Qfloor_Z|apply Qceiling_Z]. Qed.

Lemma round_comp x y : (x == y)%Q → round x = round y.
Proof.
  intros H. unfold round. rewrite (Qleb_comp 0%Q 0%Q (Qeq_refl 0%Q) x y H).
  destruct (Qle_bool 0 y).
  - apply Qfloor_comp. now rewrite H.
  - apply Qceiling_comp. now rewrite H.
Qed.

Lemma trunc_comp x y : (x == y)%Q → trunc x = trunc y.
Proof.
  intros H. unfold trunc. rewrite (Qleb_comp 0%Q 0%Q (Qeq_refl 0%Q) x y H).
  destruct (Qle_bool 0 y); [now apply Qfloor_comp|now apply Qceiling_comp].
Qed.

(** A value on the grid of [m] fractional bits scales to its numerator. *)
Lemma scaled_grid x a p :
  0 < p → (x == inject_Z a / inject_Z p)%Q → (x * inject_Z p == inject_Z a)%Q.
Proof.
  intros Hp H. rewrite H. field. intros E.
  unfold Qeq in E. cbn in E. lia.
Qed.

Lemma exp2_pos k : (0 < exp2 k)%Q.
Proof. unfold exp2. now apply Qpower_0_lt. Qed.

Lemma exp2_nonneg_Z k : 0 ≤ k → (exp2 k == inject_Z (2 ^ k))%Q.
Proof. intros Hk. unfold exp2. now rewrite Zpower_Qpower. Qed.

Lemma Qceiling_minus_eps k : Qceiling (inject_Z k - eps) = k.
Proof.
  pose proof (Qle_ceiling (inject_Z k - eps)) as H1.
  pose proof (Qceiling_lt (inject_Z k - eps)) as H2.
  set (c := Qceiling (inject_Z k - eps)) in *.
  assert (Hlo : (inject_Z (k - 1) < inject_Z c)%Q).
  { eapply Qlt_le_trans; [|exact H1].
    unfold Qlt, Qminus, Qplus, Qopp, eps. cbn [Qnum Qden inject_Z]. lia. }
  assert (Hhi : (inject_Z (c - 1) < inject_Z k)%Q).
  { eapply Qlt_trans; [exact H2|].
    unfold Qlt, Qminus, Qplus, Qopp, eps. cbn [Qnum Qden inject_Z]. lia. }
  rewrite <- Zlt_Qlt in Hlo, Hhi. lia.
Qed.

Section Exact.

Variable log2 : Q → Q.

Hypothesis Hlog2 : log2_exact log2.

Lemma encodebinarydot_exp2 q m c :
  (q == exp2 (m - c))%Q → 1 ≤ c ≤ MAX_LCI_UNCERTAINTY →
  encodebinarydot log2 q m = (c, []).
Proof.
  intros Hq Hc. unfold encodebinarydot, MAX_LCI_UNCERTAINTY in *.
  assert (Hpos : Qle_bool q 0 = false).
  { destruct (Qle_bool q 0) eqn:E; [|reflexivity]. apply Qle_bool_imp_le in E.
    pose proof (exp2_pos (m - c)) as Hp. rewrite <- Hq in Hp.
    exfalso. exact (Qlt_not_le _ _ Hp E). }
  rewrite Hpos.
  assert (HC : Qceiling (log2 q - eps) = m - c).
  { rewrite <- (Qceiling_minus_eps (m - c)). apply Qceiling_comp.
    now rewrite (Hlog2 q (m - c) Hq). }
  rewrite HC. replace (m - (m - c)) with c by lia.
  destruct (Z.leb_spec c 0); [lia|]. destruct (Z.ltb_spec 34 c); [lia|]. reflexivity.
Qed.

Lemma uncertainty_code_exp2 s q m max c :
  (q == exp2 (m - c))%Q → 1 ≤ c ≤ MAX_LCI_UNCERTAINTY →
  uncertainty_code log2 s q m max = (c, []).
Proof.
  intros Hq Hc. unfold uncertainty_code, Qpositive.
  assert (Hpos : Qle_bool q 0 = false).
  { destruct (Qle_bool q 0) eqn:E; [|reflexivity]. apply Qle_bool_imp_le in E.
    pose proof (exp2_pos (m - c)) as Hp. rewrite <- Hq in Hp.
    exfalso. exact (Qlt_not_le _ _ Hp E). }
  rewrite Hpos. cbn [negb]. now apply encodebinarydot_exp2.
Qed.

End Exact.

(** [log2_model] meets the assumption. *)
Lemma floor_log2_exp2 q k : (q == exp2 k)%Q → floor_log2 q = k.
Proof.
  intros Hq. unfold floor_log2.
  destruct (Z.le_gt_cases 0 k) as [Hk|Hk].
  - assert (H1 : (1 <= q)%Q).
    { rewrite Hq. unfold exp2. apply Qpower_1_le; [discriminate|exact Hk]. }
    apply Qle_bool_iff in H1. rewrite H1.
    rewrite (Qfloor_comp _ _ Hq), (Qfloor_comp _ _ (exp2_nonneg_Z k Hk)), Qfloor_Z.
    now apply Z.log2_pow2.
  - assert (Hinv : (/ q == inject_Z (2 ^ (- k)))%Q).
    { rewrite Hq. unfold exp2. rewrite <- Qpower_opp. apply exp2_nonneg_Z. lia. }
    assert (H1 : Qle_bool 1 q = false).
    { destruct (Qle_bool 1 q) eqn:E; [|reflexivity]. apply Qle_bool_imp_le in E.
      exfalso. assert (Hlt : (1 < / q)%Q).
      { rewrite Hinv. change 1%Q with (inject_Z 1). rewrite <- Zlt_Qlt.
        apply Z.pow_gt_1; lia. }
      assert (Hq0 : (0 < q)%Q) by (rewrite Hq; apply exp2_pos).
      apply (Qlt_not_le 1 (/ q) Hlt).
      apply Qle_shift_inv_r; [exact Hq0|]. now rewrite Qmult_1_l. }
    rewrite H1, (Qceiling_comp _ _ Hinv), Qceiling_Z, Z.log2_up_pow2 by lia. lia.
Qed.

Lemma log2_model_exact : log2_exact log2_model.
Proof.
  intros q k Hq. unfold log2_model. rewrite (floor_log2_exp2 q k Hq).
  rewrite Hq. pose proof (exp2_pos k) as Hp.
  field. intros E. rewrite E in Hp. discriminate Hp.
Qed.

Lemma propagate_sign_mod a n :
  0 < n → - 2 ^ (n - 1) ≤ a < 2 ^ (n - 1) → propagate_sign (a mod 2 ^ n) n = a.
Proof.
  intros Hn Ha. unfold propagate_sign.
  assert (H2 : 2 ^ n = 2 * 2 ^ (n - 1)).
  { replace n with (Z.succ (n - 1)) at 1 by lia. apply Z.pow_succ_r. lia. }
  assert (HP : 0 < 2 ^ (n - 1)) by (apply Z.pow_pos_nonneg; lia).
  rewrite land_pow2_eqb, negb_involutive by lia.
  destruct (Z.lt_ge_cases a 0) as [Hneg|Hnn].
  - assert (Hr : a mod 2 ^ n = a + 2 ^ n).
    { symmetry. apply (Z.mod_unique a (2 ^ n) (-1)); lia. }
    rewrite Hr.
    assert (Hb : Z.testbit (a + 2 ^ n) (n - 1) = true).
    { apply Z.testbit_true; [lia|].
      rewrite <- (Z.div_unique (a + 2 ^ n) (2 ^ (n - 1)) 1 (a + 2 ^ (n - 1))) by lia.
      reflexivity. }
    rewrite Hb. rewrite Z.shiftl_1_l.
    replace (Z.lnot (2 ^ n - 1)) with (- 2 ^ n) by (unfold Z.lnot; lia).
    rewrite <- Z.add_nocarry_lor; [lia|].
    apply Z.bits_inj'. intros i Hi. rewrite Z.land_spec, Z.bits_0, Z.opp_pow2_spec by lia.
    destruct (Z.lt_ge_cases i n).
    + rewrite bool_decide_eq_false_2 by lia. apply andb_false_r.
    + assert (Z.testbit (a + 2 ^ n) i = false) as ->; [|reflexivity].
      apply (proj1 (Z.bounded_iff_bits_nonneg n (a + 2 ^ n) ltac:(lia) ltac:(lia))); lia.
  - rewrite Z.mod_small by lia.
    assert (Hb : Z.testbit a (n - 1) = false).
    { apply Z.testbit_false; [lia|]. rewrite Z.div_small by lia. reflexivity. }
    now rewrite Hb.
Qed.

(** ** Configurations the wire format represents exactly *)

Lemma lor_shiftl a b n : 0 ≤ n → 0 ≤ b < 2 ^ n → Z.lor (Z.shiftl a n) b = a * 2 ^ n + b.
Proof.
  intros Hn Hb. rewrite Z.shiftl_mul_pow2 by lia.
  rewrite <- Z.add_nocarry_lor; [lia|].
  apply Z.bits_inj'. intros i Hi. rewrite Z.land_spec, Z.bits_0.
  destruct (Z.lt_ge_cases i n) as [Hlt|Hge].
  - rewrite Z.mul_pow2_bits_low by lia. reflexivity.
  - assert (Z.testbit b i = false) as ->; [|apply andb_false_r].
    apply (proj1 (Z.bounded_iff_bits_nonneg n b ltac:(lia) ltac:(lia))); lia.
Qed.

Section Representable.

Variable log2 : Q → Q.

Hypothesis Hlog2 : log2_exact log2.

Lemma LCI_of_block_fields c1 lat c2 lon atype c3 alt dat ra rd ds ver :
  let f1 := (6%nat, c1) in let f2 := (34%nat, lat) in let f3 := (6%nat, c2) in
  let f4 := (34%nat, lon) in let f5 := (4%nat, atype) in let f6 := (6%nat, c3) in
  let f7 := (30%nat, alt) in let f8 := (3%nat, dat) in let f9 := (1%nat, ra) in
  let f10 := (1%nat, rd) in let f11 := (1%nat, ds) in let f12 := (2%nat, ver) in
  LCI_of_block (wr_fields (replicate 32 "0"%char) 0
                  [f1; f2; f3; f4; f5; f6; f7; f8; f9; f10; f11; f12])
  = LCI_interpret (c1 mod 2 ^ 6) (lat mod 2 ^ 34) (c2 mod 2 ^ 6) (lon mod 2 ^ 34)
      (atype mod 2 ^ 4) (c3 mod 2 ^ 6) (alt mod 2 ^ 30) (dat mod 2 ^ 3)
      (ra mod 2 ^ 1) (rd mod 2 ^ 1) (ds mod 2 ^ 1) (ver mod 2 ^ 2).
Proof.
  intros. unfold LCI_of_block.
  assert (F : ∀ pre w v post,
    [f1; f2; f3; f4; f5; f6; f7; f8; f9; f10; f11; f12] = pre ++ (w, v) :: post →
    bits_val (wr_fields (replicate 32 "0"%char) 0
                [f1; f2; f3; f4; f5; f6; f7; f8; f9; f10; f11; f12]) (0 + width pre) w
    = v mod 2 ^ Z.of_nat w).
  { intros pre w v post E. rewrite E. apply bits_val_wr_fields.
    right. rewrite <- E, length_replicate. cbn. lia. }
  rewrite (F [] _ _ _ eq_refl : bits_val _ 0 6 = _).
  rewrite (F [f1] _ _ _ eq_refl : bits_val _ 6 34 = _).
  rewrite (F [f1; f2] _ _ _ eq_refl : bits_val _ 40 6 = _).
  rewrite (F [f1; f2; f3] _ _ _ eq_refl : bits_val _ 46 34 = _).
  rewrite (F [f1; f2; f3; f4] _ _ _ eq_refl : bits_val _ 80 4 = _).
  rewrite (F [f1; f2; f3; f4; f5] _ _ _ eq_refl : bits_val _ 84 6 = _).
  rewrite (F [f1; f2; f3; f4; f5; f6] _ _ _ eq_refl : bits_val _ 90 30 = _).
  rewrite (F [f1; f2; f3; f4; f5; f6; f7] _ _ _ eq_refl : bits_val _ 120 3 = _).
  rewrite (F [f1; f2; f3; f4; f5; f6; f7; f8] _ _ _ eq_refl : bits_val _ 123 1 = _).
  rewrite (F [f1; f2; f3; f4; f5; f6; f7; f8; f9] _ _ _ eq_refl : bits_val _ 124 1 = _).
  rewrite (F [f1; f2; f3; f4; f5; f6; f7; f8; f9; f10] _ _ _ eq_refl
           : bits_val _ 125 1 = _).
  rewrite (F [f1; f2; f3; f4; f5; f6; f7; f8; f9; f10; f11] _ _ _ eq_refl
           : bits_val _ 126 2 = _).
  reflexivity.
Qed.

Lemma subs_eff_lci_zsub g g0 :
  emitLCI g = true → emitZ g = true →
  lci (subs_eff (enc_subs log2 g) g0) = LCI_of_block (LCI_body log2 g)
  ∧ zsub (subs_eff (enc_subs log2 g) g0)
    = Z_decoded (Z_fields_info g mod 2 ^ 16)
        (trunc (sta_height_above_floor (zsub g) * 4096) mod 2 ^ 24) (Z_code log2 g).
Proof.
  intros HL HZ. unfold enc_subs. rewrite HL, HZ.
  destruct (emitBSSID g), (emitUsage g); split; reflexivity.
Qed.

Lemma grid_round x a p :
  0 < p → (x == inject_Z a / inject_Z p)%Q → round (x * inject_Z p) = a.
Proof.
  intros Hp H. rewrite (round_comp _ _ (scaled_grid x a p Hp H)). apply round_inject_Z.
Qed.

Lemma grid_trunc x a p :
  0 < p → (x == inject_Z a / inject_Z p)%Q → trunc (x * inject_Z p) = a.
Proof.
  intros Hp H. rewrite (trunc_comp _ _ (scaled_grid x a p Hp H)). apply trunc_inject_Z.
Qed.

(** C5 (amended). With the LCI and Z include-flags set, settings the element
    can carry, latitude and longitude multiples of [2^-25] in the range of
    the 34-bit field, altitude, floor and height above floor non-negative
    multiples of [2^-8], [2^-4] and [2^-12] in the range of their fields, and
    every uncertainty a power of two [2^(m - c)] with [c] from 1 to the
    field's maximum, decoding the encoded element gives back latitude,
    longitude, altitude, floor, height above floor and their uncertainties. *)
Theorem decode_encode_representable g g0 :
  wf_globals g → representable g →
  truthy (wantLCIflag (flags g)) = true → truthy (wantZflag (flags g)) = true →
  ∃ str g1 d1 g2 d2,
    encodeLCIstring log2 g = Ok (str, g1, d1)
    ∧ decodeLCIstring str g0 = Ok (g2, d2)
    ∧ (latitude (lci g2) == latitude (lci g))%Q
    ∧ (longitude (lci g2) == longitude (lci g))%Q
    ∧ (altitude (lci g2) == altitude (lci g))%Q
    ∧ (sta_floor (zsub g2) == sta_floor (zsub g))%Q
    ∧ (sta_height_above_floor (zsub g2) == sta_height_above_floor (zsub g))%Q
    ∧ (latitude_uncertainty (lci g2) == latitude_uncertainty (lci g))%Q
    ∧ (longitude_uncertainty (lci g2) == longitude_uncertainty (lci g))%Q
    ∧ (altitude_uncertainty (lci g2) == altitude_uncertainty (lci g))%Q
    ∧ (sta_height_above_floor_uncertainty (zsub g2)
       == sta_height_above_floor_uncertainty (zsub g))%Q.
Proof.
  intros Hwf [(a & Ha & Har) (b & Hb & Hbr) (al & Hal & Halr) (f & Hf & Hfr)
              (h & Hh & Hhr) (c1 & Hc1 & Hc1r) (c2 & Hc2 & Hc2r) (c3 & Hc3 & Hc3r)
              (c4 & Hc4 & Hc4r)] HL HZ.
  unfold MAX_LCI_UNCERTAINTY, MAX_Z_UNCERTAINTY in *.
  rewrite encodeLCIstring_layout.
  eexists _, _, _, _, _. split; [reflexivity|].
  rewrite decode_encoded;
    [|exact Hwf|unfold emit_any, emitLCI; rewrite HL; reflexivity].
  split; [reflexivity|].
  destruct (subs_eff_lci_zsub g g0 HL HZ) as [-> ->].
  unfold LCI_body, LCI_fields. rewrite LCI_of_block_fields.
  rewrite !(uncertainty_code_exp2 log2 Hlog2 _ _ _ _ _ Hc1),
          !(uncertainty_code_exp2 log2 Hlog2 _ _ _ _ _ Hc2),
          !(uncertainty_code_exp2 log2 Hlog2 _ _ _ _ _ Hc3)
    by (unfold MAX_LCI_UNCERTAINTY; lia).
  cbn [fst]. change (Z.shiftl 1 25) with (2 ^ 25). change (Z.shiftl 1 8) with (2 ^ 8).
  rewrite (grid_round _ a (2 ^ 25) ltac:(lia) Ha), (grid_round _ b (2 ^ 25) ltac:(lia) Hb),
          (grid_round _ al (2 ^ 8) ltac:(lia) Hal).
  unfold Z_code, Z_fields_info.
  rewrite (uncertainty_code_exp2 log2 Hlog2 _ _ _ _ _ Hc4)
    by (unfold MAX_LCI_UNCERTAINTY; lia).
  cbn [fst].
  change 4096%Q with (inject_Z (2 ^ 12)). change 16%Q with (inject_Z (2 ^ 4)).
  rewrite (grid_trunc _ f (2 ^ 4) ltac:(lia) Hf), (grid_trunc _ h (2 ^ 12) ltac:(lia) Hh).
  unfold LCI_interpret, Z_decoded, clamp_code, MAX_LCI_UNCERTAINTY, MAX_Z_UNCERTAINTY,
    decodebinarydot.
  cbn [latitude longitude altitude latitude_uncertainty longitude_uncertainty
       altitude_uncertainty sta_floor sta_height_above_floor
       sta_height_above_floor_uncertainty].
  rewrite !(propagate_sign_mod _ 34) by lia.
  rewrite !(Z.mod_small c1), !(Z.mod_small c2), !(Z.mod_small c3), (Z.mod_small al),
          (Z.mod_small h) by lia.
  assert (Hinfo : Z.lor (Z.land (expected_to_move (zsub g)) 3) (Z.shiftl f 2)
                  = f * 2 ^ 2 + Z.land (expected_to_move (zsub g)) 3).
  { rewrite Z.lor_comm. apply lor_shiftl; [lia|].
    change 3 with (Z.ones 2). rewrite Z.land_ones by lia. apply Z.mod_pos_bound. lia. }
  assert (Hm : 0 ≤ Z.land (expected_to_move (zsub g)) 3 < 4).
  { change 3 with (Z.ones 2). rewrite Z.land_ones by lia. apply Z.mod_pos_bound. lia. }
  rewrite Hinfo. rewrite (Z.mod_small (f * 2 ^ 2 + _)) by lia.
  rewrite Z.shiftr_div_pow2 by lia.
  replace ((f * 2 ^ 2 + Z.land (expected_to_move (zsub g)) 3) / 2 ^ 2) with f
    by (apply (Z.div_unique _ _ f (Z.land (expected_to_move (zsub g)) 3)); lia).
  repeat match goal with
  | |- context [if ?c <? ?d then _ else _] => destruct (Z.ltb_spec c d); [lia|]
  end.
  repeat match goal with
  | |- context [if ?c =? 0 then _ else _] => destruct (Z.eqb_spec c 0); [lia|]
  end.
  destruct (Z.ltb_spec 0 c4); [|lia].
  repeat split; symmetry; assumption.
Qed.

End Representable.

(** ** The subelements framed in an element string *)

Lemma subelement_ids_frames (l : list (Z * list ascii)) :
  Forall (λ p, framed p.1 p.2) l →
  ∀ fuel pre post m slen,
    length pre = (m * 2)%nat → (length l ≤ fuel)%nat →
    (slen * 2 = m * 2 + length (concat (map snd l)))%nat →
    subelement_ids_from fuel (pre ++ concat (map snd l) ++ post) slen m = Ok (map fst l).
Proof.
  induction 1 as [|[id s] l Hs _ IH]; intros fuel pre post m slen Hpre Hfuel Hslen.
  - cbn [map concat length] in *.
    destruct fuel; cbn [subelement_ids_from];
      (destruct (Nat.leb_spec (m + 2) slen); [lia|reflexivity]).
  - cbn [fst snd] in Hs. destruct Hs as (len & body & Hid & Hlen & -> & Hbody).
    cbn [map concat length fst snd] in *.
    rewrite !length_app, hexstr_length in Hslen. cbn [length] in Hslen.
    destruct fuel as [|fuel]; [lia|]. cbn [subelement_ids_from].
    destruct (Nat.leb_spec (m + 2) slen); [|lia].
    rewrite <- !app_assoc.
    rewrite getoctet_hexstr0 by assumption.
    rewrite getoctet_hexstr1 by assumption. cbn [bind].
    rewrite (app_assoc (hexstr [id; len])), (app_assoc pre).
    rewrite IH; [reflexivity| | |].
    + rewrite !length_app, hexstr_length, Hpre, Hbody. cbn [length]. lia.
    + lia.
    + lia.
Qed.

Lemma zeros_hexstr k :
  (4 ≤ k)%nat → replicate k "0"%char = hexstr [0; 0] ++ replicate (k - 4) "0"%char.
Proof.
  intros Hk. replace k with (4 + (k - 4))%nat at 1 by lia.
  rewrite replicate_add. reflexivity.
Qed.

Lemma subelement_ids_zeros fuel :
  ∀ pre k m slen,
    length pre = (m * 2)%nat → (slen * 2 = m * 2 + k)%nat → (slen ≤ m + fuel)%nat →
    ∃ ids, subelement_ids_from fuel (pre ++ replicate k "0"%char ++ [NUL]) slen m = Ok ids
           ∧ Forall (λ v, v = 0) ids.
Proof.
  induction fuel as [|fuel IH]; intros pre k m slen Hpre Hslen Hfuel.
  - cbn [subelement_ids_from]. destruct (Nat.leb_spec (m + 2) slen); [lia|].
    exists []. split; [reflexivity|constructor].
  - cbn [subelement_ids_from]. destruct (Nat.leb_spec (m + 2) slen).
    + rewrite zeros_hexstr by lia. rewrite <- !app_assoc.
      rewrite getoctet_hexstr0 by (try assumption; unfold octet; lia).
      rewrite getoctet_hexstr1 by (try assumption; unfold octet; lia).
      cbn [bind]. change (Z.to_nat 0) with 0%nat.
      rewrite (app_assoc pre).
      destruct (IH (pre ++ hexstr [0; 0]) (k - 4)%nat (m + 2 + 0)%nat slen) as (ids & -> & Hids).
      * rewrite length_app, hexstr_length, Hpre. cbn [length]. lia.
      * lia.
      * lia.
      * exists (0 :: ids). split; [reflexivity|]. constructor; [reflexivity|exact Hids].
    + exists []. split; [reflexivity|constructor].
Qed.

Section Frames.

Variable log2 : Q → Q.

Lemma wire_frames g : wire log2 g = header ++ concat (map snd (enc_frames log2 g)).
Proof.
  unfold wire, enc_frames, segLCI, segZ, segBSSID, segUsage.
  destruct (emitLCI g), (emitZ g), (emitBSSID g), (emitUsage g);
    cbn [app map concat snd]; rewrite ?app_nil_r, <- ?app_assoc; reflexivity.
Qed.

Lemma framed_LCI g : framed LCI_CODE (LCI_seg log2 g).
Proof.
  exists 16, (LCI_body log2 g). unfold octet, LCI_CODE.
  split_and!; try lia; [reflexivity|]. now rewrite LCI_body_length.
Qed.

Lemma framed_Z g : framed Z_CODE (hexstr (Z_octets log2 g)).
Proof.
  exists 6, (hexstr (be_octets 2 (Z_fields_info g)
                     ++ be_octets 3 (trunc (sta_height_above_floor (zsub g) * 4096))
                     ++ be_octets 1 (Z_code log2 g))).
  unfold octet, Z_CODE. split_and!; try lia; [reflexivity|].
  rewrite hexstr_length, !length_app, !be_octets_length. reflexivity.
Qed.

Lemma framed_BSSID g : wf_globals g → framed COLOCATED_BSSID (BSSID_seg g).
Proof.
  intros (Hb & HN & _).
  exists (Z.of_nat (bssid_index g) * 6 + 1),
         (hexpair (Z.of_nat (bssid_index g)) ++ all_placed (BSSIDS g)).
  unfold octet, COLOCATED_BSSID. split_and!; try lia; [reflexivity|].
  rewrite length_app, hexpair_length. destruct (all_placed_wf _ Hb) as [-> _].
  unfold bssid_index. lia.
Qed.

Lemma framed_Usage u : framed USAGE_CODE (hexstr (Usage_octets u)).
Proof.
  unfold Usage_octets.
  destruct (truthy (retention_expires_present (usage_reconciled u))).
  - eexists 3, (hexstr (_ :: be_octets 2 _)). unfold octet, USAGE_CODE.
    split_and!; try lia; [reflexivity|]. rewrite hexstr_length. cbn [length].
    rewrite be_octets_length. reflexivity.
  - eexists 1, (hexstr [_]). unfold octet, USAGE_CODE.
    split_and!; try lia; reflexivity.
Qed.

Lemma enc_frames_framed g : wf_globals g → Forall (λ p, framed p.1 p.2) (enc_frames log2 g).
Proof.
  intros Hwf. unfold enc_frames.
  apply Forall_app_2; [|apply Forall_app_2; [|apply Forall_app_2]].
  - destruct (emitLCI g); constructor; [apply framed_LCI|constructor].
  - destruct (emitZ g); constructor; [apply framed_Z|constructor].
  - destruct (emitBSSID g); constructor; [now apply framed_BSSID|constructor].
  - destruct (emitUsage g); constructor; [apply framed_Usage|constructor].
Qed.

Lemma enc_frames_ids g : map fst (enc_frames log2 g) = enc_ids g.
Proof.
  unfold enc_frames, enc_ids.
  destruct (emitLCI g), (emitZ g), (emitBSSID g), (emitUsage g); reflexivity.
Qed.

Lemma subelement_ids_wire g :
  wf_globals g → emit_any g = true →
  subelement_ids (wire log2 g ++ tailc (R0 g) (length (wire log2 g) - 6)) = Ok (enc_ids g).
Proof.
  intros Hwf Hany. pose proof (enc_frames_framed g Hwf) as Hfr.
  pose proof (wire_not_NUL log2 g Hwf) as Hnn.
  assert (Hlen : ∃ q, length (concat (map snd (enc_frames log2 g))) = (q * 2)%nat
                      ∧ (length (enc_frames log2 g) ≤ q)%nat ∧ (0 < q)%nat).
  { clear Hnn. unfold emit_any in Hany. revert Hfr. generalize (enc_frames_ids g).
    unfold enc_ids. generalize (enc_frames log2 g). intros l Hids Hfr.
    assert (Hl : l ≠ []).
    { intros ->. destruct (emitLCI g), (emitZ g), (emitBSSID g), (emitUsage g);
        discriminate. }
    clear Hids Hany. induction Hfr as [|[id s] l Hs Hfr IH]; [contradiction|].
    cbn [fst snd] in Hs. destruct Hs as (len & body & _ & _ & -> & Hbody).
    cbn [map concat snd length]. rewrite !length_app, hexstr_length, Hbody. cbn [length].
    destruct l as [|p l].
    - exists (2 + Z.to_nat len)%nat. cbn [map concat length]. lia.
    - destruct IH as (q & Hq & Hle & _); [discriminate|].
      exists (2 + Z.to_nat len + q)%nat. rewrite Hq. cbn [length] in *. lia. }
  destruct Hlen as (q & Hq & Hle & Hpos).
  assert (Hw : length (wire log2 g) = ((3 + q) * 2)%nat).
  { rewrite wire_frames, length_app, header_length, Hq. lia. }
  unfold tailc. destruct (Nat.eqb_spec (length (wire log2 g) - 6) 0) as [E|_]; [lia|].
  unfold subelement_ids. rewrite strlen_app by exact Hnn. cbn [bind].
  rewrite Hw, Nat.div_mul by lia.
  rewrite wire_frames, <- app_assoc.
  rewrite subelement_ids_frames; [now rewrite enc_frames_ids|exact Hfr|reflexivity|lia|].
  rewrite Hq. lia.
Qed.

Lemma subelement_ids_header_only g :
  emit_any g = false →
  ∃ ids, subelement_ids (wire log2 g ++ tailc (R0 g) (length (wire log2 g) - 6)) = Ok ids
         ∧ Forall (λ v, v = 0) ids.
Proof.
  intros Hany. unfold emit_any in Hany.
  apply orb_false_iff in Hany as [Hany HU]. apply orb_false_iff in Hany as [Hany HB].
  apply orb_false_iff in Hany as [HL HZ].
  unfold wire, segLCI, segZ, segBSSID, segUsage. rewrite HL, HZ, HB, HU.
  cbn [app]. rewrite app_nil_r, header_length. cbn [Nat.sub]. unfold tailc, R0.
  cbn [Nat.eqb]. unfold subelement_ids.
  rewrite app_assoc.
  rewrite strlen_app.
  2:{ apply Forall_app_2.
      - apply hexchar_Forall_not_NUL. unfold header. apply hexstr_hexchar.
        repeat constructor; unfold octet, MEASURE_TOKEN, MEASURE_REQUEST_MODE, LCI_TYPE; lia.
      - apply Forall_replicate. discriminate. }
  cbn [bind]. rewrite length_app, header_length, length_replicate.
  replace (6 + (68 + 12 * bssid_index g))%nat with ((37 + 6 * bssid_index g) * 2)%nat by lia.
  rewrite Nat.div_mul by lia. rewrite <- app_assoc.
  apply subelement_ids_zeros; [reflexivity|lia|lia].
Qed.

End Frames.

(** ** The statements of the specification *)

(** C1. With one colocated BSSID and everything else as initialised, the
    subelements of the string [encodeLCIstring] returns are LCI (0), Z (4),
    Colocated BSSID (7) and then Usage (6): the identifiers are not in
    ascending order. *)
Theorem encodeLCIstring_usage_after_bssid :
  ∃ str g d,
    encodeLCIstring log2_model one_bssid = Ok (str, g, d)
    ∧ c_str str
      = list_ascii_of_string
          "0100080010000000000000000000000100000000410406000000000000070701001122334455060101"
    ∧ subelement_ids str = Ok [LCI_CODE; Z_CODE; COLOCATED_BSSID; USAGE_CODE].
Proof.
  eexists _, _, _. split; [vm_compute; reflexivity|]. split; vm_compute; reflexivity.
Qed.

(** C2. A Z subelement whose uncertainty octet is 25 is reported, but the
    uncertainty is computed from 25, not from the maximum 24. *)
Theorem decode_Z_uncertainty_not_clamped :
  ∃ g d,
    decodeLCIstring (block_of "0100080406000000000019") default_globals = Ok (g, d)
    ∧ d = [ErrZUncertaintyCode 25]
    ∧ (sta_height_above_floor_uncertainty (zsub g) == decodebinarydot 25 11)%Q
    ∧ ¬ (sta_height_above_floor_uncertainty (zsub g)
         == decodebinarydot MAX_Z_UNCERTAINTY 11)%Q.
Proof.
  eexists _, _. split; [vm_compute; reflexivity|]. split; [reflexivity|].
  split; [vm_compute; reflexivity|]. vm_compute. discriminate.
Qed.

(** C3. A station one floor below the reference floor: the Floor field is
    written as the two's-complement pattern [ffc0], and [decodeLCIstring]
    reads it back, without sign extension, as floor 1023. *)
Theorem decode_negative_floor :
  ∃ str g1 d1 g2 d2,
    encodeLCIstring log2_model floor_minus_one = Ok (str, g1, d1)
    ∧ c_str str
      = list_ascii_of_string
          "0100080010000000000000000000000100000000410406ffc000000000060101"
    ∧ decodeLCIstring str default_globals = Ok (g2, d2)
    ∧ (sta_floor (zsub floor_minus_one) == -1)%Q
    ∧ (sta_floor (zsub g2) == 1023)%Q.
Proof.
  eexists _, _, _, _, _. split; [vm_compute; reflexivity|].
  split; [vm_compute; reflexivity|]. split; [vm_compute; reflexivity|].
  split; vm_compute; reflexivity.
Qed.

(** C4, as stated, fails: a latitude uncertainty of 1 is written as code 8
    and code 8 is read back as 1, which is [2^(8 - 8)] and not [2^(25 - 8)]. *)
Lemma latitude_uncertainty_m25_counterexample :
  ∃ body d v d',
    encodeLCIfield log2_model (replicate 36 "0"%char ++ [NUL]) 0 (unit_uncertainties 0)
    = Ok (hexstr [LCI_CODE; 16] ++ body ++ [NUL], 18%nat, d)
    ∧ getbits body 0 6 = Ok 8
    ∧ decodeLCIfield (body ++ [NUL]) 0 = Ok (128%nat, v, d')
    ∧ (latitude_uncertainty v == latitude_uncertainty (lci (unit_uncertainties 0)))%Q
    ∧ ¬ (latitude_uncertainty (lci (unit_uncertainties 0)) == exp2 (25 - 8))%Q
    ∧ ¬ (latitude_uncertainty v == exp2 (25 - 8))%Q.
Proof.
  exists (list_ascii_of_string "08000000000800000000510100000041").
  eexists _, _, _. split; [vm_compute; reflexivity|].
  split; [vm_compute; reflexivity|]. split; [vm_compute; reflexivity|].
  split; [vm_compute; reflexivity|]. split; vm_compute; discriminate.
Qed.

(** C5, as stated, fails: with every uncertainty a power of two, a latitude
    of [2^-26] is not reproduced (it is read back as [2^-25]). *)
Lemma decode_encode_off_grid_counterexample :
  ∃ str g1 d1 g2 d2,
    encodeLCIstring log2_model (unit_uncertainties (1 # 67108864)) = Ok (str, g1, d1)
    ∧ decodeLCIstring str default_globals = Ok (g2, d2)
    ∧ (latitude_uncertainty (lci g2) == exp2 (8 - 8))%Q
    ∧ (latitude (lci g2) == 1 # 33554432)%Q
    ∧ ¬ (latitude (lci g2) == latitude (lci (unit_uncertainties (1 # 67108864))))%Q.
Proof.
  eexists _, _, _, _, _. split; [vm_compute; reflexivity|].
  split; [vm_compute; reflexivity|]. split; [vm_compute; reflexivity|].
  split; [vm_compute; reflexivity|]. vm_compute. discriminate.
Qed.

(** C6, as stated, fails: with only the Usage include-flag set and a
    latitude given, none of LCI, Z and Colocated BSSID is emitted and the
    Usage subelement is. *)
Lemma usage_without_other_subelements_counterexample :
  ∃ str g d,
    encodeLCIstring log2_model usage_only = Ok (str, g, d)
    ∧ c_str str = list_ascii_of_string "010008060101"
    ∧ subelement_ids str = Ok [USAGE_CODE].
Proof.
  eexists _, _, _. split; [vm_compute; reflexivity|]. split; vm_compute; reflexivity.
Qed.

Lemma wf_unit_uncertainties lat : wf_globals (unit_uncertainties lat).
Proof.
  split; [constructor|]. split; [cbn; lia|].
  unfold wf_usage, flag01. cbn. auto.
Qed.

Lemma representable_unit_uncertainties_half : representable (unit_uncertainties (1 # 2)).
Proof.
  constructor; cbn [unit_uncertainties lci zsub latitude longitude altitude sta_floor
                    sta_height_above_floor latitude_uncertainty longitude_uncertainty
                    altitude_uncertainty sta_height_above_floor_uncertainty].
  - exists (2 ^ 24). split; [reflexivity|lia].
  - exists 0. split; [reflexivity|lia].
  - exists 0. split; [reflexivity|lia].
  - exists 0. split; [reflexivity|lia].
  - exists 0. split; [reflexivity|lia].
  - exists 8. split; [reflexivity|unfold MAX_LCI_UNCERTAINTY; lia].
  - exists 8. split; [reflexivity|unfold MAX_LCI_UNCERTAINTY; lia].
  - exists 21. split; [reflexivity|unfold MAX_LCI_UNCERTAINTY; lia].
  - exists 11. split; [reflexivity|unfold MAX_Z_UNCERTAINTY; lia].
Qed.

Section Exponent.

Variable log2 : Q → Q.

Hypothesis Hlog2 : log2_exact log2.

Lemma LCI_body_bits g pre w v post :
  LCI_fields log2 g = pre ++ (w, v) :: post →
  bits_val (LCI_body log2 g) (0 + width pre) w = v mod 2 ^ Z.of_nat w.
Proof.
  intros E. unfold LCI_body. rewrite E. apply bits_val_wr_fields.
  right. rewrite <- E, length_replicate. cbn. lia.
Qed.

Lemma uncertainty_code_positive s u m max :
  (0 < u)%Q →
  uncertainty_code log2 s u m max = encodebinarydot log2 u m
  ∧ 1 ≤ fst (encodebinarydot log2 u m) ≤ MAX_LCI_UNCERTAINTY.
Proof.
  intros Hu.
  assert (E : Qle_bool u 0 = false).
  { destruct (Qle_bool u 0) eqn:E; [|reflexivity]. apply Qle_bool_imp_le in E.
    exfalso. exact (Qlt_not_le _ _ Hu E). }
  unfold uncertainty_code, Qpositive, encodebinarydot, MAX_LCI_UNCERTAINTY.
  rewrite E. cbn [negb]. split; [reflexivity|].
  destruct (Z.leb_spec (m - Qceiling (log2 u - eps)) 0); [cbn; lia|].
  destruct (Z.ltb_spec 34 (m - Qceiling (log2 u - eps))); cbn; lia.
Qed.

(** One uncertainty of the LCI field: the code written in its six bits is
    from 1 to 34, and it is the [k] of an uncertainty [2^(m - k)]. *)
Lemma uncertainty_exponent g pre post u m :
  LCI_fields log2 g
  = pre ++ (6%nat, fst (uncertainty_code log2 (smallestflag (flags g)) u m
                          MAX_LCI_UNCERTAINTY)) :: post →
  (0 < u)%Q →
  ∃ c, bits_val (LCI_body log2 g) (0 + width pre) 6 = c
       ∧ 1 ≤ c ≤ MAX_LCI_UNCERTAINTY
       ∧ ∀ k, 1 ≤ k ≤ MAX_LCI_UNCERTAINTY → (u == exp2 (m - k))%Q → c = k.
Proof.
  intros E Hu. destruct (uncertainty_code_positive (smallestflag (flags g)) u m
                           MAX_LCI_UNCERTAINTY Hu) as [Ec Hr].
  exists (fst (encodebinarydot log2 u m)).
  split.
  { rewrite (LCI_body_bits g pre _ _ post E). rewrite Ec.
    apply Z.mod_small. unfold MAX_LCI_UNCERTAINTY in Hr. lia. }
  split; [exact Hr|].
  intros k Hk Hpow. now rewrite (encodebinarydot_exp2 log2 Hlog2 u m k Hpow Hk).
Qed.

(** C4 (amended). For every positive latitude, longitude or altitude
    uncertainty, each on its own: the code [c] that [encodeLCIfield] writes
    in the field of that uncertainty is from 1 to 34, and [decodeLCIfield]
    reads it back as the uncertainty [2^(m - c)], with [m = 8] for latitude
    and longitude and [m = 21] for altitude; an uncertainty that is itself
    [2^(m - k)], with [k] from 1 to 34, is written as the code [k]. *)
Theorem lat_long_uncertainty_exponent g :
  ∃ body d v d',
    encodeLCIfield log2 (replicate 36 "0"%char ++ [NUL]) 0 g
    = Ok (hexstr [LCI_CODE; 16] ++ body ++ [NUL], 18%nat, d)
    ∧ decodeLCIfield (body ++ [NUL]) 0 = Ok (128%nat, v, d')
    ∧ ((0 < latitude_uncertainty (lci g))%Q →
       ∃ c, getbits body 0 6 = Ok c ∧ 1 ≤ c ≤ MAX_LCI_UNCERTAINTY
            ∧ (latitude_uncertainty v == exp2 (8 - c))%Q
            ∧ ∀ k, 1 ≤ k ≤ MAX_LCI_UNCERTAINTY →
                   (latitude_uncertainty (lci g) == exp2 (8 - k))%Q → c = k)
    ∧ ((0 < longitude_uncertainty (lci g))%Q →
       ∃ c, getbits body 40 6 = Ok c ∧ 1 ≤ c ≤ MAX_LCI_UNCERTAINTY
            ∧ (longitude_uncertainty v == exp2 (8 - c))%Q
            ∧ ∀ k, 1 ≤ k ≤ MAX_LCI_UNCERTAINTY →
                   (longitude_uncertainty (lci g) == exp2 (8 - k))%Q → c = k)
    ∧ ((0 < altitude_uncertainty (lci g))%Q →
       ∃ c, getbits body 84 6 = Ok c ∧ 1 ≤ c ≤ MAX_LCI_UNCERTAINTY
            ∧ (altitude_uncertainty v == exp2 (21 - c))%Q
            ∧ ∀ k, 1 ≤ k ≤ MAX_LCI_UNCERTAINTY →
                   (altitude_uncertainty (lci g) == exp2 (21 - k))%Q → c = k).
Proof.
  exists (LCI_body log2 g). eexists _, _, _.
  pose proof (LCI_body_length log2 g) as Hlen.
  split.
  { change (replicate 36 "0"%char ++ [NUL])
      with ([] ++ replicate 36 "0"%char ++ [NUL]).
    rewrite encodeLCIfield_app by (rewrite ?length_replicate; cbn [length]; lia).
    change (drop 4 (replicate 36 "0"%char)) with (replicate 32 "0"%char).
    change (drop 1 [NUL]) with (@nil ascii).
    unfold LCI_body. rewrite app_nil_l, <- app_assoc. reflexivity. }
  split; [apply decodeLCIfield_Ok; rewrite length_app; lia|].
  destruct (LCI_of_block_app (LCI_body log2 g) [NUL] Hlen) as [-> _].
  unfold LCI_of_block, LCI_interpret.
  cbn [latitude_uncertainty longitude_uncertainty altitude_uncertainty].
  split; [|split]; intros Hu.
  - destruct (uncertainty_exponent g [] _ (latitude_uncertainty (lci g)) 8 eq_refl Hu)
      as (c & B & Hc & Hk).
    exists c. cbn [width Nat.add] in B.
    split; [rewrite (getbits_Ok' _ _ _ 16) by lia; now rewrite B|].
    split; [exact Hc|]. split; [|exact Hk].
    rewrite B. unfold clamp_code, MAX_LCI_UNCERTAINTY, decodebinarydot in *.
    destruct (Z.ltb_spec 34 c); [lia|]. destruct (Z.eqb_spec c 0); [lia|]. reflexivity.
  - destruct (uncertainty_exponent g [_; _] _ (longitude_uncertainty (lci g)) 8 eq_refl Hu)
      as (c & B & Hc & Hk).
    exists c. cbn [width Nat.add] in B.
    split; [rewrite (getbits_Ok' _ _ _ 16) by lia; now rewrite B|].
    split; [exact Hc|]. split; [|exact Hk].
    rewrite B. unfold clamp_code, MAX_LCI_UNCERTAINTY, decodebinarydot in *.
    destruct (Z.ltb_spec 34 c); [lia|]. destruct (Z.eqb_spec c 0); [lia|]. reflexivity.
  - destruct (uncertainty_exponent g [_; _; _; _; _] _ (altitude_uncertainty (lci g)) 21
                eq_refl Hu) as (c & B & Hc & Hk).
    exists c. cbn [width Nat.add] in B.
    split; [rewrite (getbits_Ok' _ _ _ 16) by lia; now rewrite B|].
    split; [exact Hc|]. split; [|exact Hk].
    rewrite B. unfold clamp_code, MAX_LCI_UNCERTAINTY, decodebinarydot in *.
    destruct (Z.ltb_spec 34 c); [lia|]. destruct (Z.eqb_spec c 0); [lia|]. reflexivity.
Qed.

End Exponent.

Lemma lat_long_uncertainty_exponent_witness :
  ∃ body d v d',
    encodeLCIfield log2_model (replicate 36 "0"%char ++ [NUL]) 0 latitude_uncertainty_one
    = Ok (hexstr [LCI_CODE; 16] ++ body ++ [NUL], 18%nat, d)
    ∧ decodeLCIfield (body ++ [NUL]) 0 = Ok (128%nat, v, d')
    ∧ ∃ c, getbits body 0 6 = Ok c ∧ 1 ≤ c ≤ MAX_LCI_UNCERTAINTY
           ∧ (latitude_uncertainty v == exp2 (8 - c))%Q
           ∧ ∀ k, 1 ≤ k ≤ MAX_LCI_UNCERTAINTY →
                  (latitude_uncertainty (lci latitude_uncertainty_one) == exp2 (8 - k))%Q →
                  c = k.
Proof.
  destruct (lat_long_uncertainty_exponent log2_model log2_model_exact
              latitude_uncertainty_one) as (body & d & v & d' & He & Hd & Hlat & _).
  exists body, d, v, d'. split; [exact He|]. split; [exact Hd|].
  apply Hlat. reflexivity.
Defined.

Lemma decode_encode_representable_witness :
  ∃ str g1 d1 g2 d2,
    encodeLCIstring log2_model (unit_uncertainties (1 # 2)) = Ok (str, g1, d1)
    ∧ decodeLCIstring str default_globals = Ok (g2, d2)
    ∧ (latitude (lci g2) == 1 # 2)%Q
    ∧ (longitude (lci g2) == 0)%Q
    ∧ (altitude (lci g2) == 0)%Q
    ∧ (sta_floor (zsub g2) == 0)%Q
    ∧ (sta_height_above_floor (zsub g2) == 0)%Q
    ∧ (latitude_uncertainty (lci g2) == 1)%Q
    ∧ (longitude_uncertainty (lci g2) == 1)%Q
    ∧ (altitude_uncertainty (lci g2) == 1)%Q
    ∧ (sta_height_above_floor_uncertainty (zsub g2) == 1)%Q.
Proof.
  apply (decode_encode_representable log2_model log2_model_exact
           (unit_uncertainties (1 # 2)) default_globals).
  - apply wf_unit_uncertainties.
  - apply representable_unit_uncertainties_half.
  - reflexivity.
  - reflexivity.
Defined.

Section Emitted.

Variable log2 : Q → Q.

(** C6 (amended). The Usage subelement is in the string [encodeLCIstring]
    returns if and only if its include-flag is set and a latitude, longitude
    or altitude, a floor, height above floor or height uncertainty, or a
    colocated BSSID has been given, whether or not the LCI, Z and Colocated
    BSSID subelements are themselves emitted. *)
Theorem usage_emitted_iff g :
  wf_globals g →
  ∃ str g' d ids,
    encodeLCIstring log2 g = Ok (str, g', d)
    ∧ subelement_ids str = Ok ids
    ∧ (In USAGE_CODE ids
       ↔ truthy (wantUsageflag (flags g)) = true
         ∧ (needLCI g || needZ g || needBSSID g) = true).
Proof.
  intros Hwf. rewrite encodeLCIstring_layout.
  assert (HU : truthy (wantUsageflag (flags g)) = true
               ∧ (needLCI g || needZ g || needBSSID g) = true
               ↔ emitUsage g = true).
  { unfold emitUsage. symmetry. apply andb_true_iff. }
  destruct (emit_any g) eqn:Hany.
  - eexists _, _, _, _. split; [reflexivity|].
    split; [now apply subelement_ids_wire|]. rewrite HU.
    unfold enc_ids, LCI_CODE, Z_CODE, COLOCATED_BSSID, USAGE_CODE.
    destruct (emitLCI g), (emitZ g), (emitBSSID g), (emitUsage g); cbn [app In];
      intuition (try discriminate; try lia).
  - destruct (subelement_ids_header_only log2 g Hany) as (ids & Hids & Hz).
    eexists _, _, _, _. split; [reflexivity|]. split; [exact Hids|]. rewrite HU.
    unfold emit_any in Hany. apply orb_false_iff in Hany as [_ ->].
    split; [|discriminate]. intros Hin. rewrite Forall_forall in Hz.
    apply list_elem_of_In, Hz in Hin. discriminate Hin.
Qed.

End Emitted.

Lemma usage_emitted_iff_witness :
  ∃ str g' d ids,
    encodeLCIstring log2_model (unit_uncertainties 0) = Ok (str, g', d)
    ∧ subelement_ids str = Ok ids
    ∧ (In USAGE_CODE ids
       ↔ truthy (wantUsageflag (flags (unit_uncertainties 0))) = true
         ∧ (needLCI (unit_uncertainties 0) || needZ (unit_uncertainties 0)
            || needBSSID (unit_uncertainties 0)) = true).
Proof.
  apply (usage_emitted_iff log2_model (unit_uncertainties 0)).
  apply wf_unit_uncertainties.
Defined.

(** C7. Wherever the loop of [decodeLCIstring] stands in a string, if the
    ID and length octets of the subelement there lie inside the string and
    the declared length runs past its end, the loop stops at once with the
    bad-length diagnostic; the globals are left as they were and no character
    outside the block has been read. *)
Theorem decode_loop_overrun fuel s rest nbyt g :
  Forall (λ c, c ≠ NUL) s →
  let slen := (length s / 2)%nat in
  let ID := octet_at s nbyt in
  let nlen := octet_at s (nbyt + 1) in
  (nbyt + 2 ≤ slen)%nat → (slen < nbyt + 2 + Z.to_nat nlen)%nat →
  decode_loop (S fuel) (s ++ NUL :: rest) slen nbyt g
  = Ok (g, [ErrBadLengthCode ID nlen (nbyt + 2) slen]).
Proof.
  intros Hs slen ID nlen Hhdr Hover.
  assert (Hlen : (slen * 2 ≤ length s)%nat).
  { unfold slen. pose proof (Nat.div_mod_eq (length s) 2). lia. }
  cbn [decode_loop]. destruct (Nat.ltb_spec nbyt slen); [|lia].
  rewrite load_nth by (rewrite length_app; lia). cbn [bind].
  rewrite app_nth1 by lia.
  destruct (Ascii.eqb_spec (nth (nbyt * 2) s NUL) NUL) as [E|_].
  { exfalso. revert E. apply nth_not_NUL; [exact Hs|lia]. }
  cbn [negb]. unfold decode_subelement.
  rewrite !getoctet_Ok by (rewrite length_app; lia). cbn [bind].
  rewrite !octet_at_app_l by lia. fold ID nlen.
  destruct (Nat.ltb_spec slen (nbyt + 2 + Z.to_nat nlen)); [|lia].
  reflexivity.
Qed.

Lemma decode_loop_overrun_witness :
  decode_loop 1 (list_ascii_of_string "0100080406" ++ NUL :: []) 5 3 default_globals
  = Ok (default_globals, [ErrBadLengthCode 4 6 5 5]).
Proof.
  apply (decode_loop_overrun 0 (list_ascii_of_string "0100080406") [] 3 default_globals).
  - repeat constructor; discriminate.
  - vm_compute. lia.
  - vm_compute. lia.
Defined.

(** C8. [encodeUsageField], given room in the block, returns.  When the
    retention-expires-present flag is set and the expiration is 0, the flag
    is cleared: the length octet is 1, the parameters octet is written with
    the flag bit clear, no expiration follows, and the inconsistency is
    reported.  When the flag is clear and the expiration is not 0, the flag
    is set: the length octet is 3, the parameters octet is written with the
    flag bit set, the two octets of the expiration follow, and the
    inconsistency is reported.  Otherwise the Usage settings are kept and
    nothing is reported. *)
Theorem encodeUsageField_reconciles pre rest m g :
  length pre = (m * 2)%nat → (11 ≤ length rest)%nat →
  (truthy (retention_expires_present (usage g)) = true → expiration (usage g) = 0 →
   encodeUsageField (pre ++ rest) m g
   = Ok ((pre ++ hexstr [USAGE_CODE; 1;
                         Z.lor (Z.lor (retransmission_allowed (usage g)) (Z.shiftl 0 1))
                               (Z.shiftl (STA_location_policy (usage g)) 2)])
           ++ NUL :: drop 7 rest,
         (m + 3)%nat,
         set_usage g (set_retention_expires_present (usage g) 0),
         [WarnRetentionButNoExpiration]))
  ∧ (truthy (retention_expires_present (usage g)) = false → expiration (usage g) ≠ 0 →
     encodeUsageField (pre ++ rest) m g
     = Ok ((pre ++ hexstr ([USAGE_CODE; 3;
                            Z.lor (Z.lor (retransmission_allowed (usage g)) (Z.shiftl 1 1))
                                  (Z.shiftl (STA_location_policy (usage g)) 2)]
                           ++ be_octets 2 (expiration (usage g))))
             ++ NUL :: drop 11 rest,
           (m + 5)%nat,
           set_usage g (set_retention_expires_present (usage g) 1),
           [WarnExpirationButNoRetention]))
  ∧ ((truthy (retention_expires_present (usage g)) = true ↔ expiration (usage g) ≠ 0) →
     ∃ str nbyt g',
       encodeUsageField (pre ++ rest) m g = Ok (str, nbyt, g', []) ∧ usage g' = usage g).
Proof.
  intros Hpre Hrest.
  assert (Hl : (length (Usage_octets (usage g)) ≤ 5)%nat).
  { destruct (Usage_octets_length (usage g)); lia. }
  rewrite encodeUsageField_app by (try exact Hpre; lia).
  unfold Usage_octets, usage_reconciled, usage_diags.
  split; [|split].
  - intros Et Ee. rewrite Et, Ee.
    cbn [Z.eqb set_retention_expires_present retention_expires_present expiration truthy
         retransmission_allowed STA_location_policy negb app length Nat.mul Nat.add].
    reflexivity.
  - intros Et Ee. rewrite Et.
    destruct (Z.eqb_spec (expiration (usage g)) 0) as [E0|_]; [contradiction|].
    cbn [Z.eqb set_retention_expires_present retention_expires_present expiration truthy
         retransmission_allowed STA_location_policy negb app length be_octets
         Nat.mul Nat.add].
    reflexivity.
  - intros Hag. eexists _, _, _.
    destruct (truthy (retention_expires_present (usage g))) eqn:Et;
      destruct (Z.eqb_spec (expiration (usage g)) 0) as [E0|E0]; cbn [negb].
    + exfalso. apply (proj1 Hag eq_refl). exact E0.
    + split; reflexivity.
    + split; reflexivity.
    + exfalso. pose proof (proj2 Hag E0). discriminate.
Qed.

Lemma encodeUsageField_reconciles_witness :
  encodeUsageField ([] ++ replicate 11 "0"%char) 0 retention_without_expiration
  = Ok (([] ++ hexstr [USAGE_CODE; 1;
                       Z.lor (Z.lor (retransmission_allowed
                                       (usage retention_without_expiration))
                                    (Z.shiftl 0 1))
                             (Z.shiftl (STA_location_policy
                                          (usage retention_without_expiration)) 2)])
          ++ NUL :: drop 7 (replicate 11 "0"%char),
        (0 + 3)%nat,
        set_usage retention_without_expiration
          (set_retention_expires_present (usage retention_without_expiration) 0),
        [WarnRetentionButNoExpiration])
  ∧ encodeUsageField ([] ++ replicate 11 "0"%char) 0 expiration_without_retention
    = Ok (([] ++ hexstr ([USAGE_CODE; 3;
                          Z.lor (Z.lor (retransmission_allowed
                                          (usage expiration_without_retention))
                                       (Z.shiftl 1 1))
                                (Z.shiftl (STA_location_policy
                                             (usage expiration_without_retention)) 2)]
                         ++ be_octets 2 (expiration (usage expiration_without_retention))))
            ++ NUL :: drop 11 (replicate 11 "0"%char),
          (0 + 5)%nat,
          set_usage expiration_without_retention
            (set_retention_expires_present (usage expiration_without_retention) 1),
          [WarnExpirationButNoRetention]).
Proof.
  split.
  - apply (encodeUsageField_reconciles [] (replicate 11 "0"%char) 0
             retention_without_expiration); [reflexivity|cbn; lia|reflexivity|reflexivity].
  - apply (encodeUsageField_reconciles [] (replicate 11 "0"%char) 0
             expiration_without_retention);
      [reflexivity|cbn; lia|reflexivity|discriminate].
Defined.

Lemma chunks12_concat (macs : list (list ascii)) :
  Forall (λ a, length a = 12%nat) macs → chunks12 (concat macs) (length macs) = macs.
Proof.
  induction 1 as [|a macs Ha _ IH]; cbn [concat length chunks12]; [reflexivity|].
  rewrite take_app_length' by (now rewrite Ha). rewrite drop_app_length' by (now rewrite Ha).
  now rewrite IH.
Qed.

(** *** [decodeColocatedBSSID] and the array

    As long as the stores stay inside the block, [decodeColocatedBSSID]
    with the array leaves in the slots, from slot 0 on, the addresses the
    list of [decodeColocatedBSSID] holds; it overruns the block when
    there are more addresses than slots. *)
Lemma decodeColocatedBSSID_array_loop_list str n :
  ∀ arr nbyt k p bs d,
    (k ≤ length arr)%nat →
    decodeColocatedBSSID_loop str nbyt n = Ok (p, bs, d) →
    decodeColocatedBSSID_array_loop arr str nbyt k n
    = if decide (k + length bs ≤ length arr)%nat
      then Ok (p, take k arr ++ (Some <$> bs) ++ drop (k + length bs) arr, d)
      else OutOfBounds.
Proof.
  induction n as [|n IH]; intros arr nbyt k p bs d Hk;
    cbn [decodeColocatedBSSID_loop decodeColocatedBSSID_array_loop].
  - intros [= <- <- <-]. cbn [length fmap list_fmap app].
    rewrite Nat.add_0_r. destruct (decide _) as [_|N]; [|lia].
    now rewrite take_drop.
  - destruct (strndup str (nbyt * 2) (6 * 2)) as [bssid| |]; cbn [bind]; try discriminate.
    destruct (decodeColocatedBSSID_loop str (nbyt + 6) n) as [[[p' rest] d']| |] eqn:E;
      cbn [bind]; try discriminate.
    intros [= <- <- <-]. cbn [length]. unfold store_BSSIDS.
    destruct (decide (k < length arr)%nat) as [Hlt|Hge]; cbn [bind].
    + assert (Hk' : (S k ≤ length (<[k:=Some bssid]> arr))%nat)
        by (rewrite length_insert; lia).
      rewrite (IH (<[k:=Some bssid]> arr) (nbyt + 6)%nat (S k) p' rest d' Hk' E).
      rewrite length_insert.
      destruct (decide (S k + length rest ≤ length arr)%nat) as [H1|H1];
        destruct (decide (k + S (length rest) ≤ length arr)%nat) as [H2|H2];
        try lia; [|reflexivity].
      cbn [bind]. do 2 f_equal. f_equal.
      rewrite (take_S_r _ k (Some bssid)) by (apply list_lookup_insert_eq; lia).
      rewrite take_insert_ge by lia.
      rewrite drop_insert_lt by lia.
      rewrite <- app_assoc. cbn [fmap list_fmap app].
      replace (k + S (length rest))%nat with (S k + length rest)%nat by lia. reflexivity.
    + destruct (decide (k + S (length rest) ≤ length arr)%nat); [lia|reflexivity].
Qed.

Lemma decodeColocatedBSSID_array_list arr str nbyt nlen p bs d :
  decodeColocatedBSSID str nbyt nlen = Ok (p, bs, d) →
  decodeColocatedBSSID_array arr str nbyt nlen
  = if decide (length bs ≤ length arr)%nat
    then Ok (p, (Some <$> bs) ++ drop (length bs) arr, d)
    else OutOfBounds.
Proof.
  unfold decodeColocatedBSSID, decodeColocatedBSSID_array.
  destruct (getoctet str nbyt) as [ind| |]; cbn [bind]; try discriminate.
  destruct (decodeColocatedBSSID_loop str (nbyt + 1) (Z.to_nat (Z.quot (nlen - 1) 6)))
    as [[[p' bs'] d']| |] eqn:E; cbn [bind]; try discriminate.
  intros [= <- <- <-].
  rewrite (decodeColocatedBSSID_array_loop_list _ _ arr _ 0 _ _ _ ltac:(lia) E).
  cbn [Nat.add take app]. destruct (decide _); reflexivity.
Qed.

(** C9. Twelve addresses decoded into the array as [initialize_arrays]
    allocates it: the body of the subelement is read as twelve addresses,
    and the store of the twelfth, [BSSIDS[11]], is outside the block of
    [max_bssids + 1], that is eleven, pointers.  In a block of twelve
    pointers the same call stores the twelve addresses in their order. *)
Theorem decodeColocatedBSSID_overruns_array :
  decodeColocatedBSSID twelve_addresses_body 0 73 = Ok (73%nat, twelve_addresses, [])
  ∧ length initialize_arrays = 11%nat
  ∧ decodeColocatedBSSID_array initialize_arrays twelve_addresses_body 0 73 = OutOfBounds
  ∧ decodeColocatedBSSID_array (replicate 12 None) twelve_addresses_body 0 73
    = Ok (73%nat, Some <$> twelve_addresses, []).
Proof.
  split; [vm_compute; reflexivity|]. split; [reflexivity|].
  split; vm_compute; reflexivity.
Qed.

(** C10. With forty-three colocated BSSIDs and everything else as
    initialised, the string [encodeLCIstring] returns ends right after the
    ID octet [07] of the Colocated BSSID subelement: the length [6 * 43 + 1]
    does not fit its octet and its first digit is written as NUL.  The
    indicator 43 is stored in the block, at octet 31, behind that
    terminator: it is not in the string. *)
Theorem encodeLCIstring_indicator_cut :
  ∃ str g' d,
    encodeLCIstring log2_model forty_three_bssids = Ok (str, g', d)
    ∧ c_str str
      = list_ascii_of_string "0100080010000000000000000000000100000000410406000000000000"
        ++ list_ascii_of_string "07"
    ∧ str !! 60%nat = Some NUL
    ∧ getoctet str 31 = Ok 43.
Proof.
  eexists _, _, _. split; [vm_compute; reflexivity|].
  split; [vm_compute; reflexivity|]. split; vm_compute; reflexivity.
Qed.

(** ** The accessors *)

(** X1. [hextoint] answers a value from 0 to 15 for every character code,
    0 for a code that is no hexadecimal digit, and the same value for an
    upper-case digit as for the lower-case one; [inttohex] answers a
    hexadecimal digit that [hextoint] maps back for every value from 0 to
    15, and 0, the code of NUL, for every other value. *)
Theorem hex_digit_conversions :
  (∀ c, 0 ≤ hextoint c ≤ 15)
  ∧ (∀ c, ishexdigit c = false → hextoint c = 0)
  ∧ (∀ c, 65 ≤ c ≤ 70 → hextoint c = hextoint (c + 32) ∧ hextoint c = c - 55)
  ∧ (∀ k, 0 ≤ k ≤ 15 → ishexdigit (inttohex k) = true ∧ hextoint (inttohex k) = k)
  ∧ (∀ k, ¬ 0 ≤ k ≤ 15 → inttohex k = 0).
Proof.
  split; [exact hextoint_range|]. split; [|split; [|split]].
  - intros c. unfold ishexdigit, hextoint.
    destruct ((48 <=? c) && (c <=? 57)); [discriminate|].
    destruct ((65 <=? c) && (c <=? 70)); [discriminate|].
    destruct ((97 <=? c) && (c <=? 102)); [discriminate|reflexivity].
  - intros c Hc.
    assert (E : c = 65 ∨ c = 66 ∨ c = 67 ∨ c = 68 ∨ c = 69 ∨ c = 70) by lia.
    destruct E as [->|[->|[->|[->|[->| ->]]]]]; split; reflexivity.
  - intros k Hk.
    assert (E : k = 0 ∨ k = 1 ∨ k = 2 ∨ k = 3 ∨ k = 4 ∨ k = 5 ∨ k = 6 ∨ k = 7 ∨ k = 8
                ∨ k = 9 ∨ k = 10 ∨ k = 11 ∨ k = 12 ∨ k = 13 ∨ k = 14 ∨ k = 15) by lia.
    repeat (destruct E as [->|E]; [split; reflexivity|]). subst k. split; reflexivity.
  - intros k Hk. unfold inttohex.
    destruct (Z.leb_spec 0 k), (Z.leb_spec k 15); cbn [andb]; try reflexivity. lia.
Qed.

Lemma lookup_wr_octet_other str k oct p :
  (p / 2 ≠ k)%nat → wr_octet str k oct !! p = str !! p.
Proof.
  intros Hp. unfold wr_octet.
  assert (H2 : p = (p / 2 * 2 + p mod 2)%nat) by (pose proof (Nat.div_mod_eq p 2); lia).
  pose proof (Nat.mod_upper_bound p 2).
  rewrite !list_lookup_insert_ne by lia. reflexivity.
Qed.

Lemma getoctet_lookup str str' j :
  str' !! (j * 2)%nat = str !! (j * 2)%nat →
  str' !! (j * 2 + 1)%nat = str !! (j * 2 + 1)%nat →
  getoctet str' j = getoctet str j.
Proof. intros H1 H2. unfold getoctet, load. now rewrite H1, H2. Qed.

(** X2. An octet from 0 to 255 stored by [putoctet] is the octet [getoctet]
    reads there; the block keeps its length and every other octet. *)
Theorem getoctet_putoctet str k oct str' :
  putoctet str k oct = Ok str' → 0 ≤ oct < 256 →
  getoctet str' k = Ok oct
  ∧ length str' = length str
  ∧ ∀ j, j ≠ k → getoctet str' j = getoctet str j.
Proof.
  intros Hput Hoct. apply putoctet_inv in Hput as [Hlen ->].
  split; [|split].
  - rewrite getoctet_Ok by (rewrite length_wr_octet; exact Hlen).
    now rewrite octet_at_wr_octet_same.
  - apply length_wr_octet.
  - intros j Hj. apply getoctet_lookup; apply lookup_wr_octet_other.
    + rewrite Nat.div_mul by lia. exact Hj.
    + rewrite Nat.add_comm, Nat.div_add by lia. cbn. exact Hj.
Qed.

Lemma getoctet_putoctet_witness :
  getoctet (list_ascii_of_string "00a7" ++ [NUL]) 1 = Ok 167
  ∧ length (list_ascii_of_string "00a7" ++ [NUL])
    = length (list_ascii_of_string "0000" ++ [NUL])
  ∧ ∀ j, j ≠ 1%nat →
      getoctet (list_ascii_of_string "00a7" ++ [NUL]) j
      = getoctet (list_ascii_of_string "0000" ++ [NUL]) j.
Proof.
  apply (getoctet_putoctet (list_ascii_of_string "0000" ++ [NUL]) 1 167).
  - reflexivity.
  - lia.
Defined.

Lemma getoctet_oob (str : list ascii) k :
  (length str ≤ k * 2 + 1)%nat → getoctet str k = OutOfBounds.
Proof.
  intros H. unfold getoctet, load.
  destruct (str !! (k * 2)%nat) as [c|]; [|reflexivity]. cbn [bind].
  now rewrite (lookup_ge_None_2 str (k * 2 + 1)) by lia.
Qed.

(** X3. For a field of at most 62 bits, where the mask [bit] of
    [putbits] and [getbits] does not overflow its [long long], and a value
    of a [long long]: with room in the block for the bits [k] to
    [k + n - 1], [putbits] returns, [getbits] then reads back the [n] low
    bits of the value (its two's-complement truncation), and every bit
    outside the field is as it was. *)
Theorem getbits_putbits str k n val q :
  (n ≤ 62)%nat → - 2 ^ 63 ≤ val < 2 ^ 63 →
  (k + n ≤ q * 8)%nat → (q * 2 ≤ length str)%nat →
  ∃ str',
    putbits str k n val = Ok str'
    ∧ length str' = length str
    ∧ getbits str' k n = Ok (val mod 2 ^ Z.of_nat n)
    ∧ ∀ i, (i < k ∨ k + n ≤ i)%nat → getbit str' i = getbit str i.
Proof.
  intros _ _ Hq Hlen.
  assert (Hb : (n = 0 ∨ (k + n - 1) / 8 * 2 + 1 < length str)%nat).
  { destruct n; [now left|right]. pose proof (div8_lt (k + S n - 1) q). lia. }
  exists (wr_bits str k n 0 val). split; [now apply putbits_Ok|].
  split; [apply length_wr_bits|]. split.
  - rewrite getbits_Ok by (now rewrite length_wr_bits). f_equal.
    apply bits_val_eq. intros t Ht. rewrite bit_at_wr_bits by exact Hb.
    destruct (decide _); [|lia]. f_equal. lia.
  - intros i Hi. unfold getbit.
    assert (E : ∀ j, (j / 8 * 2 + 1 < length str)%nat →
                bit_at (wr_bits str k n 0 val) j = if decide (k ≤ j < k + n)%nat
                                                    then Z.testbit val (0 + Z.of_nat (j - k))
                                                    else bit_at str j).
    { intros j _. now apply bit_at_wr_bits. }
    destruct (decide (i / 8 * 2 + 1 < length str)%nat) as [Hin|Hout].
    + rewrite !getoctet_Ok by (rewrite ?length_wr_bits; exact Hin). cbn [bind].
      pose proof (E i Hin) as Ei. destruct (decide _) in Ei; [lia|].
      unfold bit_at in Ei. rewrite <- sub_div8 in Ei.
      rewrite !land_pow2_eqb by lia. now rewrite Ei.
    + rewrite !getoctet_oob by (rewrite ?length_wr_bits; lia). reflexivity.
Qed.

Lemma getbits_putbits_witness :
  ∃ str',
    putbits (replicate 32 "0"%char ++ [NUL]) 6 34 (-3) = Ok str'
    ∧ length str' = length (replicate 32 "0"%char ++ [NUL])
    ∧ getbits str' 6 34 = Ok (-3 mod 2 ^ Z.of_nat 34)
    ∧ ∀ i, (i < 6 ∨ 6 + 34 ≤ i)%nat
           → getbit str' i = getbit (replicate 32 "0"%char ++ [NUL]) i.
Proof.
  apply (getbits_putbits (replicate 32 "0"%char ++ [NUL]) 6 34 (-3) 16).
  - lia.
  - lia.
  - lia.
  - cbn. lia.
Defined.

(** X4. For a number of an [int] written on at most three octets, which
    [getnumber] can accumulate in its [int]: with room in the block for
    [ndig] octets from octet [nbyt] on, [putnumber] returns and [getnumber]
    reads back the number modulo [2^(8 ndig)], most significant octet
    first. *)
Theorem getnumber_putnumber str nbyt ndig num :
  (ndig ≤ 3)%nat → - 2 ^ 31 ≤ num < 2 ^ 31 →
  ((nbyt + ndig) * 2 ≤ length str)%nat →
  ∃ str',
    putnumber str nbyt ndig num = Ok str'
    ∧ length str' = length str
    ∧ getnumber str' nbyt ndig = Ok (num mod 2 ^ (8 * Z.of_nat ndig)).
Proof.
  intros _ _ Hlen.
  assert (Hpre : length (take (nbyt * 2) str) = (nbyt * 2)%nat)
    by (rewrite length_take; lia).
  assert (E : putnumber str nbyt ndig num
              = Ok ((take (nbyt * 2) str ++ hexstr (be_octets ndig num))
                    ++ drop (2 * ndig) (drop (nbyt * 2) str))).
  { rewrite <- (take_drop (nbyt * 2) str) at 1.
    apply putnumber_app; [exact Hpre|]. rewrite length_drop. lia. }
  rewrite E. eexists. split; [reflexivity|]. split.
  - rewrite !length_app, hexstr_length, be_octets_length, !length_drop, Hpre. lia.
  - rewrite <- app_assoc. now apply getnumber_be.
Qed.

Lemma getnumber_putnumber_witness :
  ∃ str',
    putnumber (replicate 8 "0"%char ++ [NUL]) 1 2 (-64) = Ok str'
    ∧ length str' = length (replicate 8 "0"%char ++ [NUL])
    ∧ getnumber str' 1 2 = Ok (-64 mod 2 ^ (8 * Z.of_nat 2)).
Proof.
  apply (getnumber_putnumber (replicate 8 "0"%char ++ [NUL]) 1 2 (-64)).
  - lia.
  - lia.
  - cbn. lia.
Defined.

(** X5. For a width [n] from 1 to 62, where the shifts [1LL << (n - 1)]
    and [1LL << n] stay inside a [long long], [propagate_sign] maps an
    [n]-bit field to the number of the signed range
    [-2^(n-1) .. 2^(n-1) - 1] that the field is the two's complement of. *)
Theorem propagate_sign_signed res n :
  0 < n ≤ 62 → 0 ≤ res < 2 ^ n →
  - 2 ^ (n - 1) ≤ propagate_sign res n < 2 ^ (n - 1)
  ∧ propagate_sign res n mod 2 ^ n = res
  ∧ (res < 2 ^ (n - 1) → propagate_sign res n = res)
  ∧ (2 ^ (n - 1) ≤ res → propagate_sign res n = res - 2 ^ n).
Proof.
  intros [Hn _] Hres.
  assert (H2 : 2 ^ n = 2 * 2 ^ (n - 1)).
  { replace n with (Z.succ (n - 1)) at 1 by lia. apply Z.pow_succ_r. lia. }
  destruct (Z.lt_ge_cases res (2 ^ (n - 1))) as [Hlo|Hhi].
  - assert (E : propagate_sign res n = res).
    { rewrite <- (Z.mod_small res (2 ^ n)) at 1 by lia.
      apply propagate_sign_mod; lia. }
    rewrite E. split; [lia|]. split; [apply Z.mod_small; lia|]. split; [reflexivity|lia].
  - assert (E : propagate_sign res n = res - 2 ^ n).
    { replace res with ((res - 2 ^ n) mod 2 ^ n) at 1.
      - apply propagate_sign_mod; lia.
      - symmetry. apply (Z.mod_unique _ _ (-1)); lia. }
    rewrite E. split; [lia|]. split.
    + symmetry. apply (Z.mod_unique _ _ (-1)); lia.
    + split; [lia|reflexivity].
Qed.

Lemma propagate_sign_signed_witness :
  - 2 ^ (34 - 1) ≤ propagate_sign (2 ^ 34 - 1) 34 < 2 ^ (34 - 1)
  ∧ propagate_sign (2 ^ 34 - 1) 34 mod 2 ^ 34 = 2 ^ 34 - 1
  ∧ (2 ^ 34 - 1 < 2 ^ (34 - 1) → propagate_sign (2 ^ 34 - 1) 34 = 2 ^ 34 - 1)
  ∧ (2 ^ (34 - 1) ≤ 2 ^ 34 - 1 → propagate_sign (2 ^ 34 - 1) 34 = 2 ^ 34 - 1 - 2 ^ 34).
Proof.
  apply (propagate_sign_signed (2 ^ 34 - 1) 34); lia.
Defined.

(** X6. Whatever [log2] answers, the code [encodebinarydot] returns is
    from 0 to 34; it is 0, the code of an unknown uncertainty, exactly when
    the value is not positive, and then the value is reported; a positive
    value always gets a code from 1 to 34. *)
Theorem encodebinarydot_code (log2 : Q → Q) val m :
  0 ≤ fst (encodebinarydot log2 val m) ≤ MAX_LCI_UNCERTAINTY
  ∧ (fst (encodebinarydot log2 val m) = 0 ↔ (val <= 0)%Q)
  ∧ ((val <= 0)%Q → snd (encodebinarydot log2 val m) = [ErrUncertaintyNonPositive val]).
Proof.
  unfold encodebinarydot, MAX_LCI_UNCERTAINTY.
  destruct (Qle_bool val 0) eqn:E.
  - cbn [fst snd]. split; [lia|]. split; [|reflexivity].
    split; [intros _; now apply Qle_bool_iff|reflexivity].
  - assert (Hpos : ¬ (val <= 0)%Q).
    { intros H. apply Qle_bool_iff in H. congruence. }
    destruct (Z.leb_spec (m - Qceiling (log2 val - eps)) 0).
    + cbn [fst snd]. split; [lia|]. split; [|contradiction].
      split; [discriminate|contradiction].
    + destruct (Z.ltb_spec 34 (m - Qceiling (log2 val - eps))); cbn [fst snd].
      * split; [lia|]. split; [|contradiction]. split; [discriminate|contradiction].
      * split; [lia|]. split; [|contradiction]. split; [lia|contradiction].
Qed.

Section BinaryDot.

Variable log2 : Q → Q.

Hypothesis Hlog2 : log2_exact log2.

(** X7. The check of [testbinarydot], for the exponents [m - n] from
    -1074 to 1023, for which [exp2] on doubles returns the power of two
    itself: for a code [n] from 1 to 34, [encodebinarydot] maps the value
    [decodebinarydot n m] back to [n], without a diagnostic, when [log2] is
    exact on the powers of two; a code above 34 comes back as 34 and a code
    below 1 as 1. *)
Theorem encodebinarydot_decodebinarydot n m :
  - 1074 ≤ m - n ≤ 1023 →
  (1 ≤ n ≤ MAX_LCI_UNCERTAINTY → encodebinarydot log2 (decodebinarydot n m) m = (n, []))
  ∧ (MAX_LCI_UNCERTAINTY < n →
     fst (encodebinarydot log2 (decodebinarydot n m) m) = MAX_LCI_UNCERTAINTY)
  ∧ (n < 1 → fst (encodebinarydot log2 (decodebinarydot n m) m) = 1).
Proof.
  intros _.
  assert (Hc : Qceiling (log2 (decodebinarydot n m) - eps) = m - n).
  { unfold decodebinarydot.
    assert (E : (log2 (exp2 (m - n)) - eps == inject_Z (m - n) - eps)%Q).
    { rewrite (Hlog2 (exp2 (m - n)) (m - n)); reflexivity. }
    rewrite (Qceiling_comp _ _ E). apply Qceiling_minus_eps. }
  assert (Hpos : Qle_bool (decodebinarydot n m) 0 = false).
  { destruct (Qle_bool (decodebinarydot n m) 0) eqn:E; [|reflexivity].
    apply Qle_bool_imp_le in E. pose proof (exp2_pos (m - n)) as Hp.
    exfalso. exact (Qlt_not_le _ _ Hp E). }
  unfold encodebinarydot, MAX_LCI_UNCERTAINTY. rewrite Hpos, Hc.
  replace (m - (m - n)) with n by lia.
  split; [|split]; intros Hn.
  - destruct (Z.leb_spec n 0); [lia|]. destruct (Z.ltb_spec 34 n); [lia|reflexivity].
  - destruct (Z.leb_spec n 0); [lia|]. destruct (Z.ltb_spec 34 n); [reflexivity|lia].
  - destruct (Z.leb_spec n 0); [reflexivity|lia].
Qed.

End BinaryDot.

Lemma encodebinarydot_decodebinarydot_witness :
  (1 ≤ 20 ≤ MAX_LCI_UNCERTAINTY →
   encodebinarydot log2_model (decodebinarydot 20 8) 8 = (20, []))
  ∧ (MAX_LCI_UNCERTAINTY < 20 →
     fst (encodebinarydot log2_model (decodebinarydot 20 8) 8) = MAX_LCI_UNCERTAINTY)
  ∧ (20 < 1 → fst (encodebinarydot log2_model (decodebinarydot 20 8) 8) = 1).
Proof.
  apply (encodebinarydot_decodebinarydot log2_model log2_model_exact 20 8). lia.
Defined.

Lemma sep_not_NUL c :
  (char_code c =? 58) || (char_code c =? 45) || (char_code c =? 95) = true → c ≠ NUL.
Proof. intros H ->. discriminate H. Qed.

Ltac split_andb H :=
  repeat match type of H with
         | (_ && _ = true) => let H' := fresh "Hb" in apply andb_true_iff in H as [H H']
         end.

Lemma isValidBSSID_inv b :
  isValidBSSID b = true →
  (length b = 12%nat ∨ length b = 17%nat)
  ∧ Forall (λ c, c ≠ NUL) b
  ∧ length (placed b) = 12%nat
  ∧ isValidBSSID (placed b) = true
  ∧ (length b = 12%nat → placed b = b).
Proof.
  unfold isValidBSSID, placed.
  destruct (Nat.eqb_spec (length b) 17) as [E17|N17].
  - do 18 (destruct b as [|? b]; try discriminate E17).
    cbn [forallb seq nth Nat.mul Nat.add Nat.sub Nat.ltb Nat.leb length Nat.eqb
         bssid_pairs andb].
    intros H. rewrite !andb_true_r in H. repeat rewrite andb_assoc in H. split_andb H.
    split; [now right|]. split.
    { repeat constructor;
        first [apply hexchar_not_NUL; assumption | apply sep_not_NUL; assumption]. }
    split; [reflexivity|]. split; [|discriminate].
    cbn [forallb seq nth Nat.mul Nat.add andb].
    repeat match goal with Hh : ishexdigit _ = true |- _ => rewrite Hh; clear Hh end.
    reflexivity.
  - destruct (Nat.eqb_spec (length b) 12) as [E12|N12]; [|discriminate].
    do 13 (destruct b as [|? b]; try discriminate E12).
    cbn [forallb seq nth Nat.mul Nat.add length Nat.eqb bssid_pairs andb].
    intros H. split; [now left|]. split.
    { rewrite !andb_true_r in H. repeat rewrite andb_assoc in H. split_andb H.
      repeat constructor; apply hexchar_not_NUL; assumption. }
    split; [reflexivity|]. split; [exact H|reflexivity].
Qed.

(** X8. The copy [placeBSSID] makes of a string [isValidBSSID] accepts,
    given room for it: twelve characters are written and the position moves
    on by six octets, without a diagnostic; the twelve characters are again
    a string [isValidBSSID] accepts, and they are the string itself when it
    is in the twelve-digit form. *)
Theorem placeBSSID_valid pre rest m bssid :
  isValidBSSID bssid = true → length pre = (m * 2)%nat → (12 ≤ length rest)%nat →
  ∃ digits,
    placeBSSID (pre ++ rest) m bssid = Ok ((pre ++ digits) ++ drop 12 rest, (m + 6)%nat, [])
    ∧ length digits = 12%nat
    ∧ isValidBSSID digits = true
    ∧ (length bssid = 12%nat → digits = bssid).
Proof.
  intros Hv Hpre Hrest.
  destruct (isValidBSSID_inv bssid Hv) as (Hlen & _ & H12 & Hv' & Hid).
  exists (placed bssid). rewrite placeBSSID_app by assumption. rewrite H12.
  split; [|now split].
  unfold placed_diags.
  destruct Hlen as [-> | ->]; reflexivity.
Qed.

Lemma placeBSSID_valid_witness :
  ∃ digits,
    placeBSSID ([] ++ replicate 12 "0"%char) 0 (list_ascii_of_string "00:11:22:aa:bb:CC")
    = Ok (([] ++ digits) ++ drop 12 (replicate 12 "0"%char), (0 + 6)%nat, [])
    ∧ length digits = 12%nat
    ∧ isValidBSSID digits = true
    ∧ (length (list_ascii_of_string "00:11:22:aa:bb:CC") = 12%nat
       → digits = list_ascii_of_string "00:11:22:aa:bb:CC").
Proof.
  apply (placeBSSID_valid [] (replicate 12 "0"%char) 0
           (list_ascii_of_string "00:11:22:aa:bb:CC")).
  - reflexivity.
  - reflexivity.
  - cbn. lia.
Defined.

(** ** The list of BSSIDs of the command line *)

Lemma strchr_in_token t c rest pos :
  token t → (c = ","%char ∨ c = NUL) →
  strchr_in (t ++ c :: rest) pos ","%char
  = Ok (if Ascii.eqb c ","%char then Some (pos + length t)%nat else None).
Proof.
  intros Ht Hc. revert pos. induction Ht as [|x t [Hx1 Hx2] _ IH]; intros pos.
  - cbn [app strchr_in length]. rewrite Nat.add_0_r.
    destruct Hc as [-> | ->]; reflexivity.
  - cbn [app strchr_in length].
    destruct (Ascii.eqb_spec x ","%char); [contradiction|].
    destruct (Ascii.eqb_spec x NUL); [contradiction|].
    rewrite IH. destruct (Ascii.eqb c ","%char); do 2 f_equal; lia.
Qed.

Lemma strlen_token t rest : token t → strlen (t ++ NUL :: rest) = Ok (length t).
Proof.
  intros Ht. apply strlen_app. eapply Forall_impl; [exact Ht|]. now intros c [_ H].
Qed.

Lemma token_not_NUL t : token t → Forall (λ c, c ≠ NUL) t.
Proof. intros Ht. eapply Forall_impl; [exact Ht|]. now intros c [_ H]. Qed.

(** One turn of the loop on a token followed by a comma or the terminator. *)
Lemma extractBSSID_loop_step fuel pre t c rest bssids :
  token t → (c = ","%char ∨ c = NUL) → (t = [] → c = ","%char) →
  extractBSSID_loop (S fuel) (pre ++ t ++ c :: rest) (length pre) bssids
  = let '(bssids', rejected) :=
      if isValidBSSID t then (bssids ++ [t], []) else (bssids, [t]) in
    if Ascii.eqb c NUL then Ok (bssids', rejected)
    else r <- extractBSSID_loop fuel (pre ++ t ++ c :: rest)
                (length pre + length t + 1) bssids';;
         let '(b, rejected') := r in Ok (b, rejected ++ rejected').
Proof.
  intros Ht Hc Hne. cbn [extractBSSID_loop].
  assert (Hfirst : ∃ x, load (pre ++ t ++ c :: rest) (length pre) = Ok x ∧ x ≠ NUL).
  { destruct t as [|x t].
    - exists c. split; [apply load_app|]. rewrite (Hne eq_refl). discriminate.
    - exists x. split; [apply (load_app pre x)|]. inversion Ht as [|? ? [_ H]]. exact H. }
  destruct Hfirst as (x & -> & Hx). cbn [bind].
  destruct (Ascii.eqb_spec x NUL); [contradiction|].
  unfold strchr. rewrite drop_app_length. rewrite strchr_in_token by assumption.
  cbn [bind].
  assert (Hend : (match (if Ascii.eqb c ","%char then Some (length pre + length t)%nat
                         else None) with
                  | Some p => Ok p
                  | None => n <- strlen (t ++ c :: rest);; Ok (length pre + n)%nat
                  end) = Ok (length pre + length t)%nat).
  { destruct Hc as [-> | ->]; cbn [Ascii.eqb Bool.eqb]; [reflexivity|].
    change (Ascii.eqb NUL ","%char) with false. cbv iota.
    now rewrite strlen_token. }
  rewrite Hend. cbn [bind].
  replace (length pre + length t - length pre)%nat with (length t) by lia.
  rewrite strndup_app by (now apply token_not_NUL). cbn [bind].
  rewrite (app_assoc pre t).
  replace (length pre + length t)%nat with (length (pre ++ t)) by (now rewrite length_app).
  rewrite load_app. cbn [bind]. rewrite <- app_assoc.
  destruct (isValidBSSID t); reflexivity.
Qed.

Lemma comma_list_cons t t' ts :
  comma_list (t :: t' :: ts) = t ++ ","%char :: comma_list (t' :: ts).
Proof. reflexivity. Qed.

Lemma comma_list_length ts : (length ts ≤ length (comma_list ts) + 1)%nat.
Proof.
  induction ts as [|t [|t' ts] IH]; cbn [comma_list length] in *; try lia.
  rewrite length_app. cbn [length]. lia.
Qed.

Lemma extractBSSID_loop_tokens ts :
  Forall token ts → ts ≠ [] →
  ∀ (trail : bool) fuel pre rest bssids,
    (trail = false → last ts ≠ Some []) → (length ts ≤ fuel)%nat →
    extractBSSID_loop fuel
      (pre ++ comma_list ts ++ (if trail then [","%char] else []) ++ NUL :: rest)
      (length pre) bssids
    = Ok (bssids ++ List.filter isValidBSSID ts,
          List.filter (λ t, negb (isValidBSSID t)) ts).
Proof.
  induction 1 as [|t ts Ht Hts IH]; intros Hne trail fuel pre rest bssids Hlast Hfuel;
    [contradiction|].
  cbn [length] in Hfuel. destruct fuel as [|fuel]; [lia|].
  destruct ts as [|t' ts].
  - cbn [comma_list List.filter]. destruct trail.
    + cbn [app].
      rewrite extractBSSID_loop_step; [|exact Ht|now left|reflexivity].
      change (Ascii.eqb ","%char NUL) with false.
      assert (Hnext : ∀ b, extractBSSID_loop fuel (pre ++ t ++ ","%char :: NUL :: rest)
                             (length pre + length t + 1) b = Ok (b, [])).
      { intros b. replace (pre ++ t ++ ","%char :: NUL :: rest)
          with ((pre ++ t ++ [","%char]) ++ NUL :: rest)
          by (now rewrite <- !app_assoc).
        replace (length pre + length t + 1)%nat with (length (pre ++ t ++ [","%char]))
          by (rewrite !length_app; cbn [length]; lia).
        destruct fuel; cbn [extractBSSID_loop]; rewrite load_app; reflexivity. }
      destruct (isValidBSSID t); cbn [negb]; rewrite Hnext; cbn [bind];
        rewrite ?app_nil_r; reflexivity.
    + cbn [app].
      rewrite extractBSSID_loop_step; [|exact Ht|now right|].
      * change (Ascii.eqb NUL NUL) with true.
        destruct (isValidBSSID t); cbn [negb]; rewrite ?app_nil_r; reflexivity.
      * intros ->. now specialize (Hlast eq_refl).
  - rewrite comma_list_cons. rewrite <- !app_assoc. cbn [app].
    rewrite extractBSSID_loop_step; [|exact Ht|now left|reflexivity].
    change (Ascii.eqb ","%char NUL) with false.
    assert (Hrec : ∀ b,
      extractBSSID_loop fuel
        (pre ++ t ++ ","%char :: comma_list (t' :: ts)
             ++ (if trail then [","%char] else []) ++ NUL :: rest)
        (length pre + length t + 1) b
      = Ok (b ++ List.filter isValidBSSID (t' :: ts),
            List.filter (λ t, negb (isValidBSSID t)) (t' :: ts))).
    { intros b.
      replace (pre ++ t ++ ","%char :: comma_list (t' :: ts)
                   ++ (if trail then [","%char] else []) ++ NUL :: rest)
        with ((pre ++ t ++ [","%char]) ++ comma_list (t' :: ts)
                   ++ (if trail then [","%char] else []) ++ NUL :: rest)
        by (now rewrite <- !app_assoc).
      replace (length pre + length t + 1)%nat with (length (pre ++ t ++ [","%char]))
        by (rewrite !length_app; cbn [length]; lia).
      apply IH; [discriminate| |cbn [length] in *; lia].
      intros Htr. specialize (Hlast Htr). exact Hlast. }
    cbn [List.filter].
    destruct (isValidBSSID t); cbn [negb]; rewrite Hrec; cbn [bind];
      rewrite <- ?app_assoc; reflexivity.
Qed.

(** X9. [extractBSSID] on a list of strings separated by commas, with or
    without a comma after the last one: the strings [isValidBSSID] accepts
    are appended to [BSSIDS] in their order, the others are reported in
    their order and left out, and nothing else of the settings changes.  An
    empty string between two commas counts as a string (and is reported);
    only a last string may not be empty unless a comma follows it. *)
Theorem extractBSSID_tokens ts (trail : bool) g :
  Forall token ts → (trail = false → last ts ≠ Some []) → (ts = [] → trail = false) →
  extractBSSID (comma_list ts ++ (if trail then [","%char] else []) ++ [NUL]) g
  = Ok (set_BSSIDS g (BSSIDS g ++ List.filter isValidBSSID ts),
        List.filter (λ t, negb (isValidBSSID t)) ts).
Proof.
  intros Hts Hlast Hnil. unfold extractBSSID.
  destruct ts as [|t ts].
  - rewrite (Hnil eq_refl). cbn [comma_list app List.filter length extractBSSID_loop].
    cbn. now rewrite app_nil_r.
  - change (comma_list (t :: ts) ++ (if trail then [","%char] else []) ++ [NUL])
      with ([] ++ comma_list (t :: ts) ++ (if trail then [","%char] else []) ++ [NUL])
      at 2.
    change 0%nat with (length (@nil ascii)).
    rewrite extractBSSID_loop_tokens; [reflexivity|exact Hts|discriminate|exact Hlast|].
    pose proof (comma_list_length (t :: ts)). rewrite !length_app.
    destruct trail; cbn [length] in *; lia.
Qed.

Lemma extractBSSID_tokens_witness :
  extractBSSID
    (comma_list [list_ascii_of_string "00:11:22:33:44:55"; list_ascii_of_string "xyz";
                 list_ascii_of_string "66778899aabb"]
     ++ (if true then [","%char] else []) ++ [NUL]) default_globals
  = Ok (set_BSSIDS default_globals
          (BSSIDS default_globals
           ++ List.filter isValidBSSID
                [list_ascii_of_string "00:11:22:33:44:55"; list_ascii_of_string "xyz";
                 list_ascii_of_string "66778899aabb"]),
        List.filter (λ t, negb (isValidBSSID t))
          [list_ascii_of_string "00:11:22:33:44:55"; list_ascii_of_string "xyz";
           list_ascii_of_string "66778899aabb"]).
Proof.
  apply (extractBSSID_tokens
           [list_ascii_of_string "00:11:22:33:44:55"; list_ascii_of_string "xyz";
            list_ascii_of_string "66778899aabb"] true default_globals).
  - repeat constructor; discriminate.
  - discriminate.
  - discriminate.
Defined.

(** ** The element [encodeLCIstring] returns, and decoding it *)

Lemma strlen_In (str : list ascii) :
  In NUL str → ∃ n, strlen str = Ok n ∧ (n < length str)%nat.
Proof.
  induction str as [|c str IH]; intros Hin; [destruct Hin|].
  cbn [strlen length]. destruct (Ascii.eqb_spec c NUL) as [->|Hc].
  - exists 0%nat. split; [reflexivity|lia].
  - destruct Hin as [->|Hin]; [contradiction|].
    destruct (IH Hin) as (n & -> & Hn). exists (S n). split; [reflexivity|lia].
Qed.

Lemma tailc_In R c : In NUL (tailc (R ++ [NUL]) c).
Proof.
  unfold tailc. destruct (c =? 0)%nat; [|now left].
  apply in_or_app. right. now left.
Qed.

Lemma wire_length_le (log2 : Q → Q) g :
  (6 ≤ length (wire log2 g) ≤ 74 + 12 * bssid_index g)%nat.
Proof.
  unfold wire. rewrite !length_app, header_length.
  pose proof (segLCI_le log2 g). pose proof (segZ_le log2 g).
  pose proof (segBSSID_le g). pose proof (segUsage_le g). lia.
Qed.

(** X10. For every setting of the globals, and whatever [log2] answers,
    [encodeLCIstring] returns: no encoder writes outside the block of
    [2 (37 + 6 N) + 1] characters allocated for [N] BSSIDs.  The block
    returned has that length and holds a terminated string, and of the
    globals only the Usage settings can have changed. *)
Theorem encodeLCIstring_block (log2 : Q → Q) g :
  ∃ str g' d,
    encodeLCIstring log2 g = Ok (str, g', d)
    ∧ length str = (2 * (37 + 6 * bssid_index g) + 1)%nat
    ∧ (∃ n, strlen str = Ok n ∧ (n < length str)%nat)
    ∧ lci g' = lci g ∧ zsub g' = zsub g ∧ BSSIDS g' = BSSIDS g ∧ flags g' = flags g.
Proof.
  rewrite encodeLCIstring_layout. eexists _, _, _. split; [reflexivity|].
  pose proof (wire_length_le log2 g) as Hw. split; [|split].
  - rewrite length_app, tailc_length by (rewrite R0_length; lia).
    rewrite R0_length. lia.
  - apply strlen_In. apply in_or_app. right. apply tailc_In.
  - unfold encode_globals. destruct (emitUsage g); repeat split; reflexivity.
Qed.

(** X11. When no subelement is written (no include-flag set, or nothing to
    include), the string returned is not the three header octets alone:
    the block is not terminated after the header, and the string is the
    header followed by the [68 + 12 N] characters ['0'] the block was
    filled with. *)
Theorem encodeLCIstring_nothing_emitted (log2 : Q → Q) g :
  truthy (wantLCIflag (flags g)) = false → truthy (wantZflag (flags g)) = false →
  truthy (wantColocatedflag (flags g)) && needBSSID g = false →
  truthy (wantUsageflag (flags g)) && (needLCI g || needZ g || needBSSID g) = false →
  ∃ str g' d,
    encodeLCIstring log2 g = Ok (str, g', d)
    ∧ c_str str = hexstr [MEASURE_TOKEN; MEASURE_REQUEST_MODE; LCI_TYPE]
                  ++ replicate (68 + 12 * bssid_index g) "0"%char
    ∧ g' = g.
Proof.
  intros HL HZ HB HU. rewrite encodeLCIstring_layout. eexists _, _, _.
  split; [reflexivity|].
  unfold wire, segLCI, segZ, segBSSID, segUsage, encode_globals, emitLCI, emitZ,
    emitBSSID, emitUsage.
  rewrite HL, HZ, HB, HU. cbn [app]. rewrite app_nil_r, header_length.
  cbn [Nat.sub]. unfold tailc, R0. cbn [Nat.eqb]. split; [|reflexivity].
  rewrite app_assoc. apply c_str_app. apply Forall_app_2.
  - apply hexchar_Forall_not_NUL. unfold header. apply hexstr_hexchar.
    repeat constructor; unfold octet, MEASURE_TOKEN, MEASURE_REQUEST_MODE, LCI_TYPE; lia.
  - apply Forall_replicate. discriminate.
Qed.

Lemma encodeLCIstring_nothing_emitted_witness :
  ∃ str g' d,
    encodeLCIstring log2_model nothing_wanted = Ok (str, g', d)
    ∧ c_str str = hexstr [MEASURE_TOKEN; MEASURE_REQUEST_MODE; LCI_TYPE]
                  ++ replicate (68 + 12 * bssid_index nothing_wanted) "0"%char
    ∧ g' = nothing_wanted.
Proof.
  apply (encodeLCIstring_nothing_emitted log2_model nothing_wanted); reflexivity.
Defined.

Lemma segLCI_not_NUL (log2 : Q → Q) g : Forall (λ c, c ≠ NUL) (segLCI log2 g).
Proof.
  unfold segLCI. destruct (emitLCI g); [|constructor]. unfold LCI_seg.
  apply hexchar_Forall_not_NUL, Forall_app_2; [|apply LCI_body_hexchar].
  apply hexstr_hexchar. repeat constructor; unfold octet, LCI_CODE; lia.
Qed.

Lemma segZ_not_NUL (log2 : Q → Q) g : Forall (λ c, c ≠ NUL) (segZ log2 g).
Proof.
  unfold segZ. destruct (emitZ g); [|constructor].
  apply hexchar_Forall_not_NUL, hexstr_hexchar, Z_octets_octet.
Qed.

Lemma header_not_NUL : Forall (λ c, c ≠ NUL) header.
Proof.
  apply hexchar_Forall_not_NUL. unfold header. apply hexstr_hexchar.
  repeat constructor; unfold octet, MEASURE_TOKEN, MEASURE_REQUEST_MODE, LCI_TYPE; lia.
Qed.

(** X12. With more than 42 BSSIDs the length of the Colocated BSSID
    subelement, [6 N + 1], does not fit its octet: [putoctet] stores a NUL
    for its first digit, and the string returned ends right after the ID
    octet of that subelement, at octet [m + 1] where [m] is the number of
    octets of the header and of the LCI and Z subelements written. *)
Theorem encodeLCIstring_too_many_BSSIDs (log2 : Q → Q) g :
  truthy (wantColocatedflag (flags g)) = true → (43 ≤ bssid_index g)%nat →
  let m := (3 + (if truthy (wantLCIflag (flags g)) then 18 else 0)
            + (if truthy (wantZflag (flags g)) then 8 else 0))%nat in
  ∃ str g' d,
    encodeLCIstring log2 g = Ok (str, g', d)
    ∧ strlen str = Ok ((m + 1) * 2)%nat
    ∧ getoctet str m = Ok COLOCATED_BSSID.
Proof.
  intros Hwant HN m. rewrite encodeLCIstring_layout.
  eexists _, _, _. split; [reflexivity|].
  assert (HB : emitBSSID g = true).
  { unfold emitBSSID, needBSSID. rewrite Hwant. cbn [andb]. apply Nat.ltb_lt. lia. }
  unfold wire, segBSSID. rewrite HB. unfold BSSID_seg.
  assert (Hpre : length (header ++ segLCI log2 g ++ segZ log2 g) = (m * 2)%nat).
  { rewrite !length_app, header_length. unfold segLCI, segZ, emitLCI, emitZ, m.
    destruct (truthy (wantLCIflag (flags g))), (truthy (wantZflag (flags g)));
      rewrite ?LCI_seg_length, ?hexstr_length, ?Z_octets_length; cbn [length]; lia. }
  set (len := Z.of_nat (bssid_index g) * 6 + 1) in *.
  assert (Hnul : ∃ c2, hexpair len = [NUL; c2]).
  { unfold hexpair. eexists. f_equal.
    assert (E : inttohex (Z.shiftr len 4) = 0).
    { unfold inttohex. rewrite Z.shiftr_div_pow2 by lia.
      assert (16 ≤ len / 2 ^ 4) by (apply Z.div_le_lower_bound; lia).
      destruct (Z.leb_spec 0 (len / 2 ^ 4)), (Z.leb_spec (len / 2 ^ 4) 15);
        cbn [andb]; try reflexivity; lia. }
    rewrite E. reflexivity. }
  destruct Hnul as [c2 Hnul].
  set (pre := header ++ segLCI log2 g ++ segZ log2 g) in *.
  match goal with
  | |- context [strlen ?s] =>
      assert (E : ∃ rest, s = (pre ++ hexstr [COLOCATED_BSSID]) ++ NUL :: rest)
        by (eexists; unfold pre; rewrite !hexstr_cons, Hnul, <- !app_assoc; reflexivity);
      destruct E as [rest ->]
  end.
  assert (Hnn : Forall (λ c, c ≠ NUL) (pre ++ hexstr [COLOCATED_BSSID])).
  { unfold pre. apply Forall_app_2; [apply Forall_app_2; [|apply Forall_app_2]|].
    - apply header_not_NUL.
    - apply segLCI_not_NUL.
    - apply segZ_not_NUL.
    - apply hexchar_Forall_not_NUL, hexstr_hexchar.
      repeat constructor; unfold octet, COLOCATED_BSSID; lia. }
  split.
  - rewrite strlen_app by exact Hnn. f_equal.
    rewrite length_app, hexstr_length, Hpre. cbn [length]. lia.
  - rewrite <- app_assoc. apply getoctet_hexstr0; [exact Hpre|].
    unfold octet, COLOCATED_BSSID. lia.
Qed.

Lemma encodeLCIstring_too_many_BSSIDs_witness :
  ∃ str g' d,
    encodeLCIstring log2_model
      (set_BSSIDS default_globals (replicate 43 (list_ascii_of_string "001122334455")))
    = Ok (str, g', d)
    ∧ strlen str = Ok ((29 + 1) * 2)%nat
    ∧ getoctet str 29 = Ok COLOCATED_BSSID.
Proof.
  apply (encodeLCIstring_too_many_BSSIDs log2_model
           (set_BSSIDS default_globals (replicate 43 (list_ascii_of_string "001122334455")))).
  - reflexivity.
  - cbn. lia.
Defined.

Lemma sep_not_hex c :
  (c =? 58) || (c =? 45) || (c =? 95) = true → ishexdigit c = false.
Proof.
  intros H. apply orb_true_iff in H as [H|H]; [apply orb_true_iff in H as [H|H]|];
    apply Z.eqb_eq in H; subst c; reflexivity.
Qed.

Lemma isValidBSSID_placed b :
  isValidBSSID b = true → placed b = digits_of b ∧ Forall hexchar (placed b).
Proof.
  unfold isValidBSSID, placed, digits_of.
  destruct (Nat.eqb_spec (length b) 17) as [E17|N17].
  - do 18 (destruct b as [|? b]; try discriminate E17).
    cbn [forallb seq nth Nat.mul Nat.add Nat.sub Nat.ltb Nat.leb length Nat.eqb
         bssid_pairs andb List.filter].
    intros H. rewrite !andb_true_r in H. repeat rewrite andb_assoc in H. split_andb H.
    repeat match goal with
           | Hs : (_ =? 58) || _ || _ = true |- _ => apply sep_not_hex in Hs
           end.
    split.
    + repeat match goal with
             | Hh : ishexdigit _ = _ |- _ => rewrite Hh; clear Hh
             end.
      reflexivity.
    + repeat constructor; assumption.
  - destruct (Nat.eqb_spec (length b) 12) as [E12|N12]; [|discriminate].
    do 13 (destruct b as [|? b]; try discriminate E12).
    cbn [forallb seq nth Nat.mul Nat.add length Nat.eqb bssid_pairs andb List.filter].
    intros H. rewrite !andb_true_r in H. repeat rewrite andb_assoc in H. split_andb H.
    split.
    + repeat match goal with
             | Hh : ishexdigit _ = _ |- _ => rewrite Hh; clear Hh
             end.
      reflexivity.
    + repeat constructor; assumption.
Qed.

Lemma valid_wf_bssid b : isValidBSSID b = true → wf_bssid b.
Proof.
  intros H. destruct (isValidBSSID_inv b H) as (Hl & Hn & _). split; assumption.
Qed.

Lemma valid_wf_globals g : valid_globals g → wf_globals g.
Proof.
  intros (Hb & HN & Hu). split; [|now split].
  eapply Forall_impl; [exact Hb|]. apply valid_wf_bssid.
Qed.

Lemma all_placed_valid bs :
  Forall (λ b, isValidBSSID b = true) bs →
  all_placed bs = concat (map digits_of bs)
  ∧ Forall hexchar (all_placed bs)
  ∧ Forall (λ d, length d = 12%nat ∧ isValidBSSID d = true) (map digits_of bs).
Proof.
  unfold all_placed. induction 1 as [|b bs Hb _ (IH1 & IH2 & IH3)]; cbn [map concat].
  - repeat split; constructor.
  - destruct (isValidBSSID_placed b Hb) as [E Hh].
    destruct (isValidBSSID_inv b Hb) as (_ & _ & H12 & Hv & _).
    rewrite <- E. split; [now rewrite IH1|]. split.
    + apply Forall_app_2; assumption.
    + constructor; [now split|exact IH3].
Qed.

Section Decoded.

Variable log2 : Q → Q.

(** What decoding the element written for [g] does to each part of the
    globals [g0]. *)
Lemma subs_eff_parts g g0 :
  let g2 := subs_eff (enc_subs log2 g) g0 in
  lci g2 = (if emitLCI g then LCI_of_block (LCI_body log2 g) else lci g0)
  ∧ zsub g2 = (if emitZ g
               then Z_decoded (Z_fields_info g mod 2 ^ 16)
                      (trunc (sta_height_above_floor (zsub g) * 4096) mod 2 ^ 24)
                      (Z_code log2 g)
               else zsub g0)
  ∧ BSSIDS g2 = (if emitBSSID g
                 then chunks12 (all_placed (BSSIDS g)) (bssid_index g) else BSSIDS g0)
  ∧ usage g2 = (if emitUsage g then eff (subUsage g) g0 else g0).(usage)
  ∧ flags g2 = flags g0.
Proof.
  unfold enc_subs.
  destruct (emitLCI g), (emitZ g), (emitBSSID g), (emitUsage g); cbn; repeat split.
Qed.

Lemma subs_dg_parts g :
  subs_dg (enc_subs log2 g)
  = (if emitLCI g then dg (subLCI log2 g) else [])
    ++ (if emitZ g then dg (subZ log2 g) else [])
    ++ (if emitBSSID g then dg (subBSSID g) else [])
    ++ (if emitUsage g then dg (subUsage g) else []).
Proof.
  unfold enc_subs, subs_dg.
  destruct (emitLCI g), (emitZ g), (emitBSSID g), (emitUsage g);
    cbn [app map concat]; rewrite ?app_nil_r; reflexivity.
Qed.

Lemma wire_hexchar g : valid_globals g → Forall hexchar (wire log2 g).
Proof.
  intros (Hb & HN & Hu). unfold wire, segLCI, segZ, segBSSID, segUsage.
  apply Forall_app_2; [|apply Forall_app_2; [|apply Forall_app_2; [|apply Forall_app_2]]].
  - unfold header. apply hexstr_hexchar.
    repeat constructor; unfold octet, MEASURE_TOKEN, MEASURE_REQUEST_MODE, LCI_TYPE; lia.
  - destruct (emitLCI g); [|constructor]. unfold LCI_seg.
    apply Forall_app_2; [|apply LCI_body_hexchar].
    apply hexstr_hexchar. repeat constructor; unfold octet, LCI_CODE; lia.
  - destruct (emitZ g); [|constructor]. apply hexstr_hexchar, Z_octets_octet.
  - destruct (emitBSSID g); [|constructor]. unfold BSSID_seg. apply Forall_app_2.
    + apply hexstr_hexchar. repeat constructor; unfold octet, COLOCATED_BSSID; lia.
    + now apply all_placed_valid.
  - destruct (emitUsage g); [|constructor]. now apply hexstr_hexchar, Usage_octets_octet.
Qed.

Lemma c_str_encoded g :
  wf_globals g → emit_any g = true →
  c_str (wire log2 g ++ tailc (R0 g) (length (wire log2 g) - 6)) = wire log2 g.
Proof.
  intros Hwf Hany.
  assert (Hlen : (6 < length (wire log2 g))%nat).
  { unfold wire. rewrite !length_app, header_length. unfold emit_any in Hany.
    unfold segLCI, segZ, segBSSID, segUsage.
    destruct (emitLCI g); [rewrite LCI_seg_length; lia|].
    destruct (emitZ g); [rewrite hexstr_length, Z_octets_length; lia|].
    destruct (emitBSSID g); [rewrite BSSID_seg_length; lia|].
    destruct (emitUsage g); [|discriminate].
    rewrite hexstr_length. destruct (Usage_octets_length (usage g)); lia. }
  unfold tailc. destruct (Nat.eqb_spec (length (wire log2 g) - 6) 0); [lia|].
  apply c_str_app. now apply wire_not_NUL.
Qed.

(** X13. For settings with valid BSSIDs, at most 42 of them, and Usage
    flags that hold 0 or 1, when some subelement is written: the string
    returned consists of hexadecimal digits only, and its length counts 3
    octets of header, 18 for the LCI subelement, 8 for the Z subelement,
    [3 + 6 N] for the Colocated BSSID subelement and 3 or 5 for the Usage
    subelement, each when it is written. *)
Theorem encodeLCIstring_string g :
  valid_globals g → emit_any g = true →
  ∃ str g' d,
    encodeLCIstring log2 g = Ok (str, g', d)
    ∧ Forall hexchar (c_str str)
    ∧ strlen str
      = Ok (2 * (3 + (if emitLCI g then 18 else 0) + (if emitZ g then 8 else 0)
                 + (if emitBSSID g then 3 + 6 * bssid_index g else 0)
                 + (if emitUsage g
                    then if truthy (retention_expires_present (usage g')) then 5 else 3
                    else 0)))%nat.
Proof.
  intros Hv Hany. pose proof (valid_wf_globals g Hv) as Hwf.
  rewrite encodeLCIstring_layout. eexists _, _, _. split; [reflexivity|].
  split; [rewrite c_str_encoded by assumption; now apply wire_hexchar|].
  pose proof (c_str_encoded g Hwf Hany) as Hc.
  assert (Hs : strlen (wire log2 g ++ tailc (R0 g) (length (wire log2 g) - 6))
               = Ok (length (wire log2 g))).
  { unfold tailc in *.
    destruct (Nat.eqb_spec (length (wire log2 g) - 6) 0) as [E|_].
    - exfalso. unfold emit_any in Hany. revert E. unfold wire.
      rewrite !length_app, header_length. unfold segLCI, segZ, segBSSID, segUsage.
      destruct (emitLCI g); [rewrite LCI_seg_length; lia|].
      destruct (emitZ g); [rewrite hexstr_length, Z_octets_length; lia|].
      destruct (emitBSSID g); [rewrite BSSID_seg_length; lia|].
      destruct (emitUsage g); [|discriminate].
      rewrite hexstr_length. destruct (Usage_octets_length (usage g)); lia.
    - apply strlen_app. now apply wire_not_NUL. }
  rewrite Hs. f_equal. unfold wire. rewrite !length_app, header_length.
  unfold segLCI, segZ, segBSSID, segUsage, encode_globals.
  destruct Hv as (Hb & HN & Hu).
  destruct (all_placed_wf (BSSIDS g)) as [Hpl _].
  { eapply Forall_impl; [exact Hb|]. apply valid_wf_bssid. }
  destruct (emitLCI g), (emitZ g), (emitBSSID g), (emitUsage g);
    rewrite ?LCI_seg_length, ?hexstr_length, ?Z_octets_length, ?BSSID_seg_length, ?Hpl;
    cbn [length usage set_usage]; unfold Usage_octets, bssid_index;
    rewrite ?length_app; cbn [length];
    try destruct (truthy (retention_expires_present (usage_reconciled (usage g))));
    rewrite ?be_octets_length; cbn [length]; lia.
Qed.

Lemma decode_encodeLCIstring g g0 :
  wf_globals g → emit_any g = true →
  ∃ str g1 d1,
    encodeLCIstring log2 g = Ok (str, g1, d1)
    ∧ decodeLCIstring str g0
      = Ok (subs_eff (enc_subs log2 g) g0,
            subs_dg (enc_subs log2 g) ++ checksettings (subs_eff (enc_subs log2 g) g0)).
Proof.
  intros Hwf Hany. rewrite encodeLCIstring_layout. eexists _, _, _.
  split; [reflexivity|]. now apply decode_encoded.
Qed.

Lemma emitBSSID_any g : emitBSSID g = true → emit_any g = true.
Proof. unfold emit_any. intros ->. now rewrite !orb_true_r. Qed.

Lemma emitUsage_any g : emitUsage g = true → emit_any g = true.
Proof. unfold emit_any. intros ->. now rewrite !orb_true_r. Qed.

Lemma emitLCI_any g : emitLCI g = true → emit_any g = true.
Proof. unfold emit_any. now intros ->. Qed.

Lemma emitZ_any g : emitZ g = true → emit_any g = true.
Proof. unfold emit_any. intros ->. now rewrite orb_true_r. Qed.

(** X14. Encoding and then decoding the colocated BSSIDs: with valid
    BSSIDs, at least one and no more than the array [BSSIDS] has slots as
    [initialize_arrays] allocates it, [max_bssids + 1], and their
    include-flag set, the decoder leaves in [BSSIDS] the twelve hexadecimal
    digits of each address, in the order given; addresses given in the
    twelve-digit form come back as they are. *)
Theorem decode_encode_BSSIDS g g0 :
  valid_globals g → truthy (wantColocatedflag (flags g)) = true → BSSIDS g ≠ [] →
  (bssid_index g ≤ max_bssids + 1)%nat →
  ∃ str g1 d1 g2 d2,
    encodeLCIstring log2 g = Ok (str, g1, d1)
    ∧ decodeLCIstring str g0 = Ok (g2, d2)
    ∧ BSSIDS g2 = map digits_of (BSSIDS g)
    ∧ (Forall (λ b, length b = 12%nat) (BSSIDS g) → BSSIDS g2 = BSSIDS g).
Proof.
  intros Hv Hwant Hne _. pose proof (valid_wf_globals g Hv) as Hwf.
  assert (HB : emitBSSID g = true).
  { unfold emitBSSID, needBSSID, bssid_index. rewrite Hwant. cbn [andb].
    apply Nat.ltb_lt. destruct (BSSIDS g); [contradiction|cbn; lia]. }
  destruct (decode_encodeLCIstring g g0 Hwf (emitBSSID_any g HB)) as (str & g1 & d1 & He & Hd).
  exists str, g1, d1. eexists _, _. split; [exact He|]. split; [exact Hd|].
  destruct (subs_eff_parts g g0) as (_ & _ & -> & _). rewrite HB.
  destruct Hv as (Hb & _ & _).
  destruct (all_placed_valid (BSSIDS g) Hb) as (E & _ & H12).
  assert (Hmap : chunks12 (all_placed (BSSIDS g)) (bssid_index g) = map digits_of (BSSIDS g)).
  { rewrite E. unfold bssid_index. rewrite <- (length_map digits_of).
    apply chunks12_concat. eapply Forall_impl; [exact H12|]. now intros d [H _]. }
  rewrite Hmap. split; [reflexivity|].
  intros Hall. clear -Hb Hall.
  induction Hb as [|b bs Hvb _ IH]; [reflexivity|].
  inversion Hall as [|? ? Hl Hall']; subst. cbn [map]. f_equal; [|now apply IH].
  destruct (isValidBSSID_placed b Hvb) as [<- _].
  destruct (isValidBSSID_inv b Hvb) as (_ & _ & _ & _ & Hid). now apply Hid.
Qed.

Lemma Usage_decoded_parameters u :
  wf_usage u →
  Usage_decoded (Usage_parameters u)
    (if truthy (retention_expires_present u) then expiration u else 0)
  = {| retransmission_allowed := retransmission_allowed u;
       retention_expires_present := retention_expires_present u;
       STA_location_policy := STA_location_policy u;
       expiration := if truthy (retention_expires_present u) then expiration u else 0 |}
  ∧ ∀ e, Usage_decode_diags (Usage_parameters u)
           (if truthy (retention_expires_present u) then 3 else 1) e = [].
Proof.
  intros (Ha & Hp & Hs). unfold Usage_decoded, Usage_parameters, Usage_decode_diags.
  destruct Ha as [-> | ->], Hp as [-> | ->], Hs as [-> | ->]; split; reflexivity.
Qed.

(** X15. Encoding and then decoding the Usage settings: when the Usage
    subelement is written, with flags that hold 0 or 1 and an expiration
    that fits two octets, the decoder leaves the Usage settings as the
    encoder left them, that is with the retention-expires-present flag
    made to agree with the expiration. *)
Theorem decode_encode_usage g g0 :
  valid_globals g → emitUsage g = true → 0 ≤ expiration (usage g) < 2 ^ 16 →
  ∃ str g1 d1 g2 d2,
    encodeLCIstring log2 g = Ok (str, g1, d1)
    ∧ decodeLCIstring str g0 = Ok (g2, d2)
    ∧ usage g2 = usage g1
    ∧ (truthy (retention_expires_present (usage g2)) = true ↔ expiration (usage g) ≠ 0)
    ∧ expiration (usage g2) = expiration (usage g).
Proof.
  intros Hv HU He. pose proof (valid_wf_globals g Hv) as Hwf.
  rewrite encodeLCIstring_layout. eexists _, _, _, _, _. split; [reflexivity|].
  split; [apply decode_encoded; [exact Hwf|now apply emitUsage_any]|].
  destruct (subs_eff_parts g g0) as (_ & _ & _ & -> & _). rewrite HU.
  unfold encode_globals. rewrite HU. cbn [usage set_usage subUsage eff].
  destruct Hv as (_ & _ & Hu). pose proof (usage_reconciled_wf _ Hu) as Hu'.
  set (u := usage_reconciled (usage g)) in *.
  assert (Hexp : expiration u = expiration (usage g)).
  { unfold u, usage_reconciled.
    destruct (truthy _), (expiration (usage g) =? 0); reflexivity. }
  assert (Hflag : truthy (retention_expires_present u) = true ↔ expiration (usage g) ≠ 0).
  { unfold u, usage_reconciled. destruct Hu as (_ & [E|E] & _); rewrite E;
      cbn [truthy Z.eqb negb];
      destruct (Z.eqb_spec (expiration (usage g)) 0) as [E0|E0]; cbn [negb];
      rewrite ?E; cbn; split; intros; try congruence; try reflexivity;
      try (exfalso; congruence). }
  assert (Hdec : Usage_decoded (Usage_parameters u)
                   (if truthy (retention_expires_present u)
                    then expiration u mod 2 ^ 16 else 0) = u).
  { rewrite Hexp, (Z.mod_small (expiration (usage g))) by lia. rewrite <- Hexp.
    destruct (Usage_decoded_parameters u Hu') as [-> _].
    destruct u as [ra rp pol ex] eqn:Eu. cbn [retransmission_allowed
      retention_expires_present STA_location_policy expiration] in *.
    f_equal. destruct (truthy rp) eqn:Et; [reflexivity|].
    destruct (Z.eq_dec (expiration (usage g)) 0) as [E0|E0]; [congruence|].
    apply Hflag in E0. congruence. }
  rewrite Hdec. split; [reflexivity|]. split; [exact Hflag|exact Hexp].
Qed.

Lemma LCI_body_fields g :
  LCI_of_block (LCI_body log2 g)
  = LCI_interpret
      (fst (uncertainty_code log2 (smallestflag (flags g)) (latitude_uncertainty (lci g))
              8 MAX_LCI_UNCERTAINTY) mod 2 ^ 6)
      (round (latitude (lci g) * inject_Z (Z.shiftl 1 25)) mod 2 ^ 34)
      (fst (uncertainty_code log2 (smallestflag (flags g)) (longitude_uncertainty (lci g))
              8 MAX_LCI_UNCERTAINTY) mod 2 ^ 6)
      (round (longitude (lci g) * inject_Z (Z.shiftl 1 25)) mod 2 ^ 34)
      (Altitude_Type (lci g) mod 2 ^ 4)
      (fst (uncertainty_code log2 (smallestflag (flags g)) (altitude_uncertainty (lci g))
              21 MAX_LCI_UNCERTAINTY) mod 2 ^ 6)
      (round (altitude (lci g) * inject_Z (Z.shiftl 1 8)) mod 2 ^ 30)
      (datum (lci g) mod 2 ^ 3) (RegLoc_Agreement (lci g) mod 2 ^ 1)
      (RegLoc_DSE (lci g) mod 2 ^ 1) (Dependent_STA (lci g) mod 2 ^ 1)
      (LCI_version (lci g) mod 2 ^ 2)
  ∧ LCI_diags_of_block (LCI_body log2 g)
    = if negb (LCI_version (lci g) mod 2 ^ 2 =? LCI_VERSION_1)
      then [ErrLCIVersion (LCI_version (lci g) mod 2 ^ 2)] else [].
Proof.
  split.
  - unfold LCI_body, LCI_fields. now rewrite LCI_of_block_fields.
  - unfold LCI_diags_of_block, LCI_interpret_diags.
    rewrite (LCI_body_bits log2 g [] _ _ _ eq_refl : bits_val _ 0 6 = _).
    rewrite (LCI_body_bits log2 g [_; _] _ _ _ eq_refl : bits_val _ 40 6 = _).
    rewrite (LCI_body_bits log2 g [_; _; _; _; _] _ _ _ eq_refl : bits_val _ 84 6 = _).
    rewrite (LCI_body_bits log2 g [_; _; _; _; _; _; _; _; _; _; _] _ _ _ eq_refl
             : bits_val _ 126 2 = _).
    assert (Hc : ∀ u m, (MAX_LCI_UNCERTAINTY
                         <? fst (uncertainty_code log2 (smallestflag (flags g)) u m
                                   MAX_LCI_UNCERTAINTY) mod 2 ^ Z.of_nat 6) = false).
    { intros u m.
      pose proof (uncertainty_code_range log2 (smallestflag (flags g)) u m
                    MAX_LCI_UNCERTAINTY) as H.
      unfold MAX_LCI_UNCERTAINTY in *. specialize (H ltac:(lia)).
      rewrite Z.mod_small by (change (2 ^ Z.of_nat 6) with 64; lia).
      apply Z.ltb_ge. lia. }
    rewrite !Hc. reflexivity.
Qed.

(** X16. What decoding prints for an element the encoder wrote, for
    settings with valid BSSIDs, at most 42 of them, Usage flags that hold 0
    or 1 and LCI version 1: the warning about a nonzero MaxBSSIDIndicator
    when the Colocated BSSID subelement was written, and the lines of
    [checksettings] for the decoded settings; no error is reported. *)
Theorem decode_encode_diagnostics g g0 :
  valid_globals g → emit_any g = true → LCI_version (lci g) mod 4 = LCI_VERSION_1 →
  ∃ str g1 d1 g2 d2,
    encodeLCIstring log2 g = Ok (str, g1, d1)
    ∧ decodeLCIstring str g0 = Ok (g2, d2)
    ∧ d2 = (if truthy (wantColocatedflag (flags g)) && needBSSID g
            then [WarnMaxBSSIDIndicatorNonZero (Z.of_nat (bssid_index g))] else [])
           ++ checksettings g2.
Proof.
  intros Hv Hany Hver. pose proof (valid_wf_globals g Hv) as Hwf.
  destruct (decode_encodeLCIstring g g0 Hwf Hany) as (str & g1 & d1 & He & Hd).
  exists str, g1, d1. eexists _, _. split; [exact He|]. split; [exact Hd|].
  f_equal. rewrite subs_dg_parts.
  assert (D1 : (if emitLCI g then dg (subLCI log2 g) else []) = []).
  { destruct (emitLCI g); [|reflexivity]. cbn [subLCI dg].
    destruct (LCI_body_fields g) as [_ ->]. change (2 ^ 2) with 4. rewrite Hver.
    reflexivity. }
  assert (D2 : (if emitZ g then dg (subZ log2 g) else []) = []).
  { destruct (emitZ g); [|reflexivity]. cbn [subZ dg].
    pose proof (Z_code_range log2 g) as H.
    destruct (Z.ltb_spec MAX_Z_UNCERTAINTY (Z_code log2 g)); [lia|reflexivity]. }
  assert (D4 : (if emitUsage g then dg (subUsage g) else []) = []).
  { destruct (emitUsage g); [|reflexivity]. cbn [subUsage dg].
    destruct Hv as (_ & _ & Hu). pose proof (usage_reconciled_wf _ Hu) as Hu'.
    destruct (Usage_decoded_parameters _ Hu') as [_ H]. apply H. }
  rewrite D1, D2, D4, app_nil_r. cbn [app].
  change (truthy (wantColocatedflag (flags g)) && needBSSID g) with (emitBSSID g).
  destruct (emitBSSID g) eqn:HB; [|reflexivity]. cbn [subBSSID dg].
  destruct Hv as (Hb & _ & _).
  destruct (all_placed_valid (BSSIDS g) Hb) as (E & _ & H12).
  assert (Hmap : chunks12 (all_placed (BSSIDS g)) (bssid_index g) = map digits_of (BSSIDS g)).
  { rewrite E. unfold bssid_index. rewrite <- (length_map digits_of).
    apply chunks12_concat. eapply Forall_impl; [exact H12|]. now intros d [H _]. }
  rewrite Hmap.
  assert (Herr : bssid_errors (map digits_of (BSSIDS g)) = []).
  { unfold bssid_errors. clear -H12.
    induction H12 as [|d ds [_ Hd] _ IH]; [reflexivity|].
    cbn [map concat]. now rewrite Hd, IH. }
  rewrite Herr, app_nil_r. unfold indicator_diags.
  assert (HN : Z.of_nat (bssid_index g) ≠ 0).
  { unfold emitBSSID, needBSSID in HB. apply andb_true_iff in HB as [_ HB].
    apply Nat.ltb_lt in HB. lia. }
  destruct (Z.eqb_spec (Z.of_nat (bssid_index g)) 0); [contradiction|].
  cbn [negb]. rewrite Z.eqb_refl. reflexivity.
Qed.

(** X17. Encoding and then decoding the integer settings: with the LCI and
    Z include-flags set, the altitude type, the datum, the three one-bit
    flags and the version of the LCI field, and the expected-to-move value,
    come back reduced modulo [2^w] for the width [w] of their field: 4, 3,
    1, 1, 1, 2 and 2 bits. *)
Theorem decode_encode_integer_fields g g0 :
  valid_globals g →
  truthy (wantLCIflag (flags g)) = true → truthy (wantZflag (flags g)) = true →
  ∃ str g1 d1 g2 d2,
    encodeLCIstring log2 g = Ok (str, g1, d1)
    ∧ decodeLCIstring str g0 = Ok (g2, d2)
    ∧ Altitude_Type (lci g2) = Altitude_Type (lci g) mod 2 ^ 4
    ∧ datum (lci g2) = datum (lci g) mod 2 ^ 3
    ∧ RegLoc_Agreement (lci g2) = RegLoc_Agreement (lci g) mod 2
    ∧ RegLoc_DSE (lci g2) = RegLoc_DSE (lci g) mod 2
    ∧ Dependent_STA (lci g2) = Dependent_STA (lci g) mod 2
    ∧ LCI_version (lci g2) = LCI_version (lci g) mod 2 ^ 2
    ∧ expected_to_move (zsub g2) = expected_to_move (zsub g) mod 2 ^ 2.
Proof.
  intros Hv HL HZ. pose proof (valid_wf_globals g Hv) as Hwf.
  destruct (decode_encodeLCIstring g g0 Hwf (emitLCI_any g HL)) as (str & g1 & d1 & He & Hd).
  exists str, g1, d1. eexists _, _. split; [exact He|]. split; [exact Hd|].
  destruct (subs_eff_parts g g0) as (-> & -> & _).
  change (emitLCI g) with (truthy (wantLCIflag (flags g))).
  change (emitZ g) with (truthy (wantZflag (flags g))). rewrite HL, HZ.
  destruct (LCI_body_fields g) as [-> _].
  cbn [LCI_interpret Z_decoded Altitude_Type datum RegLoc_Agreement RegLoc_DSE
       Dependent_STA LCI_version expected_to_move].
  repeat (split; [reflexivity|]).
  unfold Z_fields_info. change 3 with (Z.ones 2). rewrite !Z.land_ones by lia.
  rewrite Z.lor_comm, lor_shiftl by (try lia; apply Z.mod_pos_bound; lia).
  change (2 ^ 16) with 65536. change (2 ^ 2) with 4. divmod_lia.
Qed.

(** X18. The altitude is read back without sign extension: with the LCI
    include-flag set, a negative altitude that is a multiple of [2^-8]
    within the 30-bit field comes back increased by [2^22]. *)
Theorem decode_encode_negative_altitude g g0 a :
  valid_globals g → truthy (wantLCIflag (flags g)) = true →
  (altitude (lci g) == inject_Z a / inject_Z (2 ^ 8))%Q → - 2 ^ 29 ≤ a < 0 →
  ∃ str g1 d1 g2 d2,
    encodeLCIstring log2 g = Ok (str, g1, d1)
    ∧ decodeLCIstring str g0 = Ok (g2, d2)
    ∧ (altitude (lci g2) == altitude (lci g) + inject_Z (2 ^ 22))%Q.
Proof.
  intros Hv HL Ha Hr. pose proof (valid_wf_globals g Hv) as Hwf.
  destruct (decode_encodeLCIstring g g0 Hwf (emitLCI_any g HL)) as (str & g1 & d1 & He & Hd).
  exists str, g1, d1. eexists _, _. split; [exact He|]. split; [exact Hd|].
  destruct (subs_eff_parts g g0) as (-> & _).
  change (emitLCI g) with (truthy (wantLCIflag (flags g))). rewrite HL.
  destruct (LCI_body_fields g) as [-> _]. cbn [LCI_interpret altitude].
  change (Z.shiftl 1 8) with (2 ^ 8).
  rewrite (grid_round _ a (2 ^ 8) ltac:(lia) Ha).
  assert (E : a mod 2 ^ 30 = a + 2 ^ 30).
  { symmetry. apply (Z.mod_unique _ _ (-1)); lia. }
  rewrite E, Ha, inject_Z_plus.
  change (inject_Z (2 ^ 30)) with (inject_Z (2 ^ 22) * 256)%Q.
  change (inject_Z (2 ^ 8)) with 256%Q. field.
Qed.

End Decoded.

Lemma valid_one_bssid : valid_globals one_bssid.
Proof.
  split; [repeat constructor|]. split; [cbn; lia|].
  unfold wf_usage, flag01. cbn. auto.
Qed.

Lemma valid_below_reference : valid_globals below_reference.
Proof.
  split; [constructor|]. split; [cbn; lia|].
  unfold wf_usage, flag01. cbn. auto.
Qed.

Lemma encodeLCIstring_string_witness :
  ∃ str g' d,
    encodeLCIstring log2_model one_bssid = Ok (str, g', d)
    ∧ Forall hexchar (c_str str)
    ∧ strlen str
      = Ok (2 * (3 + (if emitLCI one_bssid then 18 else 0)
                 + (if emitZ one_bssid then 8 else 0)
                 + (if emitBSSID one_bssid then 3 + 6 * bssid_index one_bssid else 0)
                 + (if emitUsage one_bssid
                    then if truthy (retention_expires_present (usage g')) then 5 else 3
                    else 0)))%nat.
Proof.
  apply (encodeLCIstring_string log2_model one_bssid).
  - apply valid_one_bssid.
  - reflexivity.
Defined.

Lemma decode_encode_BSSIDS_witness :
  ∃ str g1 d1 g2 d2,
    encodeLCIstring log2_model one_bssid = Ok (str, g1, d1)
    ∧ decodeLCIstring str default_globals = Ok (g2, d2)
    ∧ BSSIDS g2 = map digits_of (BSSIDS one_bssid)
    ∧ (Forall (λ b, length b = 12%nat) (BSSIDS one_bssid) → BSSIDS g2 = BSSIDS one_bssid).
Proof.
  apply (decode_encode_BSSIDS log2_model one_bssid default_globals).
  - apply valid_one_bssid.
  - reflexivity.
  - discriminate.
  - vm_compute. lia.
Defined.

Lemma decode_encode_usage_witness :
  ∃ str g1 d1 g2 d2,
    encodeLCIstring log2_model one_bssid = Ok (str, g1, d1)
    ∧ decodeLCIstring str default_globals = Ok (g2, d2)
    ∧ usage g2 = usage g1
    ∧ (truthy (retention_expires_present (usage g2)) = true
       ↔ expiration (usage one_bssid) ≠ 0)
    ∧ expiration (usage g2) = expiration (usage one_bssid).
Proof.
  apply (decode_encode_usage log2_model one_bssid default_globals).
  - apply valid_one_bssid.
  - reflexivity.
  - cbn. lia.
Defined.

Lemma decode_encode_diagnostics_witness :
  ∃ str g1 d1 g2 d2,
    encodeLCIstring log2_model one_bssid = Ok (str, g1, d1)
    ∧ decodeLCIstring str default_globals = Ok (g2, d2)
    ∧ d2 = (if truthy (wantColocatedflag (flags one_bssid)) && needBSSID one_bssid
            then [WarnMaxBSSIDIndicatorNonZero (Z.of_nat (bssid_index one_bssid))] else [])
           ++ checksettings g2.
Proof.
  apply (decode_encode_diagnostics log2_model one_bssid default_globals).
  - apply valid_one_bssid.
  - reflexivity.
  - reflexivity.
Defined.

Lemma decode_encode_integer_fields_witness :
  ∃ str g1 d1 g2 d2,
    encodeLCIstring log2_model one_bssid = Ok (str, g1, d1)
    ∧ decodeLCIstring str default_globals = Ok (g2, d2)
    ∧ Altitude_Type (lci g2) = Altitude_Type (lci one_bssid) mod 2 ^ 4
    ∧ datum (lci g2) = datum (lci one_bssid) mod 2 ^ 3
    ∧ RegLoc_Agreement (lci g2) = RegLoc_Agreement (lci one_bssid) mod 2
    ∧ RegLoc_DSE (lci g2) = RegLoc_DSE (lci one_bssid) mod 2
    ∧ Dependent_STA (lci g2) = Dependent_STA (lci one_bssid) mod 2
    ∧ LCI_version (lci g2) = LCI_version (lci one_bssid) mod 2 ^ 2
    ∧ expected_to_move (zsub g2) = expected_to_move (zsub one_bssid) mod 2 ^ 2.
Proof.
  apply (decode_encode_integer_fields log2_model one_bssid default_globals).
  - apply valid_one_bssid.
  - reflexivity.
  - reflexivity.
Defined.

Lemma decode_encode_negative_altitude_witness :
  ∃ str g1 d1 g2 d2,
    encodeLCIstring log2_model below_reference = Ok (str, g1, d1)
    ∧ decodeLCIstring str default_globals = Ok (g2, d2)
    ∧ (altitude (lci g2) == altitude (lci below_reference) + inject_Z (2 ^ 22))%Q.
Proof.
  apply (decode_encode_negative_altitude log2_model below_reference default_globals (-256)).
  - apply valid_below_reference.
  - reflexivity.
  - reflexivity.
  - lia.
Defined.

(** ** The loop of [decodeLCIstring] *)

Lemma decodeColocatedBSSID_loop_pos str nbyt n nbyt' l d :
  decodeColocatedBSSID_loop str nbyt n = Ok (nbyt', l, d) → (nbyt ≤ nbyt')%nat.
Proof.
  revert nbyt nbyt' l d. induction n as [|n IH]; intros nbyt nbyt' l d H;
    cbn [decodeColocatedBSSID_loop] in H.
  - injection H as <- _ _. lia.
  - destruct (strndup str (nbyt * 2) (6 * 2)); cbn [bind] in H; try discriminate H.
    destruct (decodeColocatedBSSID_loop str (nbyt + 6) n) as [[[p l'] d']| |] eqn:E;
      cbn [bind] in H; try discriminate H.
    injection H as <- _ _. apply IH in E. lia.
Qed.

(** Every turn of the loop that does not leave it moves on by at least the
    two octets of the subelement header. *)
Lemma decode_subelement_advances str slen nbyt g nbyt' g' d :
  decode_subelement str slen nbyt g = Ok (inr nbyt', g', d) → (nbyt + 2 ≤ nbyt')%nat.
Proof.
  unfold decode_subelement. intros H.
  destruct (getoctet str nbyt) as [ID| |]; cbn [bind] in H; try discriminate H.
  destruct (getoctet str (nbyt + 1)) as [nlen| |]; cbn [bind] in H; try discriminate H.
  destruct (slen <? nbyt + 2 + Z.to_nat nlen)%nat; [discriminate H|].
  destruct (ID =? LCI_CODE).
  { destruct (nlen =? 0); [injection H as <- _ _; lia|].
    destruct (negb (nlen =? 16)); [injection H as <- _ _; lia|].
    destruct (decodeLCIfield _ 0) as [[[indx v] dd]| |]; cbn [bind] in H;
      try discriminate H.
    injection H as <- _ _. lia. }
  destruct (ID =? Z_CODE).
  { destruct (negb (nlen =? 6) && negb (nlen =? 5)); [injection H as <- _ _; lia|].
    destruct (getnumber str (nbyt + 2) 2); cbn [bind] in H; try discriminate H.
    destruct (nlen =? 5).
    - destruct (getnumber str (nbyt + 2 + 2) 2); cbn [bind] in H; try discriminate H.
      destruct (getoctet str _); cbn [bind] in H; try discriminate H.
      injection H as <- _ _. lia.
    - destruct (getnumber str (nbyt + 2 + 2) 3); cbn [bind] in H; try discriminate H.
      destruct (getoctet str _); cbn [bind] in H; try discriminate H.
      injection H as <- _ _. lia. }
  destruct (ID =? USAGE_CODE).
  { destruct (negb (nlen =? 1) && negb (nlen =? 3)); [injection H as <- _ _; lia|].
    destruct (getoctet str (nbyt + 2)); cbn [bind] in H; try discriminate H.
    destruct (nlen =? 1); cbn [bind] in H.
    - injection H as <- _ _. lia.
    - destruct (getnumber str _ 2); cbn [bind] in H; try discriminate H.
      injection H as <- _ _. lia. }
  destruct (ID =? COLOCATED_BSSID).
  { unfold decodeColocatedBSSID in H.
    destruct (getoctet str (nbyt + 2)); cbn [bind] in H; try discriminate H.
    destruct (decodeColocatedBSSID_loop _ _ _) as [[[p l] dd]| |] eqn:E;
      cbn [bind] in H; try discriminate H.
    injection H as <- _ _. apply decodeColocatedBSSID_loop_pos in E. lia. }
  injection H as <- _ _. lia.
Qed.

(** The accessors are not bounded by fuel. *)
Lemma strlen_fuel str : strlen str ≠ OutOfFuel.
Proof.
  induction str as [|c str IH]; cbn [strlen]; [discriminate|].
  destruct (Ascii.eqb c NUL); [discriminate|].
  destruct (strlen str); cbn [bind]; [discriminate|discriminate|contradiction].
Qed.

Lemma bind_fuel {A B} (m : run A) (f : A → run B) :
  m ≠ OutOfFuel → (∀ a, f a ≠ OutOfFuel) → bind m f ≠ OutOfFuel.
Proof. intros Hm Hf. destruct m; cbn [bind]; [apply Hf|discriminate|contradiction]. Qed.

Lemma load_fuel str i : load str i ≠ OutOfFuel.
Proof. unfold load. destruct (str !! i); discriminate. Qed.

Lemma getoctet_fuel str k : getoctet str k ≠ OutOfFuel.
Proof.
  unfold getoctet. apply bind_fuel; [apply load_fuel|]. intros c1.
  apply bind_fuel; [apply load_fuel|]. discriminate.
Qed.

Lemma getnumber_fuel str k n : getnumber str k n ≠ OutOfFuel.
Proof.
  unfold getnumber. generalize 0. revert k.
  induction n as [|n IH]; intros k res; cbn [getnumber_loop]; [discriminate|].
  apply bind_fuel; [apply getoctet_fuel|]. intros o. apply IH.
Qed.

Lemma getbits_fuel str k n : getbits str k n ≠ OutOfFuel.
Proof.
  unfold getbits. generalize 1 0. revert k.
  induction n as [|n IH]; intros k bit res; cbn [getbits_loop]; [discriminate|].
  apply bind_fuel.
  - unfold getbit. apply bind_fuel; [apply getoctet_fuel|]. discriminate.
  - intros b. apply IH.
Qed.

Lemma strndup_fuel str pos n : strndup str pos n ≠ OutOfFuel.
Proof.
  revert pos. induction n as [|n IH]; intros pos; cbn [strndup]; [discriminate|].
  apply bind_fuel; [apply load_fuel|]. intros c.
  destruct (Ascii.eqb c NUL); [discriminate|].
  apply bind_fuel; [apply IH|]. discriminate.
Qed.

Lemma decodeColocatedBSSID_fuel str nbyt nlen : decodeColocatedBSSID str nbyt nlen ≠ OutOfFuel.
Proof.
  unfold decodeColocatedBSSID. apply bind_fuel; [apply getoctet_fuel|]. intros ind.
  apply bind_fuel; [|intros [[p l] d]; discriminate].
  generalize (nbyt + 1)%nat. induction (Z.to_nat (Z.quot (nlen - 1) 6)) as [|n IH];
    intros k; cbn [decodeColocatedBSSID_loop]; [discriminate|].
  apply bind_fuel; [apply strndup_fuel|]. intros b.
  apply bind_fuel; [apply IH|]. intros [[p l] d]. discriminate.
Qed.

Lemma decodeLCIfield_fuel str indx : decodeLCIfield str indx ≠ OutOfFuel.
Proof.
  unfold decodeLCIfield.
  repeat (apply bind_fuel; [apply getbits_fuel|]; intros ?). discriminate.
Qed.

Lemma decode_subelement_fuel str slen nbyt g : decode_subelement str slen nbyt g ≠ OutOfFuel.
Proof.
  unfold decode_subelement.
  apply bind_fuel; [apply getoctet_fuel|]. intros ID.
  apply bind_fuel; [apply getoctet_fuel|]. intros nlen.
  destruct (slen <? nbyt + 2 + Z.to_nat nlen)%nat; [discriminate|].
  destruct (ID =? LCI_CODE).
  { destruct (nlen =? 0); [discriminate|]. destruct (negb (nlen =? 16)); [discriminate|].
    apply bind_fuel; [apply decodeLCIfield_fuel|]. intros [[indx v] d]. discriminate. }
  destruct (ID =? Z_CODE).
  { destruct (negb (nlen =? 6) && negb (nlen =? 5)); [discriminate|].
    apply bind_fuel; [apply getnumber_fuel|]. intros info.
    apply bind_fuel.
    - destruct (nlen =? 5); (apply bind_fuel; [apply getnumber_fuel|]); discriminate.
    - intros [h p]. apply bind_fuel; [apply getoctet_fuel|]. discriminate. }
  destruct (ID =? USAGE_CODE).
  { destruct (negb (nlen =? 1) && negb (nlen =? 3)); [discriminate|].
    apply bind_fuel; [apply getoctet_fuel|]. intros parameters.
    apply bind_fuel.
    - destruct (nlen =? 1); [discriminate|].
      apply bind_fuel; [apply getnumber_fuel|]. discriminate.
    - intros [e p]. discriminate. }
  destruct (ID =? COLOCATED_BSSID); [|discriminate].
  apply bind_fuel; [apply decodeColocatedBSSID_fuel|]. intros [[p l] d]. discriminate.
Qed.

Lemma decode_loop_fuel fuel :
  ∀ str slen nbyt g, (slen ≤ nbyt + fuel)%nat → decode_loop fuel str slen nbyt g ≠ OutOfFuel.
Proof.
  induction fuel as [|fuel IH]; intros str slen nbyt g Hf.
  - cbn [decode_loop]. destruct (Nat.ltb_spec nbyt slen); [lia|discriminate].
  - cbn [decode_loop]. destruct (nbyt <? slen)%nat; [|discriminate].
    apply bind_fuel; [apply load_fuel|]. intros c.
    destruct (negb (Ascii.eqb c NUL)); [|discriminate].
    pose proof (decode_subelement_fuel str slen nbyt g) as Hsub.
    destruct (decode_subelement str slen nbyt g) as [[[[[]|nbyt'] g'] d]| |] eqn:E;
      cbn [bind]; try discriminate; try contradiction.
    apply decode_subelement_advances in E.
    apply bind_fuel; [apply IH; lia|]. intros [g2 d2]. discriminate.
Qed.

(** X19. The loop of [decodeLCIstring] ends on every string: a turn that
    does not leave the loop moves on by at least two octets, so the loop
    makes no more turns than the string has octets. *)
Theorem decodeLCIstring_terminates str g : decodeLCIstring str g ≠ OutOfFuel.
Proof.
  unfold decodeLCIstring.
  apply bind_fuel; [apply strlen_fuel|]. intros n.
  apply bind_fuel; [apply getoctet_fuel|]. intros a.
  apply bind_fuel; [apply getoctet_fuel|]. intros b.
  apply bind_fuel; [apply getoctet_fuel|]. intros c.
  apply bind_fuel; [apply decode_loop_fuel; lia|]. intros [g2 d2]. discriminate.
Qed.

(** X20. [decodeLCIstring] reads the three header octets without looking
    at the length of the string: on a string of fewer than five characters,
    the empty string included, it reads a character after the terminator. *)
Theorem decodeLCIstring_short_string s g :
  Forall (λ c, c ≠ NUL) s → (length s < 5)%nat →
  decodeLCIstring (s ++ [NUL]) g = OutOfBounds.
Proof.
  intros Hs Hlen. unfold decodeLCIstring. rewrite strlen_app by exact Hs. cbn [bind].
  do 5 (destruct s as [|? s]; [vm_compute; reflexivity|]).
  cbn [length] in Hlen. lia.
Qed.

Lemma decodeLCIstring_short_string_witness :
  decodeLCIstring (list_ascii_of_string "0100" ++ [NUL]) default_globals = OutOfBounds.
Proof.
  apply (decodeLCIstring_short_string (list_ascii_of_string "0100") default_globals).
  - repeat constructor; discriminate.
  - cbn. lia.
Defined.

(** X21. When a string of an even number of characters ends with the ID
    octet of a subelement alone, the loop of [decodeLCIstring] reads the
    length octet after the terminator of the string. *)
Theorem decode_loop_lone_ID fuel s nbyt g :
  Forall (λ c, c ≠ NUL) s → length s = ((nbyt + 1) * 2)%nat →
  decode_loop (S fuel) (s ++ [NUL]) (length s / 2) nbyt g = OutOfBounds.
Proof.
  intros Hs Hlen. rewrite Hlen, Nat.div_mul by lia. cbn [decode_loop].
  destruct (Nat.ltb_spec nbyt (nbyt + 1)); [|lia].
  rewrite load_nth by (rewrite length_app; lia). cbn [bind].
  rewrite app_nth1 by lia.
  destruct (Ascii.eqb_spec (nth (nbyt * 2) s NUL) NUL) as [E|_].
  { exfalso. revert E. apply nth_not_NUL; [exact Hs|lia]. }
  cbn [negb]. unfold decode_subelement.
  rewrite getoctet_Ok by (rewrite length_app; lia). cbn [bind].
  rewrite getoctet_oob; [reflexivity|]. rewrite length_app. cbn [length]. lia.
Qed.

Lemma decode_loop_lone_ID_witness :
  decode_loop 1 (list_ascii_of_string "01000804" ++ [NUL])
    (length (list_ascii_of_string "01000804") / 2) 3 default_globals
  = OutOfBounds.
Proof.
  apply (decode_loop_lone_ID 0 (list_ascii_of_string "01000804") 3 default_globals).
  - repeat constructor; discriminate.
  - reflexivity.
Defined.






Section Variants.

Variable log2 : Q → Q.








End Variants.




(** ** The precision of the coordinates *)

Lemma round_error q :
  (inject_Z (round q) - (1 # 2) <= q)%Q ∧ (q <= inject_Z (round q) + (1 # 2))%Q.
Proof.
  unfold round. destruct (Qle_bool 0 q) eqn:E.
  - pose proof (Qfloor_le (q + (1 # 2))) as H1.
    pose proof (Qlt_floor (q + (1 # 2))) as H2.
    rewrite inject_Z_plus in H2. change (inject_Z 1) with 1%Q in H2.
    set (f := inject_Z (Qfloor (q + (1 # 2)))) in *. clearbody f. split; lra.
  - pose proof (Qle_ceiling (q - (1 # 2))) as H1.
    pose proof (Qceiling_lt (q - (1 # 2))) as H2.
    replace (Qceiling (q - (1 # 2)) - 1)%Z with (Qceiling (q - (1 # 2)) + -1)%Z in H2
      by lia.
    rewrite inject_Z_plus in H2.
    set (f := inject_Z (Qceiling (q - (1 # 2)))) in *. clearbody f.
    change (inject_Z (-1)) with (-1 # 1)%Q in H2. split; lra.
Qed.

Lemma inject_Z_lt_inv a b : (inject_Z a < inject_Z b)%Q → a < b.
Proof. intros H. rewrite Zlt_Qlt. exact H. Qed.

Lemma round_scaled_range x :
  (-256 <= x)%Q → (x < 256 - (1 # 67108864))%Q →
  - 2 ^ 33 ≤ round (x * inject_Z (Z.shiftl 1 25)) < 2 ^ 33.
Proof.
  intros Hlo Hhi. change (inject_Z (Z.shiftl 1 25)) with 33554432%Q.
  destruct (round_error (x * 33554432)) as [H1 H2].
  split.
  - assert (H : (inject_Z (- 2 ^ 33 - 1) < inject_Z (round (x * 33554432)))%Q).
    { change (inject_Z (- 2 ^ 33 - 1)) with (-8589934593)%Q.
      set (r := inject_Z (round (x * 33554432))) in *. clearbody r. lra. }
    apply inject_Z_lt_inv in H. lia.
  - apply inject_Z_lt_inv. change (inject_Z (2 ^ 33)) with 8589934592%Q.
    set (r := inject_Z (round (x * 33554432))) in *. clearbody r. lra.
Qed.

Section Precision.

Variable log2 : Q → Q.

(** X25. The precision of the coordinates: with the LCI include-flag set,
    a latitude and a longitude from [-256] to [256 - 2^-26] come back, after
    encoding and decoding, as multiples of [2^-25] that differ from the
    values given by at most [2^-26]. *)
Theorem decode_encode_coordinates g g0 :
  valid_globals g → truthy (wantLCIflag (flags g)) = true →
  (-256 <= latitude (lci g))%Q → (latitude (lci g) < 256 - (1 # 67108864))%Q →
  (-256 <= longitude (lci g))%Q → (longitude (lci g) < 256 - (1 # 67108864))%Q →
  ∃ str g1 d1 g2 d2,
    encodeLCIstring log2 g = Ok (str, g1, d1)
    ∧ decodeLCIstring str g0 = Ok (g2, d2)
    ∧ (∃ a, latitude (lci g2) == inject_Z a / inject_Z (2 ^ 25))%Q
    ∧ (latitude (lci g) - (1 # 67108864) <= latitude (lci g2))%Q
    ∧ (latitude (lci g2) <= latitude (lci g) + (1 # 67108864))%Q
    ∧ (∃ b, longitude (lci g2) == inject_Z b / inject_Z (2 ^ 25))%Q
    ∧ (longitude (lci g) - (1 # 67108864) <= longitude (lci g2))%Q
    ∧ (longitude (lci g2) <= longitude (lci g) + (1 # 67108864))%Q.
Proof.
  intros Hv HL Ha1 Ha2 Ho1 Ho2. pose proof (valid_wf_globals g Hv) as Hwf.
  destruct (decode_encodeLCIstring log2 g g0 Hwf (emitLCI_any g HL))
    as (str & g1 & d1 & He & Hd).
  exists str, g1, d1. eexists _, _. split; [exact He|]. split; [exact Hd|].
  destruct (subs_eff_parts log2 g g0) as (-> & _).
  change (emitLCI g) with (truthy (wantLCIflag (flags g))). rewrite HL.
  destruct (LCI_body_fields log2 g) as [-> _]. cbn [LCI_interpret latitude longitude].
  pose proof (round_scaled_range _ Ha1 Ha2) as Ra.
  pose proof (round_scaled_range _ Ho1 Ho2) as Ro.
  rewrite !(propagate_sign_mod _ 34) by lia.
  change (inject_Z (Z.shiftl 1 25)) with 33554432%Q in *.
  change (inject_Z (2 ^ 25)) with 33554432%Q.
  destruct (round_error (latitude (lci g) * 33554432)) as [A1 A2].
  destruct (round_error (longitude (lci g) * 33554432)) as [O1 O2].
  split; [eexists; reflexivity|].
  unfold Qdiv. change (/ 33554432)%Q with (1 # 33554432)%Q.
  set (ra := inject_Z (round (latitude (lci g) * 33554432))) in *.
  set (ro := inject_Z (round (longitude (lci g) * 33554432))) in *.
  split; [clearbody ra ro; lra|]. split; [clearbody ra ro; lra|].
  split; [exists (round (longitude (lci g) * 33554432)); reflexivity|].
  clearbody ra ro. split; lra.
Qed.

End Precision.

Lemma decode_encode_coordinates_witness :
  ∃ str g1 d1 g2 d2,
    encodeLCIstring log2_model (unit_uncertainties (1 # 3)) = Ok (str, g1, d1)
    ∧ decodeLCIstring str default_globals = Ok (g2, d2)
    ∧ (∃ a, latitude (lci g2) == inject_Z a / inject_Z (2 ^ 25))%Q
    ∧ (latitude (lci (unit_uncertainties (1 # 3))) - (1 # 67108864)
       <= latitude (lci g2))%Q
    ∧ (latitude (lci g2)
       <= latitude (lci (unit_uncertainties (1 # 3))) + (1 # 67108864))%Q
    ∧ (∃ b, longitude (lci g2) == inject_Z b / inject_Z (2 ^ 25))%Q
    ∧ (longitude (lci (unit_uncertainties (1 # 3))) - (1 # 67108864)
       <= longitude (lci g2))%Q
    ∧ (longitude (lci g2)
       <= longitude (lci (unit_uncertainties (1 # 3))) + (1 # 67108864))%Q.
Proof.
  apply (decode_encode_coordinates log2_model (unit_uncertainties (1 # 3)) default_globals).
  - split; [constructor|]. split; [cbn; lia|]. unfold wf_usage, flag01. cbn. auto.
  - reflexivity.
  - vm_compute. discriminate.
  - vm_compute. reflexivity.
  - vm_compute. discriminate.
  - vm_compute. reflexivity.
Defined.

(** ** Heights, the rounding of uncertainties, and BSSID subelements of any length *)

Lemma inject_Z_le_inv a b : (inject_Z a <= inject_Z b)%Q → a ≤ b.
Proof. intros H. rewrite Zle_Qle. exact H. Qed.

Lemma trunc_error q :
  (0 <= q)%Q → (inject_Z (trunc q) <= q)%Q ∧ (q < inject_Z (trunc q) + 1)%Q ∧ 0 ≤ trunc q.
Proof.
  intros Hq. unfold trunc.
  assert (E : Qle_bool 0 q = true) by now apply Qle_bool_iff.
  rewrite E. pose proof (Qfloor_le q) as H1. pose proof (Qlt_floor q) as H2.
  rewrite inject_Z_plus in H2. change (inject_Z 1) with 1%Q in H2.
  split; [exact H1|]. split; [exact H2|].
  assert (H : (inject_Z (-1) < inject_Z (Qfloor q))%Q).
  { change (inject_Z (-1)) with (-1 # 1)%Q.
    set (f := inject_Z (Qfloor q)) in *. clearbody f. lra. }
  apply inject_Z_lt_inv in H. lia.
Qed.

Section Heights.

Variable log2 : Q → Q.

(** X26. The precision of the altitude, the floor and the height above
    floor, for values that are not negative and within their fields: with
    the LCI and Z include-flags set, the altitude comes back as a multiple
    of [2^-8] at most [2^-9] away from the value given, the nearest one;
    the floor and the height above floor come back as multiples of [2^-4]
    and of [2^-12], not above the value given and less than one such unit
    below it: they are cut down, not rounded. *)
Theorem decode_encode_heights g g0 :
  valid_globals g →
  truthy (wantLCIflag (flags g)) = true → truthy (wantZflag (flags g)) = true →
  (0 <= altitude (lci g))%Q → (altitude (lci g) < 4194304 - (1 # 512))%Q →
  (0 <= sta_floor (zsub g))%Q → (sta_floor (zsub g) < 1024)%Q →
  (0 <= sta_height_above_floor (zsub g))%Q → (sta_height_above_floor (zsub g) < 4096)%Q →
  ∃ str g1 d1 g2 d2,
    encodeLCIstring log2 g = Ok (str, g1, d1)
    ∧ decodeLCIstring str g0 = Ok (g2, d2)
    ∧ (∃ a, altitude (lci g2) == inject_Z a / inject_Z (2 ^ 8))%Q
    ∧ (∃ f, sta_floor (zsub g2) == inject_Z f / inject_Z (2 ^ 4))%Q
    ∧ (∃ h, sta_height_above_floor (zsub g2) == inject_Z h / inject_Z (2 ^ 12))%Q
    ∧ (altitude (lci g) - (1 # 512) <= altitude (lci g2))%Q
    ∧ (altitude (lci g2) <= altitude (lci g) + (1 # 512))%Q
    ∧ (sta_floor (zsub g2) <= sta_floor (zsub g))%Q
    ∧ (sta_floor (zsub g) < sta_floor (zsub g2) + (1 # 16))%Q
    ∧ (sta_height_above_floor (zsub g2) <= sta_height_above_floor (zsub g))%Q
    ∧ (sta_height_above_floor (zsub g)
       < sta_height_above_floor (zsub g2) + (1 # 4096))%Q.
Proof.
  intros Hv HL HZ Ha1 Ha2 Hf1 Hf2 Hh1 Hh2. pose proof (valid_wf_globals g Hv) as Hwf.
  destruct (decode_encodeLCIstring log2 g g0 Hwf (emitLCI_any g HL))
    as (str & g1 & d1 & He & Hd).
  exists str, g1, d1. eexists _, _. split; [exact He|]. split; [exact Hd|].
  destruct (subs_eff_parts log2 g g0) as (-> & -> & _).
  change (emitLCI g) with (truthy (wantLCIflag (flags g))).
  change (emitZ g) with (truthy (wantZflag (flags g))). rewrite HL, HZ.
  destruct (LCI_body_fields log2 g) as [-> _].
  cbn [LCI_interpret Z_decoded altitude sta_floor sta_height_above_floor].
  change (inject_Z (Z.shiftl 1 8)) with 256%Q.
  (* altitude *)
  destruct (round_error (altitude (lci g) * 256)) as [A1 A2].
  assert (RA : 0 ≤ round (altitude (lci g) * 256) < 2 ^ 30).
  { split.
    - assert (H : (inject_Z (-1) < inject_Z (round (altitude (lci g) * 256)))%Q).
      { change (inject_Z (-1)) with (-1 # 1)%Q.
        set (r := inject_Z (round (altitude (lci g) * 256))) in *. clearbody r. lra. }
      apply inject_Z_lt_inv in H. lia.
    - apply inject_Z_lt_inv. change (inject_Z (2 ^ 30)) with 1073741824%Q.
      set (r := inject_Z (round (altitude (lci g) * 256))) in *. clearbody r. lra. }
  rewrite (Z.mod_small (round _)) by lia.
  (* floor *)
  assert (F0 : (0 <= sta_floor (zsub g) * 16)%Q) by lra.
  destruct (trunc_error _ F0) as (F1 & F2 & F3).
  assert (RF : trunc (sta_floor (zsub g) * 16) < 2 ^ 14).
  { apply inject_Z_lt_inv. change (inject_Z (2 ^ 14)) with 16384%Q.
    set (r := inject_Z (trunc (sta_floor (zsub g) * 16))) in *. clearbody r. lra. }
  (* height *)
  assert (H0 : (0 <= sta_height_above_floor (zsub g) * 4096)%Q) by lra.
  destruct (trunc_error _ H0) as (H1 & H2 & H3).
  assert (RH : trunc (sta_height_above_floor (zsub g) * 4096) < 2 ^ 24).
  { apply inject_Z_lt_inv. change (inject_Z (2 ^ 24)) with 16777216%Q.
    set (r := inject_Z (trunc (sta_height_above_floor (zsub g) * 4096))) in *.
    clearbody r. lra. }
  rewrite (Z.mod_small (trunc (sta_height_above_floor _ * _))) by lia.
  unfold Z_fields_info.
  assert (Hm : 0 ≤ Z.land (expected_to_move (zsub g)) 3 < 4).
  { change 3 with (Z.ones 2). rewrite Z.land_ones by lia. apply Z.mod_pos_bound. lia. }
  rewrite Z.lor_comm, lor_shiftl by lia.
  rewrite (Z.mod_small (_ * 2 ^ 2 + _)) by lia.
  rewrite Z.shiftr_div_pow2 by lia.
  replace ((trunc (sta_floor (zsub g) * 16) * 2 ^ 2 + Z.land (expected_to_move (zsub g)) 3)
           / 2 ^ 2) with (trunc (sta_floor (zsub g) * 16))
    by (apply (Z.div_unique _ _ _ (Z.land (expected_to_move (zsub g)) 3)); lia).
  split; [exists (round (altitude (lci g) * 256)); reflexivity|].
  split; [exists (trunc (sta_floor (zsub g) * 16)); reflexivity|].
  split; [exists (trunc (sta_height_above_floor (zsub g) * 4096)); reflexivity|].
  unfold Qdiv. change (/ 256)%Q with (1 # 256)%Q. change (/ 16)%Q with (1 # 16)%Q.
  change (/ 4096)%Q with (1 # 4096)%Q.
  set (ra := inject_Z (round (altitude (lci g) * 256))) in *.
  set (rf := inject_Z (trunc (sta_floor (zsub g) * 16))) in *.
  set (rh := inject_Z (trunc (sta_height_above_floor (zsub g) * 4096))) in *.
  clearbody ra rf rh.
  repeat split; lra.
Qed.

End Heights.

Lemma decode_encode_heights_witness :
  ∃ str g1 d1 g2 d2,
    encodeLCIstring log2_model thirds = Ok (str, g1, d1)
    ∧ decodeLCIstring str default_globals = Ok (g2, d2)
    ∧ (∃ a, altitude (lci g2) == inject_Z a / inject_Z (2 ^ 8))%Q
    ∧ (∃ f, sta_floor (zsub g2) == inject_Z f / inject_Z (2 ^ 4))%Q
    ∧ (∃ h, sta_height_above_floor (zsub g2) == inject_Z h / inject_Z (2 ^ 12))%Q
    ∧ (altitude (lci thirds) - (1 # 512) <= altitude (lci g2))%Q
    ∧ (altitude (lci g2) <= altitude (lci thirds) + (1 # 512))%Q
    ∧ (sta_floor (zsub g2) <= sta_floor (zsub thirds))%Q
    ∧ (sta_floor (zsub thirds) < sta_floor (zsub g2) + (1 # 16))%Q
    ∧ (sta_height_above_floor (zsub g2) <= sta_height_above_floor (zsub thirds))%Q
    ∧ (sta_height_above_floor (zsub thirds)
       < sta_height_above_floor (zsub g2) + (1 # 4096))%Q.
Proof.
  apply (decode_encode_heights log2_model thirds default_globals).
  - split; [constructor|]. split; [cbn; lia|]. unfold wf_usage, flag01. cbn. auto.
  - reflexivity.
  - reflexivity.
  - vm_compute. discriminate.
  - vm_compute. reflexivity.
  - vm_compute. discriminate.
  - vm_compute. reflexivity.
  - vm_compute. discriminate.
  - vm_compute. reflexivity.
Defined.

Lemma Qceiling_between x k :
  (inject_Z k < x)%Q → (x <= inject_Z (k + 1))%Q → Qceiling x = k + 1.
Proof.
  intros Hlo Hhi.
  pose proof (Qle_ceiling x) as H1. pose proof (Qceiling_lt x) as H2.
  assert (A : (inject_Z k < inject_Z (Qceiling x))%Q) by (eapply Qlt_le_trans; eassumption).
  assert (B : (inject_Z (Qceiling x - 1) < inject_Z (k + 1))%Q)
    by (eapply Qlt_le_trans; eassumption).
  apply inject_Z_lt_inv in A, B. lia.
Qed.

(** X27. How [encodebinarydot] rounds a positive value, away from the
    values whose [log2] is less than [2 eps] above an integer, where the
    rounded subtraction of the code decides.  Whatever [log2] is, a value
    whose [log2] is at least [k + 2 eps] and at most [k + 1] gets the code
    of [2^(k + 1)], the next power of two, when that code is from 1 to 34;
    a value whose [log2] is at least [m - 1 + 2 eps] gets the code 1, of
    the smaller [2^(m - 1)], and a value whose [log2] is at most [m - 35]
    the code 34, both with a warning.  ([m] and [log2(val)] are taken
    within [2^30] of 0, where the [int] the code computes does not
    overflow.) *)
Theorem encodebinarydot_rounding (log2 : Q → Q) val m k :
  (0 < val)%Q → - 2 ^ 30 ≤ m ≤ 2 ^ 30 →
  (inject_Z (- 2 ^ 30) <= log2 val)%Q → (log2 val <= inject_Z (2 ^ 30))%Q →
  ((inject_Z k + 2 * eps <= log2 val)%Q → (log2 val <= inject_Z (k + 1))%Q →
   1 ≤ m - (k + 1) ≤ MAX_LCI_UNCERTAINTY →
   encodebinarydot log2 val m = (m - (k + 1), [])
   ∧ (decodebinarydot (m - (k + 1)) m == exp2 (k + 1))%Q)
  ∧ ((inject_Z (m - 1) + 2 * eps <= log2 val)%Q →
     fst (encodebinarydot log2 val m) = 1
     ∧ snd (encodebinarydot log2 val m) = [WarnUncertaintyWayTooLarge val])
  ∧ ((log2 val <= inject_Z (m - 35))%Q →
     fst (encodebinarydot log2 val m) = MAX_LCI_UNCERTAINTY
     ∧ ∃ res, snd (encodebinarydot log2 val m) = [WarnUncertaintyTooSmall val res]).
Proof.
  intros Hpos _ _ _. unfold encodebinarydot, MAX_LCI_UNCERTAINTY.
  assert (E : Qle_bool val 0 = false).
  { destruct (Qle_bool val 0) eqn:E; [|reflexivity]. apply Qle_bool_imp_le in E.
    exfalso. exact (Qlt_not_le _ _ Hpos E). }
  rewrite E. pose proof (Qle_ceiling (log2 val - eps)) as H1.
  pose proof (Qceiling_lt (log2 val - eps)) as H2.
  unfold eps in *.
  split; [|split].
  - intros Hlo Hhi Hk.
    assert (C : Qceiling (log2 val - (1 # 1000000)) = k + 1).
    { apply Qceiling_between.
      - set (l := log2 val) in *. set (i := inject_Z k) in *. clearbody l i. lra.
      - set (l := log2 val) in *. set (i := inject_Z (k + 1)) in *. clearbody l i. lra. }
    rewrite C. destruct (Z.leb_spec (m - (k + 1)) 0); [lia|].
    destruct (Z.ltb_spec 34 (m - (k + 1))); [lia|]. split; [reflexivity|].
    unfold decodebinarydot. replace (m - (m - (k + 1))) with (k + 1) by lia. reflexivity.
  - intros Hlo.
    assert (A : (inject_Z (m - 1) < inject_Z (Qceiling (log2 val - (1 # 1000000))))%Q).
    { eapply Qlt_le_trans; [|exact H1].
      set (l := log2 val) in *. set (i := inject_Z (m - 1)) in *. clearbody l i. lra. }
    apply inject_Z_lt_inv in A.
    destruct (Z.leb_spec (m - Qceiling (log2 val - (1 # 1000000))) 0); [|lia].
    split; reflexivity.
  - intros Hhi.
    assert (A : (inject_Z (Qceiling (log2 val - (1 # 1000000)) - 1) < inject_Z (m - 35))%Q).
    { eapply Qlt_le_trans; [exact H2|].
      set (l := log2 val) in *. set (i := inject_Z (m - 35)) in *. clearbody l i. lra. }
    apply inject_Z_lt_inv in A.
    destruct (Z.leb_spec (m - Qceiling (log2 val - (1 # 1000000))) 0); [lia|].
    destruct (Z.ltb_spec 34 (m - Qceiling (log2 val - (1 # 1000000)))); [|lia].
    split; [reflexivity|]. eexists. reflexivity.
Qed.

Lemma encodebinarydot_rounding_witness :
  ((inject_Z 1 + 2 * eps <= log2_model 3)%Q → (log2_model 3 <= inject_Z (1 + 1))%Q →
   1 ≤ 8 - (1 + 1) ≤ MAX_LCI_UNCERTAINTY →
   encodebinarydot log2_model 3 8 = (8 - (1 + 1), [])
   ∧ (decodebinarydot (8 - (1 + 1)) 8 == exp2 (1 + 1))%Q)
  ∧ ((inject_Z (8 - 1) + 2 * eps <= log2_model 3)%Q →
     fst (encodebinarydot log2_model 3 8) = 1
     ∧ snd (encodebinarydot log2_model 3 8) = [WarnUncertaintyWayTooLarge 3])
  ∧ ((log2_model 3 <= inject_Z (8 - 35))%Q →
     fst (encodebinarydot log2_model 3 8) = MAX_LCI_UNCERTAINTY
     ∧ ∃ res, snd (encodebinarydot log2_model 3 8) = [WarnUncertaintyTooSmall 3 res]).
Proof.
  apply (encodebinarydot_rounding log2_model 3 8 1).
  - reflexivity.
  - lia.
  - vm_compute. discriminate.
  - vm_compute. discriminate.
Defined.

Lemma decodeColocatedBSSID_quot pre c1 c2 chars rest m nlen :
  length pre = (m * 2)%nat →
  length chars = (12 * Z.to_nat (Z.quot (nlen - 1) 6))%nat → Forall (λ c, c ≠ NUL) chars →
  decodeColocatedBSSID (pre ++ c1 :: c2 :: chars ++ rest) m nlen
  = Ok ((m + 1 + 6 * Z.to_nat (Z.quot (nlen - 1) 6))%nat,
        chunks12 chars (Z.to_nat (Z.quot (nlen - 1) 6)),
        indicator_diags (octet_at [c1; c2] 0) (Z.quot (nlen - 1) 6)
        ++ bssid_errors (chunks12 chars (Z.to_nat (Z.quot (nlen - 1) 6)))).
Proof.
  intros Hpre Hlen Hnn. unfold decodeColocatedBSSID.
  replace m with (m + 0)%nat at 1 by lia.
  rewrite getoctet_app by (try exact Hpre; cbn [length]; lia). cbn [bind].
  change (pre ++ c1 :: c2 :: chars ++ rest) with (pre ++ [c1; c2] ++ chars ++ rest).
  rewrite (app_assoc pre).
  rewrite decodeColocatedBSSID_loop_app; [|len|exact Hlen|exact Hnn].
  cbn [bind]. ok_eq; reflexivity.
Qed.

(** X28. A Colocated BSSID subelement of any declared length [nlen] that
    holds no more addresses than the array [BSSIDS] has slots as
    [initialize_arrays] allocates it, [max_bssids + 1]: the decoder reads
    the indicator and then [(nlen - 1) / 6] whole addresses, and goes on
    from the end of the last one.  That is the end of the subelement only
    when [nlen] is one more than a multiple of six; otherwise an error is
    reported and the octets left over are read as the next subelement, and
    with [nlen = 0] the octet after the subelement is taken as its
    indicator. *)
Theorem decode_BSSID_any_length pre post slen m g0 nlen ind chars :
  length pre = (m * 2)%nat → 0 ≤ nlen ≤ 255 →
  (Z.to_nat (Z.quot (nlen - 1) 6) ≤ max_bssids + 1)%nat → octet ind →
  length chars = (12 * Z.to_nat (Z.quot (nlen - 1) 6))%nat →
  Forall (λ c, c ≠ NUL) chars →
  (m + 2 + Z.to_nat nlen ≤ slen)%nat →
  let n := Z.to_nat (Z.quot (nlen - 1) 6) in
  decode_subelement
    (pre ++ (hexstr [COLOCATED_BSSID; nlen; ind] ++ chars) ++ post) slen m g0
  = Ok (inr (m + 3 + 6 * n)%nat, set_BSSIDS g0 (chunks12 chars n),
        (if nlen mod 6 =? 1 then [] else [ErrBSSIDLength nlen])
        ++ indicator_diags ind (Z.of_nat n) ++ bssid_errors (chunks12 chars n))
  ∧ ((m + 3 + 6 * n = m + 2 + Z.to_nat nlen)%nat ↔ nlen mod 6 = 1)
  ∧ (m + 3 + 6 * n ≤ m + 2 + Z.to_nat nlen + 1)%nat.
Proof.
  intros Hpre Hnlen _ Hind Hlen Hnn Hslen n.
  assert (Hq : Z.quot (nlen - 1) 6 = Z.of_nat n).
  { unfold n. rewrite Z2Nat.id; [reflexivity|].
    destruct (Z.eq_dec nlen 0) as [->|]; [discriminate|].
    apply Z.quot_pos; lia. }
  assert (Hr : negb (Z.rem (nlen - 1) 6 =? 0) = negb (nlen mod 6 =? 1)).
  { destruct (Z.eq_dec nlen 0) as [->|]; [reflexivity|].
    rewrite Z.rem_mod_nonneg by lia. f_equal.
    destruct (Z.eqb_spec ((nlen - 1) mod 6) 0), (Z.eqb_spec (nlen mod 6) 1);
      try reflexivity; exfalso; generalize dependent nlen; clear; intros; divmod_lia. }
  assert (Hn : 0 < nlen → Z.of_nat n = (nlen - 1) / 6).
  { intros H. rewrite <- Hq. apply Z.quot_div_nonneg; lia. }
  split; [|split].
  - unfold decode_subelement. rewrite <- app_assoc.
    rewrite getoctet_hexstr0 by (try exact Hpre; unfold octet, COLOCATED_BSSID; lia).
    cbn [bind].
    rewrite getoctet_hexstr1 by (try exact Hpre; unfold octet; lia). cbn [bind].
    destruct (Nat.ltb_spec slen (m + 2 + Z.to_nat nlen)); [lia|].
    change (COLOCATED_BSSID =? LCI_CODE) with false.
    change (COLOCATED_BSSID =? Z_CODE) with false.
    change (COLOCATED_BSSID =? USAGE_CODE) with false.
    change (COLOCATED_BSSID =? COLOCATED_BSSID) with true. cbv iota.
    rewrite Hr.
    change (hexstr [COLOCATED_BSSID; nlen; ind])
      with (hexstr [COLOCATED_BSSID; nlen] ++ hexpair ind ++ []).
    rewrite <- !app_assoc. regroup pre. cbn [hexpair app].
    rewrite decodeColocatedBSSID_quot by (try assumption; len).
    cbn [bind app].
    pose proof (octet_at_hexpair ind [] Hind) as Ho. unfold hexpair in Ho. cbn [app] in Ho.
    rewrite Ho, Hq, Nat2Z.id.
    ok_eq; try reflexivity; [f_equal; lia|].
    destruct (nlen mod 6 =? 1); reflexivity.
  - destruct (Z.eq_dec nlen 0) as [->|];
      [subst n; change (Z.to_nat (Z.quot (0 - 1) 6)) with 0%nat;
       split; [lia|discriminate]|].
    specialize (Hn ltac:(lia)). split; intros H; generalize dependent nlen;
      clear; intros; divmod_lia.
  - destruct (Z.eq_dec nlen 0) as [->|];
      [subst n; change (Z.to_nat (Z.quot (0 - 1) 6)) with 0%nat; lia|].
    specialize (Hn ltac:(lia)). generalize dependent nlen; clear; intros; divmod_lia.
Qed.

Lemma decode_BSSID_any_length_witness :
  decode_subelement
    (hexstr [1; 0; 8] ++ (hexstr [COLOCATED_BSSID; 9; 0] ++ list_ascii_of_string "0123456789ab")
     ++ list_ascii_of_string "cdef" ++ [NUL]) 14 3 default_globals
  = Ok (inr (3 + 3 + 6 * Z.to_nat (Z.quot (9 - 1) 6))%nat,
        set_BSSIDS default_globals
          (chunks12 (list_ascii_of_string "0123456789ab") (Z.to_nat (Z.quot (9 - 1) 6))),
        (if 9 mod 6 =? 1 then [] else [ErrBSSIDLength 9])
        ++ indicator_diags 0 (Z.of_nat (Z.to_nat (Z.quot (9 - 1) 6)))
        ++ bssid_errors (chunks12 (list_ascii_of_string "0123456789ab")
                           (Z.to_nat (Z.quot (9 - 1) 6))))
  ∧ ((3 + 3 + 6 * Z.to_nat (Z.quot (9 - 1) 6) = 3 + 2 + Z.to_nat 9)%nat ↔ 9 mod 6 = 1)
  ∧ (3 + 3 + 6 * Z.to_nat (Z.quot (9 - 1) 6) ≤ 3 + 2 + Z.to_nat 9 + 1)%nat.
Proof.
  apply (decode_BSSID_any_length (hexstr [1; 0; 8]) (list_ascii_of_string "cdef" ++ [NUL])
           14 3 default_globals 9 0 (list_ascii_of_string "0123456789ab")).
  - reflexivity.
  - lia.
  - vm_compute. lia.
  - unfold octet. lia.
  - reflexivity.
  - repeat constructor; discriminate.
  - cbn. lia.
Defined.

(** ** Encoding again what was decoded *)

Lemma wr_bits_ext str k n j v v' :
  0 ≤ j → (∀ t, j ≤ t < j + Z.of_nat n → Z.testbit v t = Z.testbit v' t) →
  wr_bits str k n j v = wr_bits str k n j v'.
Proof.
  revert str k j. induction n as [|n IH]; intros str k j Hj H; cbn [wr_bits]; [reflexivity|].
  rewrite (H j) by lia. apply IH; [lia|]. intros t Ht. apply H. lia.
Qed.

Lemma wr_bits_congr str k n v v' :
  v mod 2 ^ Z.of_nat n = v' mod 2 ^ Z.of_nat n → wr_bits str k n 0 v = wr_bits str k n 0 v'.
Proof.
  intros H. apply wr_bits_ext; [lia|]. intros t Ht.
  rewrite <- (Z.mod_pow2_bits_low v (Z.of_nat n) t), <- (Z.mod_pow2_bits_low v' (Z.of_nat n) t)
    by lia.
  now rewrite H.
Qed.

Lemma wr_fields_congr str k fs fs' :
  Forall2 (λ f f', f.1 = f'.1 ∧ f.2 mod 2 ^ Z.of_nat f.1 = f'.2 mod 2 ^ Z.of_nat f.1) fs fs' →
  wr_fields str k fs = wr_fields str k fs'.
Proof.
  intros H. revert str k.
  induction H as [|[w v] [w' v'] fs fs' [Hw Hv] _ IH]; intros str k; [reflexivity|].
  cbn [fst snd] in Hw, Hv. subst w'. cbn [wr_fields].
  rewrite (wr_bits_congr str k w v v' Hv). apply IH.
Qed.

Lemma be_octets_ext n x y :
  (∀ t, 0 ≤ t < 8 * Z.of_nat n → Z.testbit x t = Z.testbit y t) →
  be_octets n x = be_octets n y.
Proof.
  induction n as [|n IH]; intros H; cbn [be_octets]; [reflexivity|]. f_equal.
  - apply Z.bits_inj'. intros i Hi. rewrite !Z.land_spec, !Z.shiftr_spec by lia.
    change 255 with (Z.ones 8). rewrite Z.testbit_ones_nonneg by lia.
    destruct (Z.ltb_spec i 8); [|now rewrite !andb_false_r].
    rewrite (H (i + Z.of_nat n * 8)) by lia. reflexivity.
  - apply IH. intros t Ht. apply H. lia.
Qed.

Lemma be_octets_mod n x : be_octets n (x mod 2 ^ (8 * Z.of_nat n)) = be_octets n x.
Proof. apply be_octets_ext. intros t Ht. apply Z.mod_pow2_bits_low. lia. Qed.

Lemma propagate_sign_residue r n :
  0 < n → 0 ≤ r < 2 ^ n → propagate_sign r n mod 2 ^ n = r.
Proof.
  intros Hn Hr.
  assert (Hp : 2 ^ n = 2 * 2 ^ (n - 1)).
  { rewrite <- Z.pow_succ_r by lia. f_equal. lia. }
  destruct (Z.lt_ge_cases r (2 ^ (n - 1))) as [Hlt|Hge].
  - rewrite <- (Z.mod_small r (2 ^ n)) at 1 by lia.
    rewrite propagate_sign_mod by lia. apply Z.mod_small. lia.
  - replace r with ((r - 2 ^ n) mod 2 ^ n) at 1.
    2:{ symmetry. apply (Z.mod_unique_pos _ _ (-1)); lia. }
    rewrite propagate_sign_mod by lia.
    symmetry. apply (Z.mod_unique_pos _ _ (-1)); lia.
Qed.

Lemma digits_of_hex d : Forall hexchar d → digits_of d = d.
Proof.
  unfold digits_of. induction 1 as [|c d Hc _ IH]; [reflexivity|].
  cbn [List.filter]. rewrite IH.
  unfold hexchar in Hc. now rewrite Hc.
Qed.

Section Reencode.

Variable log2 : Q → Q.

Hypothesis Hlog2 : log2_exact log2.

Lemma uncertainty_code_zero s u m max :
  0 < max → fst (uncertainty_code log2 s u m max) = 0 →
  Qpositive u = false ∧ truthy s = false.
Proof.
  intros Hmax. unfold uncertainty_code, encodebinarydot, Qpositive, MAX_LCI_UNCERTAINTY.
  destruct (Qle_bool u 0); cbn [negb].
  - destruct (truthy s); cbn [negb fst]; [lia|]. intros _. now split.
  - destruct (Z.leb_spec (m - Qceiling (log2 u - eps)) 0); [cbn; lia|].
    destruct (Z.ltb_spec 34 (m - Qceiling (log2 u - eps))); cbn; lia.
Qed.

Lemma uncertainty_code_of_zero s m max :
  truthy s = false → uncertainty_code log2 s 0 m max = (0, []).
Proof. intros H. unfold uncertainty_code. now rewrite H. Qed.

Lemma uncertainty_code_again s u m :
  let c := fst (uncertainty_code log2 s u m MAX_LCI_UNCERTAINTY) in
  fst (uncertainty_code log2 s
         (if clamp_code (c mod 2 ^ 6) =? 0 then 0%Q
          else decodebinarydot (clamp_code (c mod 2 ^ 6)) m) m MAX_LCI_UNCERTAINTY)
  = c.
Proof.
  intros c.
  pose proof (uncertainty_code_range log2 s u m MAX_LCI_UNCERTAINTY ltac:(unfold MAX_LCI_UNCERTAINTY; lia))
    as Hr.
  fold c in Hr. unfold MAX_LCI_UNCERTAINTY in Hr.
  rewrite (Z.mod_small c) by lia. unfold clamp_code, MAX_LCI_UNCERTAINTY.
  destruct (Z.ltb_spec 34 c); [lia|].
  destruct (Z.eqb_spec c 0) as [E|N].
  - destruct (uncertainty_code_zero s u m 34 ltac:(lia) E) as [_ Hs].
    rewrite uncertainty_code_of_zero by exact Hs. now rewrite E.
  - rewrite (uncertainty_code_exp2 log2 Hlog2 s _ m 34 c);
      [reflexivity|reflexivity|unfold MAX_LCI_UNCERTAINTY; lia].
Qed.

Lemma Z_code_again g g2 :
  flags g2 = flags g →
  sta_height_above_floor_uncertainty (zsub g2)
  = (if 0 <? Z_code log2 g then decodebinarydot (Z_code log2 g) 11 else 0%Q) →
  Z_code log2 g2 = Z_code log2 g.
Proof.
  intros Hf Hu. pose proof (Z_code_range log2 g) as Hr. unfold MAX_Z_UNCERTAINTY in Hr.
  unfold Z_code at 1. rewrite Hf, Hu.
  destruct (Z.ltb_spec 0 (Z_code log2 g)) as [Hpos|Hz].
  - rewrite (uncertainty_code_exp2 log2 Hlog2 _ _ 11 _ (Z_code log2 g));
      [|reflexivity|unfold MAX_LCI_UNCERTAINTY; lia].
    cbn [fst]. unfold MAX_Z_UNCERTAINTY. destruct (Z.ltb_spec 24 (Z_code log2 g)); [lia|].
    reflexivity.
  - assert (E : Z_code log2 g = 0) by lia.
    assert (E' : fst (uncertainty_code log2 (smallestflag (flags g))
                        (sta_height_above_floor_uncertainty (zsub g)) 11 MAX_Z_UNCERTAINTY)
                 = 0).
    { revert E. unfold Z_code, MAX_Z_UNCERTAINTY.
      destruct (Z.ltb_spec 24 (fst (uncertainty_code log2 (smallestflag (flags g))
                  (sta_height_above_floor_uncertainty (zsub g)) 11 24))); [lia|auto]. }
    assert (H24 : 0 < MAX_Z_UNCERTAINTY) by (unfold MAX_Z_UNCERTAINTY; lia).
    destruct (uncertainty_code_zero _ _ _ _ H24 E') as [_ Hs].
    rewrite uncertainty_code_of_zero by exact Hs. cbn [fst]. now rewrite E.
Qed.

Lemma round_scaled a p : 0 < p → round (inject_Z a / inject_Z p * inject_Z p) = a.
Proof. intros Hp. now apply (grid_round _ a p Hp). Qed.

Lemma trunc_scaled a p : 0 < p → trunc (inject_Z a / inject_Z p * inject_Z p) = a.
Proof. intros Hp. now apply (grid_trunc _ a p Hp). Qed.

Lemma LCI_body_again g g2 :
  flags g2 = flags g → lci g2 = LCI_of_block (LCI_body log2 g) →
  LCI_body log2 g2 = LCI_body log2 g.
Proof.
  intros Hf Hl. unfold LCI_body at 1. unfold LCI_fields. rewrite Hf, Hl.
  destruct (LCI_body_fields log2 g) as [-> _].
  cbn [LCI_interpret latitude longitude altitude latitude_uncertainty longitude_uncertainty
       altitude_uncertainty Altitude_Type datum RegLoc_Agreement RegLoc_DSE Dependent_STA
       LCI_version].
  rewrite !uncertainty_code_again.
  change (inject_Z (Z.shiftl 1 25)) with (inject_Z (2 ^ 25)).
  change 256%Q with (inject_Z (2 ^ 8)). change (inject_Z (Z.shiftl 1 8)) with (inject_Z (2 ^ 8)).
  rewrite !round_scaled by lia.
  unfold LCI_body, LCI_fields. apply wr_fields_congr.
  repeat (constructor; [split; [reflexivity|]|]); [..|constructor]; cbn [fst snd];
    try reflexivity; try (apply Z.mod_mod; lia).
  - apply propagate_sign_residue; [lia|]. apply Z.mod_pos_bound. lia.
  - apply propagate_sign_residue; [lia|]. apply Z.mod_pos_bound. lia.
Qed.

Lemma Z_octets_again g g2 :
  flags g2 = flags g →
  zsub g2 = Z_decoded (Z_fields_info g mod 2 ^ 16)
              (trunc (sta_height_above_floor (zsub g) * 4096) mod 2 ^ 24) (Z_code log2 g) →
  Z_octets log2 g2 = Z_octets log2 g.
Proof.
  intros Hf Hz. unfold Z_octets.
  rewrite (Z_code_again g g2 Hf) by (now rewrite Hz).
  unfold Z_fields_info at 1. rewrite Hz.
  cbn [Z_decoded expected_to_move sta_floor sta_height_above_floor].
  change 16%Q with (inject_Z 16). change 4096%Q with (inject_Z 4096).
  rewrite !trunc_scaled by lia.
  set (info := Z_fields_info g mod 2 ^ 16).
  assert (Hi : 0 ≤ info < 2 ^ 16) by (apply Z.mod_pos_bound; lia).
  assert (E : Z.lor (Z.land (Z.land info 3) 3) (Z.shiftl (Z.shiftr info 2) 2) = info).
  { apply Z.bits_inj'. intros i Hi'.
    rewrite Z.lor_spec, !Z.land_spec. change 3 with (Z.ones 2).
    rewrite Z.testbit_ones_nonneg by lia.
    destruct (Z.ltb_spec i 2).
    - rewrite Z.shiftl_spec_low by lia. now rewrite !andb_true_r, orb_false_r.
    - rewrite Z.shiftl_spec_high, Z.shiftr_spec by lia.
      rewrite !andb_false_r. cbn [orb]. f_equal. lia. }
  rewrite E. unfold info.
  pose proof (be_octets_mod 2 (Z_fields_info g)) as B2.
  pose proof (be_octets_mod 3 (trunc (sta_height_above_floor (zsub g) * inject_Z 4096))) as B3.
  change (2 ^ (8 * Z.of_nat 2)) with (2 ^ 16) in B2.
  change (2 ^ (8 * Z.of_nat 3)) with (2 ^ 24) in B3.
  rewrite B2, B3. reflexivity.
Qed.

Lemma usage_reconciled_idem u : usage_reconciled (usage_reconciled u) = usage_reconciled u.
Proof.
  unfold usage_reconciled.
  destruct (truthy (retention_expires_present u)) eqn:Et;
    destruct (expiration u =? 0) eqn:E0; cbn [negb];
    cbn [set_retention_expires_present retention_expires_present expiration truthy];
    rewrite ?Et, ?E0; reflexivity.
Qed.

Lemma Usage_decoded_reconciled u :
  wf_usage u → 0 ≤ expiration u < 2 ^ 16 →
  Usage_decoded (Usage_parameters (usage_reconciled u))
    (if truthy (retention_expires_present (usage_reconciled u))
     then expiration (usage_reconciled u) mod 2 ^ 16 else 0)
  = usage_reconciled u.
Proof.
  intros Hu He. pose proof (usage_reconciled_wf _ Hu) as Hu'.
  assert (Hexp : expiration (usage_reconciled u) = expiration u).
  { unfold usage_reconciled. destruct (truthy _), (expiration u =? 0); reflexivity. }
  assert (Hflag : truthy (retention_expires_present (usage_reconciled u)) = false →
                  expiration u = 0).
  { unfold usage_reconciled.
    destruct (truthy (retention_expires_present u)) eqn:Et;
      destruct (Z.eqb_spec (expiration u) 0) as [E0|E0]; cbn [negb]; try (intros _; exact E0).
    - now rewrite Et.
    - cbn. discriminate. }
  rewrite Hexp, (Z.mod_small (expiration u)) by lia. rewrite <- Hexp.
  destruct (Usage_decoded_parameters _ Hu') as [-> _].
  destruct (usage_reconciled u) as [ra rp pol ex] eqn:Eu.
  cbn [retransmission_allowed retention_expires_present STA_location_policy expiration] in *.
  f_equal. destruct (truthy rp) eqn:Et; [reflexivity|].
  rewrite Hexp. symmetry. now apply Hflag.
Qed.

Lemma all_placed_digits bs :
  Forall (λ b, isValidBSSID b = true) bs →
  all_placed (map digits_of bs) = all_placed bs
  ∧ chunks12 (all_placed bs) (length bs) = map digits_of bs.
Proof.
  intros Hb. destruct (all_placed_valid bs Hb) as (E & _ & H12). split.
  - rewrite E. unfold all_placed. clear E.
    induction H12 as [|d ds [Hl Hv] _ IH]; [reflexivity|].
    cbn [map concat]. rewrite IH. f_equal.
    destruct (isValidBSSID_inv d Hv) as (_ & _ & _ & _ & Hid). now apply Hid.
  - rewrite E. rewrite <- (length_map digits_of).
    apply chunks12_concat. eapply Forall_impl; [exact H12|]. now intros d [H _].
Qed.

(** X29. Decoding a string the encoder returned and encoding the result
    gives the same string again, as the check option of [main] prints it:
    for settings with valid BSSIDs, at least one and no more than the array
    [BSSIDS] has slots as [initialize_arrays] allocates it,
    [max_bssids + 1], with their include-flag set, Usage flags that hold 0
    or 1, an expiration that fits two octets, the same option flags at both
    ends, and a [log2] that is exact on the powers of two. *)
Theorem encode_decode_encode g g0 :
  valid_globals g → flags g0 = flags g → emitBSSID g = true →
  (bssid_index g ≤ max_bssids + 1)%nat →
  0 ≤ expiration (usage g) < 2 ^ 16 →
  ∃ str g1 d1 g2 d2 g3 d3,
    encodeLCIstring log2 g = Ok (str, g1, d1)
    ∧ decodeLCIstring str g0 = Ok (g2, d2)
    ∧ encodeLCIstring log2 g2 = Ok (str, g3, d3).
Proof.
  intros Hv Hfl HB _ He. pose proof (valid_wf_globals g Hv) as Hwf.
  rewrite encodeLCIstring_layout. eexists _, _, _, _, _, _, _. split; [reflexivity|].
  split; [apply decode_encoded; [exact Hwf|now apply emitBSSID_any]|].
  rewrite encodeLCIstring_layout.
  destruct (subs_eff_parts log2 g g0) as (Hl & Hz & Hb & Hu & Hf).
  set (g2 := subs_eff (enc_subs log2 g) g0) in *.
  rewrite Hfl in Hf. rewrite HB in Hb. destruct Hv as (Hvb & HN & Hwu).
  destruct (all_placed_digits (BSSIDS g) Hvb) as [Hpl Hch].
  assert (Hbs : BSSIDS g2 = map digits_of (BSSIDS g)).
  { rewrite Hb. exact Hch. }
  assert (Hidx : bssid_index g2 = bssid_index g).
  { unfold bssid_index. rewrite Hbs. apply length_map. }
  assert (HnB : needBSSID g = true).
  { unfold emitBSSID in HB. now apply andb_true_iff in HB as [_ HB]. }
  assert (HnB2 : needBSSID g2 = true) by (unfold needBSSID in *; now rewrite Hidx).
  assert (HeL : emitLCI g2 = emitLCI g) by (unfold emitLCI; now rewrite Hf).
  assert (HeZ : emitZ g2 = emitZ g) by (unfold emitZ; now rewrite Hf).
  assert (HeB : emitBSSID g2 = emitBSSID g).
  { unfold emitBSSID. now rewrite Hf, HnB, HnB2. }
  assert (HeU : emitUsage g2 = emitUsage g).
  { unfold emitUsage. now rewrite Hf, HnB, HnB2, !orb_true_r. }
  assert (Hwire : wire log2 g2 = wire log2 g).
  { unfold wire, segLCI, segZ, segBSSID, segUsage. rewrite HeL, HeZ, HeB, HeU.
    f_equal. f_equal; [|f_equal; [|f_equal]].
    - destruct (emitLCI g); [|reflexivity]. unfold LCI_seg. f_equal.
      now apply LCI_body_again.
    - destruct (emitZ g); [|reflexivity]. f_equal. now apply Z_octets_again.
    - rewrite HB. unfold BSSID_seg. rewrite Hidx, Hbs, Hpl. reflexivity.
    - destruct (emitUsage g); [|reflexivity]. f_equal.
      cbn [subUsage eff usage set_usage] in Hu. rewrite Hu.
      rewrite Usage_decoded_reconciled by assumption.
      unfold Usage_octets. now rewrite usage_reconciled_idem. }
  assert (HR : R0 g2 = R0 g) by (unfold R0; now rewrite Hidx).
  rewrite Hwire, HR. reflexivity.
Qed.

End Reencode.

Lemma encode_decode_encode_witness :
  ∃ str g1 d1 g2 d2 g3 d3,
    encodeLCIstring log2_model one_bssid = Ok (str, g1, d1)
    ∧ decodeLCIstring str default_globals = Ok (g2, d2)
    ∧ encodeLCIstring log2_model g2 = Ok (str, g3, d3).
Proof.
  apply (encode_decode_encode log2_model log2_model_exact one_bssid default_globals).
  - exact valid_one_bssid.
  - reflexivity.
  - reflexivity.
  - vm_compute. lia.
  - cbn. lia.
Defined.

(** X30. A Z subelement whose declared length is not 6.  With length 5
    the decoder still reads it, taking the height above floor from two
    octets instead of three, reports the length, and goes on after the
    five octets; with any other length it reports the length and skips
    the subelement, leaving the Z settings as they were. *)
Theorem decode_Z_other_length pre post slen m g0 info h code :
  length pre = (m * 2)%nat → octet code → (m + 7 ≤ slen)%nat →
  decode_subelement
    (pre ++ hexstr ([Z_CODE; 5] ++ be_octets 2 info ++ be_octets 2 h ++ [code]) ++ post)
    slen m g0
  = Ok (inr (m + 7)%nat,
        set_zsub g0 (Z_decoded (info mod 2 ^ 16) (h mod 2 ^ 16) code),
        ErrZLength 5 ::
        (if MAX_Z_UNCERTAINTY <? code then [ErrZUncertaintyCode code] else []))
  ∧ ∀ nlen body,
      octet nlen → nlen ≠ 6 → nlen ≠ 5 → (m + 2 + Z.to_nat nlen ≤ slen)%nat →
      decode_subelement (pre ++ hexstr ([Z_CODE; nlen] ++ body) ++ post) slen m g0
      = Ok (inr (m + 2 + Z.to_nat nlen)%nat, g0, [ErrZLength nlen]).
Proof.
  intros Hpre Hcode Hslen. split.
  - unfold decode_subelement. cbn [app].
    rewrite getoctet_hexstr0 by (try exact Hpre; unfold octet, Z_CODE; lia). cbn [bind].
    rewrite getoctet_hexstr1 by (try exact Hpre; unfold octet; lia). cbn [bind].
    change (Z.to_nat 5) with 5%nat.
    destruct (Nat.ltb_spec slen (m + 2 + 5)); [lia|].
    change (Z_CODE =? LCI_CODE) with false. change (Z_CODE =? Z_CODE) with true.
    change (5 =? 6) with false. change (5 =? 5) with true. cbn [negb andb app].
    change (hexstr (Z_CODE :: 5 :: be_octets 2 info ++ be_octets 2 h ++ [code]))
      with (hexstr ([Z_CODE; 5] ++ be_octets 2 info ++ be_octets 2 h ++ [code])).
    rewrite !hexstr_app, <- !app_assoc.
    regroup pre. rewrite getnumber_be by len. cbn [bind].
    regroup (pre ++ hexstr [Z_CODE; 5]). rewrite getnumber_be by len. cbn [bind].
    regroup ((pre ++ hexstr [Z_CODE; 5]) ++ hexstr (be_octets 2 info)).
    rewrite getoctet_hexstr0 by (try exact Hcode; len). cbn [bind].
    ok_eq; try reflexivity. f_equal. lia.
  - intros nlen body Hnlen H6 H5 Hs. unfold decode_subelement. cbn [app].
    rewrite getoctet_hexstr0 by (try exact Hpre; unfold octet, Z_CODE; lia). cbn [bind].
    rewrite getoctet_hexstr1 by (try exact Hpre; exact Hnlen). cbn [bind].
    destruct (Nat.ltb_spec slen (m + 2 + Z.to_nat nlen)); [lia|].
    change (Z_CODE =? LCI_CODE) with false. change (Z_CODE =? Z_CODE) with true.
    destruct (Z.eqb_spec nlen 6); [contradiction|].
    destruct (Z.eqb_spec nlen 5); [contradiction|]. reflexivity.
Qed.

Lemma decode_Z_other_length_witness :
  decode_subelement
    (hexstr [1; 0; 8]
     ++ hexstr ([Z_CODE; 5] ++ be_octets 2 65 ++ be_octets 2 4096 ++ [13]) ++ [NUL])
    10 3 default_globals
  = Ok (inr (3 + 7)%nat,
        set_zsub default_globals (Z_decoded (65 mod 2 ^ 16) (4096 mod 2 ^ 16) 13),
        ErrZLength 5 ::
        (if MAX_Z_UNCERTAINTY <? 13 then [ErrZUncertaintyCode 13] else []))
  ∧ ∀ nlen body,
      octet nlen → nlen ≠ 6 → nlen ≠ 5 → (3 + 2 + Z.to_nat nlen ≤ 10)%nat →
      decode_subelement (hexstr [1; 0; 8] ++ hexstr ([Z_CODE; nlen] ++ body) ++ [NUL])
        10 3 default_globals
      = Ok (inr (3 + 2 + Z.to_nat nlen)%nat, default_globals, [ErrZLength nlen]).
Proof.
  apply (decode_Z_other_length (hexstr [1; 0; 8]) [NUL] 10 3 default_globals 65 4096 13).
  - reflexivity.
  - unfold octet. lia.
  - lia.
Defined.
